(** * proxy-cache: a caching, call-coalescing proxy (lib/index.js)

    A shallow embedding of [lib/index.js] and the properties its
    specification states about it.

    - [Key]      the key generator [_key]: [Array.prototype.join] on
                 [[method].concat(args)].
    - [JS]       result values, the object heap, [typeof], truthiness,
                 comparison with [undefined], and [clone].
    - [LRU]      the cache store the wrapper consumes.
    - [Wrap]     the function [_wrap] returns: the state it works on, the
                 completion callback it pushes onto the arguments, [done],
                 [_get], [_has], and the event loop around them.
    - [Unwind]   [done] and the completion callback when a client
                 callback throws.
    - [Build]    the constructor [ProxyCache], [_proxy], and [_wrap] up to
                 the function it returns.
    - [Sample]   clients, options, heaps and instances the worked
                 instances run on.

    The wrapper runs on one event loop.  Its environment, as [Wrap.step]
    has it: client code calls the wrapped method, with a callback as the
    last argument, and writes to objects it was handed; the underlying
    method completes an invocation at most once, at any point after the
    call that made it, and does not throw; the scheduler runs the tasks
    handed to [tick] in order; a callback may call the wrapped method
    and write to objects before it returns, and returns normally.  The
    wrapper's own members ([cache], [stats], [_key], [_has], [_get]) are
    the ones its constructor and prototype gave it; what the constructor
    does to them is [Build]'s matter.  The constructor keeps the
    members of the instance on the wrapper itself, next to [_proxy] and
    [_wrap]: where it comes to call a function of the instance in their
    place, what that function returns is [Build.outside]'s to say. *)

From Stdlib Require Import ZArith Ascii String List Bool Lia DecimalString.
From stdpp Require Import gmap strings list.

Local Open Scope string_scope.
Set Warnings "-register-all,-abstract-large-number".

(* ===================================================================== *)
(** ** Key generator *)
(* ===================================================================== *)

Module Key.

(** An argument of a wrapped call, as [Array.prototype.join] observes it.
    Numbers are the integers JavaScript prints in plain decimal; an object
    is a plain object (its [toString] is [Object.prototype.toString]). *)
Inductive arg : Type :=
| AUndefined
| ANull
| ABool (b : bool)
| ANum (n : Z)
| AStr (s : string)
| AArr (elems : list arg)
| AObj.

Definition number_to_string (n : Z) : string :=
  NilZero.string_of_int (Z.to_int n).

(** [Array.prototype.join]: [undefined] and [null] elements contribute the
    empty string, every other element its [ToString]. *)
Definition join (to_string : arg -> string) (sep : string) (elems : list arg) : string :=
  String.concat sep
    (map (fun e => match e with
                   | AUndefined | ANull => ""
                   | _ => to_string e
                   end) elems).

(** ECMAScript [ToString]; an array stringifies as its [join(",")]. *)
Fixpoint ToString (a : arg) : string :=
  match a with
  | AUndefined => "undefined"
  | ANull => "null"
  | ABool true => "true"
  | ABool false => "false"
  | ANum n => number_to_string n
  | AStr s => s
  | AArr elems => join ToString "," elems
  | AObj => "[object Object]"
  end.

(** What one element contributes to a joined string. *)
Definition stringified (a : arg) : string :=
  match a with
  | AUndefined | ANull => ""
  | _ => ToString a
  end.

(** [ProxyCache.prototype._key]:
    [return [method].concat(args).join(':')]. *)
Definition _key (method : string) (args : list arg) : string :=
  join ToString ":" ([AStr method] ++ args).

(** A string holds no occurrence of the separator character. *)
Fixpoint sep_free (s : string) : Prop :=
  match s with
  | EmptyString => True
  | String c r => c <> ":"%char /\ sep_free r
  end.

End Key.

(* ===================================================================== *)
(** ** Result values, the object heap and [clone] *)
(* ===================================================================== *)

Module JS.

(** Objects live in a heap and are handed around by reference. *)
Definition loc : Type := positive.

(** A value an underlying method can produce, a member of an instance can
    hold, or a completion callback can receive as its error. *)
Inductive value : Type :=
| VUndefined
| VNull
| VBool (b : bool)
| VNum (n : Z)
| VStr (s : string)
| VObj (l : loc)
| VFun (f : nat).

(** A plain data object: its enumerable members by name. *)
Abbreviation object := (gmap string value).
Abbreviation heap := (gmap loc (gmap string value)).

(** The [typeof] operator. *)
Definition typeof (v : value) : string :=
  match v with
  | VUndefined => "undefined"
  | VNull => "object"
  | VBool _ => "boolean"
  | VNum _ => "number"
  | VStr _ => "string"
  | VObj _ => "object"
  | VFun _ => "function"
  end.

(** ECMAScript [ToBoolean], the test of [if (v)]. *)
Definition truthy (v : value) : bool :=
  match v with
  | VUndefined | VNull => false
  | VBool b => b
  | VNum n => negb (n =? 0)%Z
  | VStr s => negb (String.eqb s "")
  | VObj _ | VFun _ => true
  end.

(** [v != undefined]: the loose comparison holds [null] equal to
    [undefined] and nothing else. *)
Definition loose_neq_undefined (v : value) : bool :=
  match v with
  | VUndefined | VNull => false
  | _ => true
  end.

(** [v !== undefined], the strict comparison. *)
Definition strict_neq_undefined (v : value) : bool :=
  match v with
  | VUndefined => false
  | _ => true
  end.

(** [o[p] = v] on the object at [l]. *)
Definition write (l : loc) (p : string) (v : value) (h : heap) : heap :=
  alter (fun o : object => <[p := v]> o) l h.

(** [o[p]] on the object at [l]. *)
Definition read (l : loc) (p : string) (h : heap) : value :=
  match h !! l with
  | Some o => default VUndefined (o !! p)
  | None => VUndefined
  end.

(** The members of the object a value refers to, when it refers to one. *)
Definition members (h : heap) (v : value) : option object :=
  match v with
  | VObj l => h !! l
  | _ => None
  end.

(** Modelled from the spec: the copies the spec speaks of are made by the
    [clone] package, a dependency outside the sources, called by [_get]
    as [clone(parent, circular, depth)] with [circular = true] and
    [depth = 1].  [_clone] is the package's recursion on plain objects:
    [null], a value that is not an object, and any value at depth 0 are
    returned as they are; otherwise a child object is created, entered
    into the table of parents already copied (when [circular] is set) and
    filled, member by member, with the copies of the parent's members
    made at [depth - 1]. *)
Fixpoint _clone (circular : bool) (depth : nat) (parent : value)
    (st : heap * list (loc * loc)) : value * (heap * list (loc * loc)) :=
  match depth, parent with
  | S d, VObj l =>
      match st.1 !! l with
      | None => (parent, st)
      | Some o =>
          match (if circular then list_find (fun pc => bool_decide (pc.1 = l)) st.2 else None) with
          | Some (_, (_, child)) => (VObj child, st)
          | None =>
              let child := fresh (dom st.1) in
              let st1 := (<[child := (∅ : object)]> st.1,
                          if circular then (st.2 ++ [(l, child)])%list else st.2) in
              (VObj child,
               foldr (fun iv st' =>
                        let r := _clone circular d iv.2 st' in
                        (write child iv.1 r.1 r.2.1, r.2.2))
                     st1 (map_to_list o))
          end
      end
  | _, _ => (parent, st)
  end.

(** Modelled from the spec: [clone(parent, circular, depth)], the copy
    and the heap it leaves. *)
Definition clone (parent : value) (circular : bool) (depth : nat) (h : heap)
    : value * heap :=
  let r := _clone circular depth parent (h, []) in (r.1, r.2.1).

End JS.

(* ===================================================================== *)
(** ** The cache store *)
(* ===================================================================== *)

Module LRU.

Import JS.

(** Modelled from the spec: the Cache Store, the [lru-cache] package, is a
    dependency outside the sources.  It is a container keyed by string,
    bounded by [max] entries and by [maxAge] per entry; [get] refreshes an
    entry's recency and [peek] does not; [set] makes the entry the most
    recent one and evicts least recently used entries over capacity; a
    read of a missing or expired key finds nothing, and drops the expired
    entry (with [stale], handing it out that once). *)
Record entry : Type := Entry {
  key : string;
  value : JS.value;
  now : Z
}.

(** Modelled from the spec: the store's bounds and its entries, the most
    recently used first. *)
Record t : Type := Cache {
  max : nat;
  maxAge : Z;
  stale : bool;
  entries : list entry
}.

(** Modelled from the spec: [new LRU(options)], an empty store. *)
Definition create (max : nat) (maxAge : Z) (stale : bool) : t :=
  Cache max maxAge stale [].

Definition with_entries (c : t) (l : list entry) : t :=
  Cache (max c) (maxAge c) (stale c) l.

(** Modelled from the spec: the entry stored under a key, expired or
    not. *)
Definition find (c : t) (k : string) : option entry :=
  List.find (fun e => String.eqb (key e) k) (entries c).

Definition remove (k : string) (l : list entry) : list entry :=
  List.filter (fun e => negb (String.eqb (key e) k)) l.

(** Modelled from the spec: an entry is expired once its age exceeds
    [maxAge]. *)
Definition expired (c : t) (e : entry) (t_now : Z) : bool :=
  (maxAge c <? t_now - now e)%Z.

(** Modelled from the spec: [has(key)], whether a read would find the
    key: it is stored and not expired. *)
Definition has (c : t) (k : string) (t_now : Z) : bool :=
  match find c k with
  | Some e => negb (expired c e t_now)
  | None => false
  end.

(** Modelled from the spec: a read.  A missing key reads [undefined];
    an expired entry is dropped (lazy expiry on lookup) and reads
    [undefined], or its value once if [stale] is set; a live entry reads
    its value, and becomes the most recent one if the read refreshes. *)
Definition lookup_entry (refresh : bool) (c : t) (k : string) (t_now : Z)
    : JS.value * t :=
  match find c k with
  | None => (VUndefined, c)
  | Some e =>
      if expired c e t_now
      then (if stale c then value e else VUndefined,
            with_entries c (remove k (entries c)))
      else (value e,
            if refresh then with_entries c (e :: remove k (entries c)) else c)
  end.

(** Modelled from the spec: [get] refreshes recency, [peek] does not. *)
Definition get : t -> string -> Z -> JS.value * t := lookup_entry true.
Definition peek : t -> string -> Z -> JS.value * t := lookup_entry false.

(** Modelled from the spec: [set(key, value)] makes the entry the most
    recent one and evicts the least recently used entries over [max]. *)
Definition set (c : t) (k : string) (v : JS.value) (t_now : Z) : t :=
  with_entries c (firstn (max c) (Entry k v t_now :: remove k (entries c))).

(** Modelled from the spec: [length], the current entry count. *)
Definition length (c : t) : nat := List.length (entries c).

End LRU.

(* ===================================================================== *)
(** ** The caching wrapper returned by [_wrap] *)
(* ===================================================================== *)

Module Wrap.

Import Key JS.

(** A completion callback of the client, by identity. *)
Definition callback : Type := nat.

(** The options object after [defaults]; [max], [maxAge] and [stale] are
    consumed by the cache store, [peek] by [_get], [tombstone] by the
    completion callback. *)
Record options : Type := Options {
  max : nat;
  maxAge : Z;
  stale : bool;
  peek : bool;
  tombstone : bool
}.

(** A call received by the metrics sink [self.stats]. *)
Inductive metric : Type :=
| Incr (name : string) (delta : Z) (tags : list string)
| Gauge (name : string) (value : Z) (tags : list string)
| Timer (name : string) (ms : Z) (tags : list string).

(** What an own property of [inFlight] holds: the array of queued
    callbacks, or [null] once [done] has run. *)
Inductive slot : Type :=
| Waiting (fns : list callback)
| Cleared.

(** [inFlight] is created as [{}]: a name it has no own property for
    resolves along its prototype chain, to a member of
    [Object.prototype] when there is one of that name. *)
Definition object_prototype : list string :=
  [ "constructor"; "hasOwnProperty"; "isPrototypeOf"; "propertyIsEnumerable";
    "toLocaleString"; "toString"; "valueOf"; "__proto__";
    "__defineGetter__"; "__defineSetter__"; "__lookupGetter__";
    "__lookupSetter__" ].

Inductive found : Type :=
| FUndefined
| FNull
| FArray (fns : list callback)
| FInherited.

(** [inFlight[key]]. *)
Definition inFlight_get (inFlight : gmap string slot) (key : string) : found :=
  match inFlight !! key with
  | Some (Waiting fns) => FArray fns
  | Some Cleared => FNull
  | None => if bool_decide (key ∈ object_prototype) then FInherited else FUndefined
  end.

(** An invocation of the underlying method: the key and arguments it was
    made for, the time the wrapped call started, and whether it has called
    its completion callback. *)
Record invocation : Type := Invocation {
  u_key : string;
  u_args : list arg;
  u_start : Z;
  u_completed : bool
}.

(** An invocation of a client callback: [fn(err, result)]. *)
Record delivery : Type := Delivery {
  d_fn : callback;
  d_err : value;
  d_result : value
}.

(** What a client callback does before it returns. *)
Inductive action : Type :=
| ACall (args : list arg) (fn : callback)
| AWrite (l : loc) (p : string) (v : value).

Definition client : Type := callback -> value -> value -> list action.

(** How a function call ends. *)
Inductive outcome : Type :=
| Returned
| Threw.

(** The state a wrapped method works on: [self.cache], the object heap,
    the [inFlight] registry of its closure, the calls made to
    [self.stats], the tasks handed to [tick], the invocations of the
    underlying method, and the callback invocations made so far. *)
Record state : Type := State {
  cache : LRU.t;
  heap : JS.heap;
  inFlight : gmap string slot;
  stats : list metric;
  ticks : list (callback * value);
  upstream : list invocation;
  delivered : list delivery
}.

Definition set_cache (c : LRU.t) (s : state) : state :=
  State c (heap s) (inFlight s) (stats s) (ticks s) (upstream s) (delivered s).
Definition set_heap (h : JS.heap) (s : state) : state :=
  State (cache s) h (inFlight s) (stats s) (ticks s) (upstream s) (delivered s).
Definition set_inFlight (r : gmap string slot) (s : state) : state :=
  State (cache s) (heap s) r (stats s) (ticks s) (upstream s) (delivered s).
Definition set_stats (m : list metric) (s : state) : state :=
  State (cache s) (heap s) (inFlight s) m (ticks s) (upstream s) (delivered s).
Definition set_ticks (q : list (callback * value)) (s : state) : state :=
  State (cache s) (heap s) (inFlight s) (stats s) q (upstream s) (delivered s).
Definition set_upstream (u : list invocation) (s : state) : state :=
  State (cache s) (heap s) (inFlight s) (stats s) (ticks s) u (delivered s).
Definition set_delivered (d : list delivery) (s : state) : state :=
  State (cache s) (heap s) (inFlight s) (stats s) (ticks s) (upstream s) d.

(** A fresh wrapper over a heap [h]: [new LRU(this.options)] and
    [var inFlight = {}]. *)
Definition init (opts : options) (h : JS.heap) : state :=
  State (LRU.create (max opts) (maxAge opts) (stale opts)) h ∅ [] [] [] [].

(** [self.stats.incr], [.gauge], [.timer]. *)
Definition emit (m : metric) (s : state) : state :=
  set_stats (stats s ++ [m])%list s.

(** [tick(function(){ callback(null, cached); })]. *)
Definition tick (callback : callback) (cached : value) (s : state) : state :=
  set_ticks (ticks s ++ [(callback, cached)])%list s.

(** [instance[method].apply(instance, args)], [args] ending in the
    completion callback. *)
Definition apply_upstream (key : string) (args : list arg) (start : Z)
    (s : state) : state :=
  set_upstream (upstream s ++ [Invocation key args start false])%list s.

Section Wrapped.

Variable react : client.
Variable opts : options.
Variable method : string.

Definition tags : list string := ["method:" ++ method].

(** [ProxyCache.prototype._has]. *)
Definition _has (key : string) (t_now : Z) (s : state) : bool :=
  LRU.has (cache s) key t_now.

(** [ProxyCache.prototype._get]:
    [clone(get.call(cache, key), true, 1)] with [get] the store's [peek]
    or [get]. *)
Definition _get (key : string) (t_now : Z) (s : state) : value * state :=
  let r := (if peek opts then LRU.peek else LRU.get) (cache s) key t_now in
  let c := clone r.1 true 1 (heap s) in
  (c.1, set_heap c.2 (set_cache r.2 s)).

(** The function [_wrap] returns (lines 95-149), called with [args]
    followed by [callback] at time [t_now]. *)
Definition wrapped (args : list arg) (callback : callback) (t_now : Z)
    (s : state) : state * outcome :=
  let key := _key method args in
  let start := t_now in
  let s := emit (Incr "proxy-cache.calls" 1 tags) s in
  let s := emit (Gauge "proxy-cache.size" (Z.of_nat (LRU.length (cache s))) tags) s in
  if _has key t_now s then
    let s := emit (Incr "proxy-cache.hit" 1 tags) s in
    let r := _get key t_now s in
    (tick callback r.1 r.2, Returned)
  else
    match inFlight_get (inFlight s) key with
    | FArray fns =>
        (set_inFlight (<[key := Waiting (fns ++ [callback])]> (inFlight s)) s,
         Returned)
    | FInherited => (s, Threw)
    | FUndefined | FNull =>
        let s := set_inFlight (<[key := Waiting [callback]]> (inFlight s)) s in
        let s := emit (Incr "proxy-cache.miss" 1 tags) s in
        (apply_upstream key args start s, Returned)
    end.

(** One thing a client callback does: a further wrapped call (whose
    exception, if any, the callback keeps to itself) or a write. *)
Definition perform (t_now : Z) (s : state) (a : action) : state :=
  match a with
  | ACall args fn => (wrapped args fn t_now s).1
  | AWrite l p v => set_heap (write l p v (heap s)) s
  end.

(** [fn(err, result)]: the invocation is recorded, then the callback runs. *)
Definition invoke (fn : callback) (err result : value) (t_now : Z)
    (s : state) : state :=
  foldl (perform t_now)
        (set_delivered (delivered s ++ [Delivery fn err result])%list s)
        (react fn err result).

(** [done(err, result)] (lines 130-144).  [forEach] visits the elements
    the array held when it was called. *)
Definition done (key : string) (err result : value) (t_now : Z) (s : state)
    : state * outcome :=
  match inFlight_get (inFlight s) key with
  | FArray fns =>
      let s :=
        if truthy err
        then foldl (fun s fn => invoke fn err VUndefined t_now s) s fns
        else foldl (fun s fn => invoke fn VNull result t_now s) s fns in
      (set_inFlight (<[key := Cleared]> (inFlight s)) s, Returned)
  | _ => (s, Threw)
  end.

(** The completion callback pushed onto [args] (lines 121-127), called
    with [(err, result)] at time [t_now]. *)
Definition completion (key : string) (start : Z) (err result : value)
    (t_now : Z) (s : state) : state * outcome :=
  let s := emit (Timer "proxy-cache.duration" (t_now - start) tags) s in
  if truthy err then done key err VUndefined t_now s
  else
    let present := loose_neq_undefined result in
    let s := if present || tombstone opts
             then set_cache (LRU.set (cache s) key result t_now) s
             else s in
    done key VNull result t_now s.

(** The moves of the environment: a call of the wrapped method; the
    underlying method completing its [i]-th invocation; the scheduler
    running the next task handed to [tick]; a client writing to an object. *)
Inductive event : Type :=
| Call (args : list arg) (fn : callback) (t_now : Z)
| Complete (i : nat) (err result : value) (t_now : Z)
| Tick (t_now : Z)
| Write (l : loc) (p : string) (v : value).

Definition mark_completed (i : nat) (s : state) : state :=
  set_upstream
    (alter (fun u => Invocation (u_key u) (u_args u) (u_start u) true) i
           (upstream s)) s.

Definition step (s : state) (e : event) : state :=
  match e with
  | Call args fn t_now => (wrapped args fn t_now s).1
  | Complete i err result t_now =>
      match upstream s !! i with
      | Some u =>
          if u_completed u then s
          else (completion (u_key u) (u_start u) err result t_now
                           (mark_completed i s)).1
      | None => s
      end
  | Tick t_now =>
      match ticks s with
      | [] => s
      | (fn, cached) :: rest => invoke fn VNull cached t_now (set_ticks rest s)
      end
  | Write l p v => set_heap (write l p v (heap s)) s
  end.

Definition run (s : state) (es : list event) : state := foldl step s es.

End Wrapped.

(** A call of the wrapped method: its arguments, its callback (the last
    argument) and the time it is made. *)
Record call : Type := Called {
  c_args : list arg;
  c_fn : callback;
  c_time : Z
}.

Definition call_event (c : call) : event :=
  Call (c_args c) (c_fn c) (c_time c).

(** A client assigning to a member of the object at [l]:
    [o[w.1] = w.2]. *)
Definition write_event (l : loc) (w : string * value) : event :=
  Write l w.1 w.2.

(** Invocation [i] of the underlying method is outstanding: made, and not
    completed yet. *)
Definition pending (s : state) (i : nat) (u : invocation) : Prop :=
  upstream s !! i = Some u /\ u_completed u = false.

(** The registry reads idle for [key]: [if (inFlight[key])] fails. *)
Definition idle (s : state) (key : string) : Prop :=
  inFlight_get (inFlight s) key = FUndefined
  \/ inFlight_get (inFlight s) key = FNull.

(** The states a wrapper can be in: those the environment's moves lead to
    from a fresh wrapper. *)
Definition reachable (react : client) (opts : options) (method : string)
    (s : state) : Prop :=
  exists h es, s = run react opts method (init opts h) es.

(** Every outstanding invocation has its key's queue in the registry, and
    no two outstanding invocations share a key. *)
Definition one_in_flight (s : state) : Prop :=
  (forall i j u v,
     pending s i u -> pending s j v -> u_key u = u_key v -> i = j)
  /\ (forall i u, pending s i u ->
        exists fns, inFlight s !! u_key u = Some (Waiting fns)).

(** [done] is delivering for [key]: its invocation has completed and its
    queue is still in the registry. *)
Definition draining (key : string) (s : state) : Prop :=
  one_in_flight s
  /\ (forall i u, pending s i u -> u_key u <> key)
  /\ exists fns, inFlight s !! key = Some (Waiting fns).

(** The metrics every call of a wrapped method starts with. *)
Definition calls_and_size (method : string) (s : state) : list metric :=
  [ Incr "proxy-cache.calls" 1 (tags method);
    Gauge "proxy-cache.size" (Z.of_nat (LRU.length (cache s))) (tags method) ].

(** What [done(err, result)] calls each queued callback with: [fn(err)]
    or [fn(null, result)]. *)
Definition handed (err result : value) : value * value :=
  if truthy err then (err, VUndefined) else (VNull, result).

(** What running a task handed to [tick] invokes:
    [callback(null, cached)]. *)
Definition task_delivery (task : callback * value) : delivery :=
  Delivery task.1 VNull task.2.

(** Whether the completion callback, called with [(err, result)], calls
    [self.cache.set]: [if (err) return ...] and
    [if (present || tombstone) ...]. *)
Definition stores (opts : options) (err result : value) : bool :=
  negb (truthy err) && (loose_neq_undefined result || tombstone opts).

Definition is_timer (m : metric) : bool :=
  match m with
  | Timer _ _ _ => true
  | _ => false
  end.

(** What a call of the wrapped method, a write of the client, and hence a
    whole callback leave alone: no callback is invoked, the store's
    lookups and bounds stay, and tasks and metrics are only added at the
    end, no timer among them. *)
Record frame (s s' : state) : Prop := Frame {
  frame_delivered : delivered s' = delivered s;
  frame_find : forall k, LRU.find (cache s') k = LRU.find (cache s) k;
  frame_max : LRU.max (cache s') = LRU.max (cache s);
  frame_maxAge : LRU.maxAge (cache s') = LRU.maxAge (cache s);
  frame_ticks : exists more, ticks s' = (ticks s ++ more)%list;
  frame_stats : exists more,
      stats s' = (stats s ++ more)%list
      /\ forallb (fun m => negb (is_timer m)) more = true
}.

(** The options with another [stale], and the state a wrapper is in when
    its store was created with another [stale]. *)
Definition set_stale (b : bool) (o : options) : options :=
  Options (max o) (maxAge o) b (peek o) (tombstone o).

Definition with_stale (b : bool) (s : state) : state :=
  set_cache (LRU.Cache (LRU.max (cache s)) (LRU.maxAge (cache s)) b
                       (LRU.entries (cache s))) s.

(** The calls the metrics sink received that increment the counter
    [name]. *)
Definition is_incr (name : string) (m : metric) : bool :=
  match m with
  | Incr n _ _ => String.eqb n name
  | _ => false
  end.

Definition is_gauge (name : string) (m : metric) : bool :=
  match m with
  | Gauge n _ _ => String.eqb n name
  | _ => false
  end.

Definition count (p : metric -> bool) (ms : list metric) : nat :=
  List.length (List.filter p ms).

(** The invocations of the underlying method that have completed. *)
Definition completed (s : state) : nat :=
  List.length (List.filter u_completed (upstream s)).

(** The metrics received so far add up with what the wrapper has done:
    one [proxy-cache.miss] per invocation of the underlying method, one
    [proxy-cache.duration] per completed invocation, one
    [proxy-cache.size] per [proxy-cache.calls], and no more hits and
    misses together than calls. *)
Definition tally (s : state) : Prop :=
  count (is_incr "proxy-cache.miss") (stats s) = List.length (upstream s)
  /\ count is_timer (stats s) = completed s
  /\ count (is_incr "proxy-cache.calls") (stats s)
     = count (is_gauge "proxy-cache.size") (stats s)
  /\ (count (is_incr "proxy-cache.hit") (stats s)
      + count (is_incr "proxy-cache.miss") (stats s)
      <= count (is_incr "proxy-cache.calls") (stats s))%nat.

(** Every queue of the registry holds a callback and, unless it is the
    queue [done] is delivering, is the queue of an outstanding
    invocation. *)
Definition queues_are_owned (delivering : option string) (s : state) : Prop :=
  forall key fns,
    inFlight s !! key = Some (Waiting fns) ->
    fns <> []
    /\ (delivering = Some key \/ exists i u, pending s i u /\ u_key u = key).

(** What a call of the wrapped method, and hence a callback, leaves in
    place: the invocations made so far, and every queue of the registry,
    to which callbacks are only added. *)
Definition grows (s s' : state) : Prop :=
  (exists more, upstream s' = (upstream s ++ more)%list)
  /\ forall key q,
       inFlight s !! key = Some (Waiting q) ->
       exists more, inFlight s' !! key = Some (Waiting (q ++ more)%list).

(** What a callback does holds no write to an object. *)
Definition no_write (acts : list action) : Prop :=
  Forall (fun a => match a with
                   | AWrite _ _ _ => False
                   | ACall _ _ => True
                   end) acts.

(** A key whose queue is in the registry while no invocation is
    outstanding for it. *)
Definition stranded (key : string) (s : state) : Prop :=
  (exists fns, inFlight s !! key = Some (Waiting fns))
  /\ forall i u, pending s i u -> u_key u <> key.


End Wrap.

(* ===================================================================== *)
(** ** Callbacks that throw *)
(* ===================================================================== *)

Module Unwind.

Import Key JS Wrap.

Section Wrapped.

Variable react : client.

(** Whether [fn(err, result)] ends by throwing, once it has done what
    [react] says. *)
Variable throws : callback -> value -> value -> bool.

Variable opts : options.
Variable method : string.

(** [fn(err, result)], and how it ends. *)
Definition invoke (fn : callback) (err result : value) (t_now : Z)
    (s : state) : state * outcome :=
  (Wrap.invoke react opts method fn err result t_now s,
   if throws fn err result then Threw else Returned).

(** [fns.forEach(f)]: [f] on the elements in order; an exception ends
    the loop. *)
Fixpoint forEach (f : callback -> state -> state * outcome)
    (fns : list callback) (s : state) : state * outcome :=
  match fns with
  | [] => (s, Returned)
  | fn :: rest =>
      let r := f fn s in
      match r.2 with
      | Returned => forEach f rest r.1
      | Threw => r
      end
  end.

(** [done(err, result)] (lines 130-144): the assignment
    [inFlight[key] = null] is reached when [forEach] returns. *)
Definition done (key : string) (err result : value) (t_now : Z) (s : state)
    : state * outcome :=
  match inFlight_get (inFlight s) key with
  | FArray fns =>
      let r :=
        if truthy err
        then forEach (fun fn => invoke fn err VUndefined t_now) fns s
        else forEach (fun fn => invoke fn VNull result t_now) fns s in
      match r.2 with
      | Returned =>
          (set_inFlight (<[key := Cleared]> (inFlight r.1)) r.1, Returned)
      | Threw => r
      end
  | _ => (s, Threw)
  end.

(** The completion callback (lines 121-127). *)
Definition completion (key : string) (start : Z) (err result : value)
    (t_now : Z) (s : state) : state * outcome :=
  let s := emit (Timer "proxy-cache.duration" (t_now - start) (tags method)) s in
  if truthy err then done key err VUndefined t_now s
  else
    let present := loose_neq_undefined result in
    let s := if present || tombstone opts
             then set_cache (LRU.set (cache s) key result t_now) s
             else s in
    done key VNull result t_now s.

(** The moves of the environment, and how the code each of them runs
    ends. *)
Definition step (s : state) (e : event) : state * outcome :=
  match e with
  | Call args fn t_now => wrapped opts method args fn t_now s
  | Complete i err result t_now =>
      match upstream s !! i with
      | Some u =>
          if u_completed u then (s, Returned)
          else completion (u_key u) (u_start u) err result t_now
                          (mark_completed i s)
      | None => (s, Returned)
      end
  | Tick t_now =>
      match ticks s with
      | [] => (s, Returned)
      | (fn, cached) :: rest => invoke fn VNull cached t_now (set_ticks rest s)
      end
  | Write l p v => (set_heap (write l p v (heap s)) s, Returned)
  end.

(** The program going on after each move, whichever way it ended. *)
Definition run (s : state) (es : list event) : state :=
  foldl (fun s e => (step s e).1) s es.

End Wrapped.

(** The callbacks that never throw. *)
Definition never : callback -> value -> value -> bool := fun _ _ _ => false.

End Unwind.

(* ===================================================================== *)
(** ** The constructor [ProxyCache] and [_proxy] *)
(* ===================================================================== *)

Module Build.

Import JS.

(** An object as the constructor sees it: the names [for (prop in o)]
    visits, in order, and what [o[name]] resolves to along the prototype
    chain ([undefined] for a name it does not know).  The names are those
    that an assignment [this[name] = v] gives the wrapper as a member of
    its own ([__proto__] is not one). *)
Record shape : Type := Shape {
  keys : list string;
  member : string -> value
}.

(** The [methods] argument: an [Array] of names, or some other value. *)
Inductive methods_arg : Type :=
| MethodsArray (names : list string)
| MethodsOther (v : value).

(** The [options] argument; a field left out is [None]. *)
Record user_options : Type := UserOptions {
  o_max : option nat;
  o_maxAge : option Z;
  o_stale : option bool;
  o_peek : option bool;
  o_tombstone : option bool
}.

Definition no_options : user_options := UserOptions None None None None None.

(** [ms('1m')]. *)
Definition ms_1m : Z := 60000.

(** [defaults(options, { max: 10000, maxAge: ms('1m'), stale: false,
    peek: true, tombstone: true, stats: ProxyCache.stats })]. *)
Definition defaults (o : user_options) : Wrap.options :=
  Wrap.Options (default 10000%nat (o_max o))
               (default ms_1m (o_maxAge o))
               (default false (o_stale o))
               (default true (o_peek o))
               (default true (o_tombstone o)).

(** What a property of the wrapper [this] holds. *)
Inductive member_of_this : Type :=
| MOptions (o : Wrap.options)
| MStats
| MCache (c : LRU.t)
| MValue (v : value)
| MForward (key : string)
| MWrapped (method : string) (tombstone : bool).

(** How a construction ends: with the wrapper, every member of which the
    constructor and the prototype's [_proxy] and [_wrap] made; with an
    exception; or with the wrapper once the constructor has called, in
    place of [_proxy] or [_wrap], a member that an assignment
    [this[name] = ...] had put under that name ([name] is the first
    such), with whether the caching wrapper it put under [_wrap] has
    been called and so has a call in flight. *)
Inductive construction : Type :=
| Constructed (this : gmap string member_of_this)
| Thrown (message : string)
| Escaped (name : string) (this : gmap string member_of_this) (busy : bool).

(** The wrapper a construction returns, when it returns. *)
Definition returned (c : construction) : option (gmap string member_of_this) :=
  match c with
  | Constructed this => Some this
  | Escaped _ this _ => Some this
  | Thrown _ => None
  end.

(** [f.apply(thisArg, args)]. *)
Record application : Type := Application {
  callee : value;
  this_arg : value;
  arguments : list value
}.

(** What the constructor cannot see into.  [call]: what a function
    returns that the loops of the constructor call through a member of
    the wrapper, [None] when it throws; such a function is taken to
    leave the wrapper and the instance as they are, and not to call a
    completion callback before it returns.  [self]: the wrapper under
    construction, as the [this] of a call.  [pushed]: the completion
    callback a caching wrapper pushes onto its arguments, as an
    argument.  [wrapped]: the caching wrapper of a method, as a
    function to call. *)
Record outside : Type := Outside {
  call : application -> option value;
  self : value;
  pushed : value;
  wrapped : string -> value
}.

Section Builder.

(** The objects of the program. *)
Variable shape_of : loc -> shape.

Variable out : outside.

(** [instance[key]]; [None] is the [TypeError] of reading a property of
    [null] or [undefined]. *)
Definition prop (instance : value) (key : string) : option value :=
  match instance with
  | VObj l => Some (member (shape_of l) key)
  | VNull | VUndefined => None
  | _ => Some VUndefined
  end.

(** The names [for (var prop in instance)] visits. *)
Definition for_in (instance : value) : list string :=
  match instance with
  | VObj l => keys (shape_of l)
  | _ => []
  end.

(** [ProxyCache.prototype._proxy] (lines 72-77). *)
Definition _proxy (instance : value) (key : string) : option member_of_this :=
  match prop instance key with
  | None => None
  | Some v =>
      if negb (String.eqb (typeof v) "function") then Some (MValue v)
      else Some (MForward key)
  end.

(** The function [_proxy] returns, called with [arguments]:
    [return instance[key].apply(instance, arguments)]. *)
Definition forward (instance : value) (key : string) (arguments : list value)
    : option application :=
  match prop instance key with
  | None => None
  | Some f => Some (Application f instance arguments)
  end.

Definition callable (m : member_of_this) : bool :=
  match m with
  | MForward _ | MWrapped _ _ => true
  | MValue v => String.eqb (typeof v) "function"
  | _ => false
  end.

(** [this.options.tombstone], as a condition; [None] is the [TypeError] of
    reading a property of [null] or [undefined]. *)
Definition read_tombstone (this : gmap string member_of_this) : option bool :=
  match this !! "options" with
  | Some (MOptions o) => Some (Wrap.tombstone o)
  | Some (MValue (VObj l)) => Some (truthy (member (shape_of l) "tombstone"))
  | Some (MValue VUndefined) | Some (MValue VNull) | None => None
  | Some _ => Some false
  end.

(** [ProxyCache.prototype._wrap] up to the function it returns
    (lines 89-93). *)
Definition _wrap (this : gmap string member_of_this) (instance : value)
    (method : string) : member_of_this + string :=
  match prop instance method with
  | None => inr "Cannot read a property of null."
  | Some v =>
      if negb (String.eqb (typeof v) "function")
      then inr "Can only cache methods!"
      else match read_tombstone this with
           | None => inr "Cannot read property tombstone."
           | Some t => inl (MWrapped method t)
           end
  end.

(** Whether the members of the wrapper that a caching wrapper reads
    when it is called ([self.stats], [self.cache], and [self._key] and
    [self._has], which the prototype provides unless the wrapper has
    members of these names) are still the constructor's own. *)
Definition intact (this : gmap string member_of_this) : bool :=
  match this !! "stats", this !! "cache", this !! "_key", this !! "_has" with
  | Some MStats, Some (MCache _), None, None => true
  | _, _, _, _ => false
  end.

(** [m(arguments)], for a member [m] of the wrapper [this] that an
    assignment put under [_proxy] or [_wrap] and the constructor calls
    as a method of the wrapper; [None] is an exception.  The forwarding
    function of [_proxy] calls [instance[key].apply(instance,
    arguments)].  A value that is a function is called with the wrapper
    as [this].  The caching wrapper of [method] (lines 95-149) takes the
    last argument for its callback and, on an [intact] wrapper, derives
    the same key at every such call: called for the first time it finds
    the key neither cached (the store is new) nor in flight, pushes its
    completion callback and returns what
    [instance[method].apply(instance, args)] returns; called again
    ([busy]), it queues the callback and returns [undefined].  On a
    wrapper that is not [intact] it runs members that are not the
    constructor's own, and what it returns is asked of [call]. *)
Definition call_member (this : gmap string member_of_this) (busy : bool)
    (instance : value) (m : member_of_this) (arguments : list value)
    : option value :=
  match m with
  | MForward key =>
      match forward instance key arguments with
      | Some app =>
          if String.eqb (typeof (callee app)) "function" then call out app
          else None
      | None => None
      end
  | MValue v =>
      if String.eqb (typeof v) "function"
      then call out (Application v (self out) arguments)
      else None
  | MWrapped method _ =>
      if intact this then
        if busy then Some VUndefined
        else match prop instance method with
             | Some f =>
                 if String.eqb (typeof f) "function"
                 then call out (Application f instance
                                  (removelast arguments ++ [pushed out])%list)
                 else None
             | None => None
             end
      else call out (Application (wrapped out method) (self out) arguments)
  | MOptions _ | MStats | MCache _ => None
  end.

(** Whether the caching wrapper under [_wrap] has a call in flight. *)
Definition busy_of (acc : construction) : bool :=
  match acc with
  | Escaped _ _ busy => busy
  | _ => false
  end.

(** [this[name] = m], with [m] made by the prototype's [_proxy] or
    [_wrap]. *)
Definition assigned (acc : construction) (name : string) (m : member_of_this)
    : construction :=
  match acc with
  | Constructed this => Constructed (<[name := m]> this)
  | Escaped first this busy => Escaped first (<[name := m]> this) busy
  | Thrown message => Thrown message
  end.

(** [this[name] = v], with [v] what the member called in place of
    [member] returned. *)
Definition assigned_by (member : string) (busy : bool) (acc : construction)
    (name : string) (v : value) : construction :=
  match acc with
  | Constructed this => Escaped member (<[name := MValue v]> this) busy
  | Escaped first this _ => Escaped first (<[name := MValue v]> this) busy
  | Thrown message => Thrown message
  end.

(** [this[prop] = this._proxy(instance, prop)] (line 57). *)
Definition proxy_step (instance : value) (acc : construction) (prop : string)
    : construction :=
  match returned acc with
  | None => acc
  | Some this =>
      match this !! "_proxy" with
      | None =>
          match _proxy instance prop with
          | Some m => assigned acc prop m
          | None => Thrown "Cannot read a property of null."
          end
      | Some m =>
          if callable m then
            match call_member this (busy_of acc) instance m
                              [instance; VStr prop] with
            | Some v => assigned_by "_proxy" (busy_of acc) acc prop v
            | None => Thrown "The function called as this._proxy threw."
            end
          else Thrown "this._proxy is not a function."
      end
  end.

(** [this[method] = this._wrap(instance, method)] (line 60). *)
Definition wrap_step (instance : value) (acc : construction) (method : string)
    : construction :=
  match returned acc with
  | None => acc
  | Some this =>
      match this !! "_wrap" with
      | None =>
          match _wrap this instance method with
          | inl m => assigned acc method m
          | inr message => Thrown message
          end
      | Some m =>
          if callable m then
            match call_member this (busy_of acc) instance m
                              [instance; VStr method] with
            | Some v =>
                assigned_by "_wrap"
                            (match m with
                             | MWrapped _ _ => true
                             | _ => busy_of acc
                             end)
                            acc method v
            | None => Thrown "The function called as this._wrap threw."
            end
          else Thrown "this._wrap is not a function."
      end
  end.

(** The constructor (lines 39-62); called without [new] it calls itself
    with [new]. *)
Definition ProxyCache (instance : value) (methods : methods_arg)
    (options : user_options) : construction :=
  if negb (String.eqb (typeof instance) "object")
  then Thrown "Instance must be an object."
  else
    match methods with
    | MethodsOther _ => Thrown "Methods must be an array."
    | MethodsArray names =>
        let o := defaults options in
        let this : gmap string member_of_this :=
          <["cache" := MCache (LRU.create (Wrap.max o) (Wrap.maxAge o) (Wrap.stale o))]>
            (<["parent" := MValue instance]>
               (<["stats" := MStats]>
                  (<["options" := MOptions o]> ∅))) in
        foldl (wrap_step instance)
              (foldl (proxy_step instance) (Constructed this) (for_in instance))
              names
    end.

(** What [this.options.tombstone] yields as a condition once an
    enumerable member [options] of the instance has replaced
    [this.options]. *)
Definition instance_tombstone (instance : value) : bool :=
  match prop instance "options" with
  | Some (VObj l) => truthy (member (shape_of l) "tombstone")
  | _ => false
  end.

End Builder.


(** The members the constructor itself assigns to the wrapper
    (lines 44-55), and the wrapper as it is before the two loops. *)
Definition own : list string := ["options"; "stats"; "parent"; "cache"].

Definition before_loops (instance : value) (options : user_options)
    : gmap string member_of_this :=
  let o := defaults options in
  <["cache" := MCache (LRU.create (Wrap.max o) (Wrap.maxAge o) (Wrap.stale o))]>
    (<["parent" := MValue instance]>
       (<["stats" := MStats]>
          (<["options" := MOptions o]> ∅))).

End Build.

(* ===================================================================== *)
(** ** Sample clients, options, heaps and instances *)
(* ===================================================================== *)

Module Sample.

Import Key JS Wrap.

(** A client whose callbacks do nothing further. *)
Definition quiet : client := fun _ _ _ => [].

(** A client whose callback 0, handed an error, calls [get(1, cb1)]
    again before it returns. *)
Definition retrying : client :=
  fun fn err _ =>
    if truthy err && Nat.eqb fn 0 then [ACall [ANum 1] 1%nat] else [].

(** Options with the tombstone option on, and off. *)
Definition tombstone_on : options := Options 100 60000 false true true.
Definition tombstone_off : options := Options 100 60000 false true false.

(** A user record at location 1 whose [address] is the object at
    location 2. *)
Definition users : JS.heap :=
  {[ 1%positive := {[ "name" := VStr "ann"; "address" := VObj 2%positive ]};
     2%positive := {[ "city" := VStr "Oslo" ]} ]}.

(** [get(1, cb0)] misses and completes with the user record; the caller
    renames the record it was handed; [get(1, cb1)] hits the cache; that
    caller moves the address of its copy; [get(1, cb2)] hits the cache. *)
Definition before_rename : list event :=
  [ Call [ANum 1] 0%nat 10; Complete 0 VNull (VObj 1%positive) 20 ].
Definition first_hit : list event :=
  [ Call [ANum 1] 1%nat 30; Tick 31 ].
Definition rename : list event :=
  [ Write 1%positive "name" (VStr "bob") ].
Definition move_and_hit : list event :=
  [ Write 2%positive "city" (VStr "Rome"); Call [ANum 1] 2%nat 40; Tick 41 ].

(** A fresh wrapper of [get] after the call [get(1, cb0)]. *)
Definition in_flight : state :=
  step quiet tombstone_on "get" (init tombstone_on users)
       (Call [ANum 1] 0%nat 10).

(** The same wrapper with the tombstone option off. *)
Definition in_flight_off : state :=
  step quiet tombstone_off "get" (init tombstone_off users)
       (Call [ANum 1] 0%nat 10).

(** The wrapper after that call has completed with the user record. *)
Definition cached : state :=
  run quiet tombstone_on "get" (init tombstone_on users) before_rename.

(** The invocation [get(1, cb0)] led to. *)
Definition get_1 : invocation := Invocation "get:1" [ANum 1] 10 false.

(** An instance with a property [name] and the methods [get] and [ping],
    which also inherits [toString]. *)
Definition db : Build.shape :=
  Build.Shape ["name"; "get"; "ping"]
    (fun k =>
       if String.eqb k "name" then VStr "db"
       else if String.eqb k "get" then VFun 0
       else if String.eqb k "ping" then VFun 1
       else if String.eqb k "toString" then VFun 2
       else VUndefined).

(** The same instance with a property [options] of its own, an object
    that knows no [tombstone]. *)
Definition db_with_options : Build.shape :=
  Build.Shape ["options"; "name"; "get"]
    (fun k =>
       if String.eqb k "options" then VObj 2%positive
       else Build.member db k).

Definition plain : Build.shape := Build.Shape [] (fun _ => VUndefined).

Definition shapes (l : loc) : Build.shape :=
  match l with
  | 1%positive => db
  | 3%positive => db_with_options
  | _ => plain
  end.

(** A client whose callback 0, handed a result, calls [get(1, cb1)]
    again before it returns. *)
Definition asking_again : client :=
  fun fn err _ =>
    if negb (truthy err) && Nat.eqb fn 0 then [ACall [ANum 1] 1%nat] else [].

(** Callback 0 throws; the others return. *)
Definition first_throws : callback -> value -> value -> bool :=
  fun fn _ _ => Nat.eqb fn 0.

(** [get(1, cb0)] and [get(1, cb1)] on a fresh wrapper: both callbacks
    wait for the one invocation. *)
Definition two_waiting : state :=
  run quiet tombstone_on "get" (init tombstone_on users)
      [ Call [ANum 1] 0%nat 10; Call [ANum 1] 1%nat 11 ].

(** [get(1, cb0)] and [get(2, cb1)] on a fresh wrapper: two invocations
    in flight. *)
Definition two_keys : state :=
  run quiet tombstone_on "get" (init tombstone_on users)
      [ Call [ANum 1] 0%nat 10; Call [ANum 2] 1%nat 11 ].

Definition get_2 : invocation := Invocation "get:2" [ANum 2] 11 false.

(** Functions that return 42 whatever they are called with; the wrapper
    under construction, an object of its own; the completion callback
    of a caching wrapper and the caching wrappers, functions of their
    own. *)
Definition answers : Build.outside :=
  Build.Outside (fun _ => Some (VNum 42)) (VObj 9%positive) (VFun 99)
                (fun _ => VFun 98).

(** An instance whose enumerable members are [a], a function [_proxy]
    and [b]; and one whose enumerable members are the functions [_wrap]
    and [get]. *)
Definition with_proxy : Build.shape :=
  Build.Shape ["a"; "_proxy"; "b"]
    (fun k =>
       if String.eqb k "a" then VNum 1
       else if String.eqb k "_proxy" then VFun 7
       else if String.eqb k "b" then VNum 2
       else VUndefined).

Definition with_wrap : Build.shape :=
  Build.Shape ["_wrap"; "get"]
    (fun k =>
       if String.eqb k "_wrap" then VFun 8
       else if String.eqb k "get" then VFun 0
       else VUndefined).

Definition odd_shapes (l : loc) : Build.shape :=
  match l with
  | 5%positive => with_proxy
  | 6%positive => with_wrap
  | _ => plain
  end.

End Sample.

(* ===================================================================== *)
(** * Properties *)
(* ===================================================================== *)

(** ** The key generator *)

Module KeyFacts.

Import Key.

Lemma concat_cons2 sep x y l :
  String.concat sep (x :: y :: l) = x ++ sep ++ String.concat sep (y :: l).
Proof. reflexivity. Qed.

Lemma append_empty (r : string) : "" ++ r = r.
Proof. reflexivity. Qed.

Lemma append_String c (s r : string) : String c s ++ r = String c (s ++ r).
Proof. reflexivity. Qed.

Lemma sep_free_app_sep s r : ~ sep_free (s ++ ":" ++ r).
Proof.
  induction s as [|c s IH];
    repeat (rewrite append_empty in * || rewrite append_String in * );
    simpl.
  - intros [Hc _]. now apply Hc.
  - intros [_ Hs]. now apply IH.
Qed.

Lemma sep_split s1 : forall s2 r1 r2,
  sep_free s1 -> sep_free s2 ->
  s1 ++ ":" ++ r1 = s2 ++ ":" ++ r2 -> s1 = s2 /\ r1 = r2.
Proof.
  induction s1 as [|c s1 IH]; intros [|c' s2] r1 r2 H1 H2 E;
    repeat (rewrite append_empty in * || rewrite append_String in * );
    simpl in H1, H2.
  - injection E as ->. split; reflexivity.
  - injection E as <- _. destruct H2 as [Hc _]. now contradiction Hc.
  - injection E as -> _. destruct H1 as [Hc _]. now contradiction Hc.
  - injection E as -> E. destruct H1 as [_ H1], H2 as [_ H2].
    destruct (IH _ _ _ H1 H2 E) as [-> ->]. split; reflexivity.
Qed.

(** Joining with [":"] is injective on non-empty lists of strings that
    hold no [":"]. *)
Lemma concat_sep_inj l1 : forall l2,
  l1 <> [] -> l2 <> [] ->
  Forall sep_free l1 -> Forall sep_free l2 ->
  String.concat ":" l1 = String.concat ":" l2 -> l1 = l2.
Proof.
  induction l1 as [|x l1 IH]; intros l2 N1 N2 F1 F2 E; [congruence|].
  destruct l2 as [|y l2]; [congruence|].
  apply Forall_cons in F1 as [Fx F1]. apply Forall_cons in F2 as [Fy F2].
  destruct l1 as [|x' l1], l2 as [|y' l2].
  - simpl in E. now subst.
  - rewrite concat_cons2 in E. simpl String.concat in E at 1.
    subst x. now apply sep_free_app_sep in Fx.
  - rewrite concat_cons2 in E. simpl String.concat in E at 2.
    subst y. now apply sep_free_app_sep in Fy.
  - rewrite !concat_cons2 in E.
    destruct (sep_split _ _ _ _ Fx Fy E) as [-> E'].
    f_equal. apply IH; auto; congruence.
Qed.

Lemma key_unfold method args :
  _key method args = String.concat ":" (method :: map stringified args).
Proof. reflexivity. Qed.

(** C6. The derived key is the method name and the stringified arguments,
    in order, joined with [":"]: it is a function of the name and the
    stringified arguments alone, so argument lists that stringify alike
    collide (the number 1 and the text "1"; one argument holding the
    separator and two arguments around it); and it is sensitive to order:
    where no stringified part holds the separator, two calls have the
    same key only if they agree on the name and on every stringified
    argument in turn, so swapping two arguments that stringify
    differently changes the key. *)
Theorem key_joins_name_and_arguments :
  (forall method args,
     _key method args = String.concat ":" (method :: map stringified args))
  /\ (forall method args1 args2,
        map stringified args1 = map stringified args2 ->
        _key method args1 = _key method args2)
  /\ (forall method, _key method [ANum 1] = _key method [AStr "1"])
  /\ (forall method,
        _key method [AStr "a:b"] = _key method [AStr "a"; AStr "b"])
  /\ (forall m1 m2 args1 args2,
        sep_free m1 -> sep_free m2 ->
        Forall sep_free (map stringified args1) ->
        Forall sep_free (map stringified args2) ->
        _key m1 args1 = _key m2 args2 ->
        m1 = m2 /\ map stringified args1 = map stringified args2)
  /\ (forall method a b,
        sep_free method ->
        sep_free (stringified a) -> sep_free (stringified b) ->
        stringified a <> stringified b ->
        _key method [a; b] <> _key method [b; a]).
Proof.
  assert (Inj : forall m1 m2 args1 args2,
             sep_free m1 -> sep_free m2 ->
             Forall sep_free (map stringified args1) ->
             Forall sep_free (map stringified args2) ->
             _key m1 args1 = _key m2 args2 ->
             m1 = m2 /\ map stringified args1 = map stringified args2).
  { intros m1 m2 args1 args2 H1 H2 F1 F2 E. rewrite !key_unfold in E.
    apply concat_sep_inj in E; try discriminate.
    - injection E as -> E. auto.
    - now constructor.
    - now constructor. }
  split; [exact key_unfold|].
  split; [intros method args1 args2 E; rewrite !key_unfold; now rewrite E|].
  split; [reflexivity|]. split; [reflexivity|]. split; [exact Inj|].
  intros method a b Hm Ha Hb Hne E.
  apply Inj in E as [_ E]; auto.
  - simpl in E. injection E as E _. contradiction.
  - simpl. repeat constructor; assumption.
  - simpl. repeat constructor; assumption.
Qed.

(** The key of [get(1, 2)] differs from the key of [get(2, 1)], and
    [get(1)] shares its key with [get("1")]. *)
Lemma key_joins_name_and_arguments_witness :
  _key "get" [ANum 1; ANum 2] <> _key "get" [ANum 2; ANum 1]
  /\ _key "get" [ANum 1] = _key "get" [AStr "1"].
Proof.
  split.
  - apply (proj2 (proj2 (proj2 (proj2 (proj2 key_joins_name_and_arguments)))));
      simpl; repeat split; try discriminate.
  - apply (proj1 (proj2 key_joins_name_and_arguments)). reflexivity.
Defined.

Lemma string_append_assoc (a b c : string) : (a ++ b) ++ c = a ++ b ++ c.
Proof.
  induction a as [|x a IH];
    repeat (rewrite append_empty || rewrite append_String);
    [reflexivity | now rewrite IH].
Qed.

(** Joining a joined string with more strings joins them all. *)
Lemma concat_concat sep l1 : forall a l2,
  String.concat sep (String.concat sep (a :: l1) :: l2)
  = String.concat sep (a :: l1 ++ l2)%list.
Proof.
  induction l1 as [|b l1 IH]; intros a l2; [reflexivity|].
  rewrite concat_cons2. simpl app. rewrite concat_cons2, <- IH.
  destruct l2 as [|c l2]; [reflexivity|].
  rewrite !concat_cons2. now rewrite !string_append_assoc.
Qed.

(** The key does not tell the method name from the arguments: a call
    without arguments has the method name itself as its key, and the
    key of a call is the key of a call whose method name is the key of a
    first part of the arguments and whose arguments are the rest.  So a
    method named like the key of another call shares that call's key:
    [m:x] called with [args] and [m] called with [x, args]. *)
Theorem key_of_a_key :
  (forall method, _key method [] = method)
  /\ (forall method xs ys,
        _key (_key method xs) ys = _key method (xs ++ ys)%list)
  /\ (forall method x args,
        _key (method ++ ":" ++ stringified x) args = _key method (x :: args)).
Proof.
  assert (Comp : forall method xs ys,
             _key (_key method xs) ys = _key method (xs ++ ys)%list).
  { intros method xs ys. rewrite !key_unfold, map_app. apply concat_concat. }
  split; [reflexivity|]. split; [exact Comp|].
  intros method x args.
  change (x :: args) with ([x] ++ args)%list. rewrite <- Comp.
  reflexivity.
Qed.
End KeyFacts.

(** ** Values and [clone] *)

Module JSFacts.

Import JS.

Lemma write_insert (child : loc) i v (m : object) (h : heap) :
  write child i v (<[child := m]> h) = <[child := <[i := v]> m]> h.
Proof. unfold write. now rewrite alter_insert_eq. Qed.

Lemma write_lookup_ne (l l' : loc) p v (h : heap) :
  l <> l' -> write l p v h !! l' = h !! l'.
Proof. intros N. unfold write. now rewrite lookup_alter_ne. Qed.

Lemma foldr_write (child : loc) (h : heap) (table : list (loc * loc))
    (f : string * value -> heap * list (loc * loc) -> heap * list (loc * loc))
    (ms : list (string * value)) :
  (forall iv st, f iv st = (write child iv.1 iv.2 st.1, st.2)) ->
  foldr f (<[child := (∅ : object)]> h, table) ms
  = (<[child := list_to_map ms]> h, table).
Proof.
  intros Hf. induction ms as [|[i v] ms IH]; [reflexivity|].
  simpl. rewrite IH, Hf. simpl. now rewrite write_insert.
Qed.

(** [clone(v, true, 1)] of a value that is no object is the value. *)
Lemma clone_not_object v circular depth (h : heap) :
  (forall l, v <> VObj l) -> clone v circular depth h = (v, h).
Proof.
  intros N. unfold clone. destruct depth, v; try reflexivity.
  now contradiction (N l).
Qed.

(** [clone(v, true, 1)] of an object is a new object with the same
    members. *)
Lemma clone_object l (o : object) (h : heap) :
  h !! l = Some o ->
  clone (VObj l) true 1 h = (VObj (fresh (dom h)), <[fresh (dom h) := o]> h).
Proof.
  intros Hl. unfold clone. simpl _clone. rewrite Hl. simpl.
  rewrite (foldr_write _ _ _ _ _ (fun _ _ => eq_refl)).
  simpl. now rewrite list_to_map_to_list.
Qed.

Lemma clone_dangling l (h : heap) circular depth :
  h !! l = None -> clone (VObj l) circular depth h = (VObj l, h).
Proof.
  intros Hl. unfold clone. destruct depth; [reflexivity|].
  simpl. now rewrite Hl.
Qed.

Lemma fresh_not_allocated (h : heap) : h !! fresh (dom h) = None.
Proof. apply not_elem_of_dom. apply is_fresh. Qed.

End JSFacts.

(** ** The cache store *)

Module LRUFacts.

Import JS LRU.

Lemma find_key l k e :
  List.find (fun e => String.eqb (key e) k) l = Some e -> key e = k.
Proof. intros H. apply find_some in H as [_ H]. now apply String.eqb_eq. Qed.

Lemma find_remove_eq k l :
  List.find (fun e => String.eqb (key e) k) (remove k l) = None.
Proof.
  induction l as [|e l IH]; [reflexivity|]. simpl.
  destruct (String.eqb (key e) k) eqn:E; simpl; [assumption|].
  now rewrite E.
Qed.

Lemma find_remove_ne k k' l :
  k <> k' ->
  List.find (fun e => String.eqb (key e) k') (remove k l)
  = List.find (fun e => String.eqb (key e) k') l.
Proof.
  intros N. induction l as [|e l IH]; [reflexivity|]. simpl.
  destruct (String.eqb (key e) k) eqn:E; simpl.
  - apply String.eqb_eq in E.
    destruct (String.eqb (key e) k') eqn:E'; [|assumption].
    apply String.eqb_eq in E'. congruence.
  - now rewrite IH.
Qed.

(** Moving a found entry to the front changes no lookup. *)
Lemma find_refresh c k e k' :
  find c k = Some e ->
  find (with_entries c (e :: remove k (entries c))) k' = find c k'.
Proof.
  intros H. pose proof (find_key _ _ _ H) as Hk. unfold find in *. simpl.
  destruct (String.eqb (key e) k') eqn:E.
  - apply String.eqb_eq in E. subst k'. rewrite Hk. now rewrite H.
  - apply find_remove_ne. intros ->. apply String.eqb_neq in E. congruence.
Qed.

Lemma has_true c k t :
  has c k t = true <-> exists e, find c k = Some e /\ expired c e t = false.
Proof.
  unfold has. destruct (find c k) as [e|].
  - split.
    + intros H. exists e. split; [reflexivity|]. now apply negb_true_iff.
    + intros (e' & [= <-] & H). now apply negb_true_iff.
  - split; [discriminate|]. now intros (e & H & _).
Qed.

(** A read of a key the store [has] hands out the stored value and
    changes no lookup. *)
Lemma lookup_entry_live refresh c k t e :
  find c k = Some e -> expired c e t = false ->
  (lookup_entry refresh c k t).1 = value e
  /\ (forall k', find (lookup_entry refresh c k t).2 k' = find c k')
  /\ max (lookup_entry refresh c k t).2 = max c
  /\ maxAge (lookup_entry refresh c k t).2 = maxAge c.
Proof.
  intros Hf He. unfold lookup_entry. rewrite Hf, He.
  destruct refresh; simpl; repeat split; try reflexivity.
  intros k'. now apply find_refresh.
Qed.

(** A read never makes the store hold a key it did not hold. *)
Lemma lookup_entry_find refresh c k t k' e :
  find (lookup_entry refresh c k t).2 k' = Some e -> find c k' = Some e.
Proof.
  unfold lookup_entry. destruct (find c k) as [e0|] eqn:Hf; [|auto].
  destruct (expired c e0 t).
  - simpl. unfold find at 1. simpl.
    destruct (String.eqb_spec k k') as [->|N].
    + now rewrite find_remove_eq.
    + now rewrite find_remove_ne.
  - destruct refresh; simpl; [|auto]. now rewrite (find_refresh _ _ _ _ Hf).
Qed.

(** [set] stores the entry, capacity permitting. *)
Lemma find_set c k v t :
  (1 <= max c)%nat -> find (set c k v t) k = Some (Entry k v t).
Proof.
  intros Hm. unfold set, find. simpl.
  destruct (max c) as [|n]; [lia|]. simpl. now rewrite String.eqb_refl.
Qed.

Lemma has_set c k v t t' :
  (1 <= max c)%nat -> (t' - t <= maxAge c)%Z -> has (set c k v t) k t' = true.
Proof.
  intros Hm Ha. unfold has. rewrite find_set by assumption.
  unfold expired. simpl. apply negb_true_iff. apply Z.ltb_ge. lia.
Qed.

Lemma has_same c c' k t :
  (forall k, find c' k = find c k) -> maxAge c' = maxAge c ->
  has c' k t = has c k t.
Proof. intros Hf Ha. unfold has, expired. now rewrite Hf, Ha. Qed.

Lemma has_find_none c k t : find c k = None -> has c k t = false.
Proof. unfold has. now intros ->. Qed.

End LRUFacts.

(** ** The caching wrapper *)

Module WrapFacts.

Import Key JS Wrap.

#[local] Arguments clone : simpl never.
#[local] Arguments LRU.length : simpl never.
#[local] Arguments _key : simpl never.

Lemma frame_refl s : frame s s.
Proof.
  split; try reflexivity.
  - exists []. now rewrite app_nil_r.
  - exists []. now rewrite app_nil_r.
Qed.

Lemma frame_trans s1 s2 s3 : frame s1 s2 -> frame s2 s3 -> frame s1 s3.
Proof.
  intros [D1 F1 M1 A1 [q1 T1] [m1 [S1 N1]]] [D2 F2 M2 A2 [q2 T2] [m2 [S2 N2]]].
  split; [congruence | intros k; now rewrite F2 | congruence | congruence | | ].
  - exists (q1 ++ q2)%list. now rewrite T2, T1, app_assoc.
  - exists (m1 ++ m2)%list. split.
    + now rewrite S2, S1, app_assoc.
    + now rewrite forallb_app, N1, N2.
Qed.

Section Wrapped.

Variable react : client.
Variable opts : options.
Variable method : string.

Local Abbreviation wrapped := (wrapped opts method).
Local Abbreviation _get := (_get opts).
Local Abbreviation tags := (tags method).
Local Abbreviation calls_and_size := (calls_and_size method).

(** [_get] on a key the store [has]: a copy of the stored value. *)
Lemma get_live key t s e :
  LRU.find (cache s) key = Some e -> LRU.expired (cache s) e t = false ->
  (_get key t s).1 = (clone (LRU.value e) true 1 (heap s)).1
  /\ heap (_get key t s).2 = (clone (LRU.value e) true 1 (heap s)).2
  /\ (forall k, LRU.find (cache (_get key t s).2) k = LRU.find (cache s) k)
  /\ LRU.max (cache (_get key t s).2) = LRU.max (cache s)
  /\ LRU.maxAge (cache (_get key t s).2) = LRU.maxAge (cache s)
  /\ inFlight (_get key t s).2 = inFlight s
  /\ stats (_get key t s).2 = stats s
  /\ ticks (_get key t s).2 = ticks s
  /\ upstream (_get key t s).2 = upstream s
  /\ delivered (_get key t s).2 = delivered s.
Proof.
  intros Hf He. unfold Wrap._get, LRU.peek, LRU.get.
  destruct (LRUFacts.lookup_entry_live (negb (peek opts)) _ _ _ _ Hf He)
    as (Hv & Hfind & Hmax & Hage).
  destruct (peek opts); simpl in *; rewrite Hv; repeat split; auto.
Qed.

(** A call that hits the cache. *)
Lemma wrapped_hit args fn t s :
  _has (_key method args) t s = true ->
  exists cached s',
    wrapped args fn t s = (s', Returned)
    /\ ticks s' = (ticks s ++ [(fn, cached)])%list
    /\ stats s' = (stats s ++ calls_and_size s
                           ++ [Incr "proxy-cache.hit" 1 tags])%list
    /\ (forall k, LRU.find (cache s') k = LRU.find (cache s) k)
    /\ LRU.max (cache s') = LRU.max (cache s)
    /\ LRU.maxAge (cache s') = LRU.maxAge (cache s)
    /\ inFlight s' = inFlight s
    /\ upstream s' = upstream s
    /\ delivered s' = delivered s
    /\ (exists e, LRU.find (cache s) (_key method args) = Some e
                  /\ (cached, heap s') = clone (LRU.value e) true 1 (heap s)).
Proof.
  intros Hhas. unfold Wrap.wrapped.
  set (key := _key method args) in *.
  set (s1 := emit _ (emit _ s)).
  assert (Hs1 : _has key t s1 = true) by exact Hhas.
  rewrite Hs1.
  apply LRUFacts.has_true in Hhas as (e & Hf & He).
  set (s2 := emit _ s1).
  destruct (get_live key t s2 e Hf He)
    as (Hv & Hh & Hfind & Hmax & Hage & Hi & Hst & Ht & Hu & Hd).
  destruct (Wrap._get opts key t s2) as [cached s3].
  change (heap s2) with (heap s) in Hv, Hh.
  cbn [fst snd] in Hv, Hh. simpl in Hfind, Hmax, Hage, Hi, Hst, Ht, Hu, Hd.
  exists cached, (tick fn cached s3). split; [reflexivity|]. simpl.
  rewrite Ht, Hst, Hi, Hu, Hd. simpl.
  repeat split; auto.
  - now rewrite <- !app_assoc.
  - exists e. split; [assumption|]. rewrite Hv, Hh.
    now destruct (clone _ _ _ _).
Qed.

(** A call that finds its key in flight joins the queue. *)
Lemma wrapped_join args fn t s fns :
  _has (_key method args) t s = false ->
  inFlight_get (inFlight s) (_key method args) = FArray fns ->
  wrapped args fn t s =
    (State (cache s) (heap s)
           (<[_key method args := Waiting (fns ++ [fn])]> (inFlight s))
           (stats s ++ calls_and_size s) (ticks s) (upstream s) (delivered s),
     Returned).
Proof.
  intros Hhas Hq. unfold Wrap.wrapped.
  set (key := _key method args) in *.
  set (s1 := emit _ (emit _ s)).
  assert (Hs1 : _has key t s1 = false) by exact Hhas.
  rewrite Hs1. change (inFlight s1) with (inFlight s). rewrite Hq.
  unfold set_inFlight, s1, emit, set_stats. simpl.
  now rewrite <- app_assoc.
Qed.

(** A call whose key names a member of [Object.prototype] and is not
    cached throws, before anything is queued or invoked. *)
Lemma wrapped_inherited args fn t s :
  _has (_key method args) t s = false ->
  inFlight_get (inFlight s) (_key method args) = FInherited ->
  wrapped args fn t s =
    (State (cache s) (heap s) (inFlight s)
           (stats s ++ calls_and_size s) (ticks s) (upstream s) (delivered s),
     Threw).
Proof.
  intros Hhas Hq. unfold Wrap.wrapped.
  set (key := _key method args) in *.
  set (s1 := emit _ (emit _ s)).
  assert (Hs1 : _has key t s1 = false) by exact Hhas.
  rewrite Hs1. change (inFlight s1) with (inFlight s). rewrite Hq.
  unfold s1, emit, set_stats. simpl.
  now rewrite <- app_assoc.
Qed.

(** A call that finds its key neither cached nor in flight invokes the
    underlying method. *)
Lemma wrapped_miss args fn t s :
  _has (_key method args) t s = false ->
  idle s (_key method args) ->
  wrapped args fn t s =
    (State (cache s) (heap s)
           (<[_key method args := Waiting [fn]]> (inFlight s))
           (stats s ++ calls_and_size s
                    ++ [Incr "proxy-cache.miss" 1 tags])
           (ticks s)
           (upstream s ++ [Invocation (_key method args) args t false])
           (delivered s),
     Returned).
Proof.
  intros Hhas Hq. unfold Wrap.wrapped.
  set (key := _key method args) in *.
  set (s1 := emit _ (emit _ s)).
  assert (Hs1 : _has key t s1 = false) by exact Hhas.
  rewrite Hs1. change (inFlight s1) with (inFlight s).
  destruct Hq as [-> | ->];
    unfold apply_upstream, set_upstream, set_inFlight, s1, emit, set_stats;
    simpl; now rewrite <- !app_assoc.
Qed.

(** The four ways a call can go. *)
Lemma wrapped_cases args t s :
  _has (_key method args) t s = true
  \/ (_has (_key method args) t s = false
      /\ ((exists fns, inFlight_get (inFlight s) (_key method args) = FArray fns)
          \/ inFlight_get (inFlight s) (_key method args) = FInherited
          \/ idle s (_key method args))).
Proof.
  destruct (_has _ t s); [now left|right]. split; [reflexivity|].
  unfold idle. destruct (inFlight_get _ _); eauto.
Qed.

(** A call invokes no callback, leaves the store's lookups alone and
    records no timer. *)
Lemma wrapped_frame args fn t s : frame s (wrapped args fn t s).1.
Proof.
  destruct (wrapped_cases args t s) as [H | [H [[fns Hq] | [Hq | Hq]]]].
  - destruct (wrapped_hit args fn t s H)
      as (cached & s' & -> & Ht & Hs & Hf & Hm & Ha & _ & _ & Hd & _).
    split; auto.
    + now exists [(fn, cached)].
    + eexists. split; [exact Hs|]. reflexivity.
  - rewrite (wrapped_join args fn t s fns H Hq).
    split; simpl; auto.
    + exists []. now rewrite app_nil_r.
    + eexists. split; reflexivity.
  - rewrite (wrapped_inherited args fn t s H Hq).
    split; simpl; auto.
    + exists []. now rewrite app_nil_r.
    + eexists. split; reflexivity.
  - rewrite (wrapped_miss args fn t s H Hq).
    split; simpl; auto.
    + exists []. now rewrite app_nil_r.
    + eexists. split; reflexivity.
Qed.

Lemma perform_frame t s a : frame s (perform opts method t s a).
Proof.
  destruct a as [args fn | l p v]; simpl.
  - apply wrapped_frame.
  - split; simpl; auto.
    + exists []. now rewrite app_nil_r.
    + exists []. now rewrite app_nil_r.
Qed.

Lemma perform_all_frame t acts : forall s,
  frame s (foldl (perform opts method t) s acts).
Proof.
  induction acts as [|a acts IH]; intros s; simpl.
  - apply frame_refl.
  - eapply frame_trans; [apply perform_frame | apply IH].
Qed.

(** Invoking a callback records that one invocation; what the callback
    does adds none. *)
Lemma invoke_spec fn err result t s :
  delivered (invoke react opts method fn err result t s)
  = (delivered s ++ [Delivery fn err result])%list
  /\ frame (set_delivered (delivered s ++ [Delivery fn err result])%list s)
           (invoke react opts method fn err result t s).
Proof.
  unfold invoke.
  pose proof (perform_all_frame t (react fn err result)
                (set_delivered (delivered s ++ [Delivery fn err result])%list s))
    as F.
  split; [|exact F]. now rewrite (frame_delivered _ _ F).
Qed.

(** Delivering to a queue invokes its callbacks in order, each with the
    same values. *)
Lemma deliver_all err result t fns : forall s,
  let s' := foldl (fun s fn => invoke react opts method fn err result t s) s fns in
  delivered s'
  = (delivered s ++ map (fun fn => Delivery fn err result) fns)%list
  /\ frame (set_delivered (delivered s') s) s'.
Proof.
  induction fns as [|fn fns IH]; intros s; simpl.
  - rewrite app_nil_r. split; [reflexivity|].
    destruct s; apply frame_refl.
  - destruct (invoke_spec fn err result t s) as [Hd F].
    destruct (IH (invoke react opts method fn err result t s)) as [Hd' F'].
    split.
    + rewrite Hd', Hd, <- app_assoc. reflexivity.
    + eapply frame_trans; [|exact F'].
      destruct F as [D Fi M A [q T] [m [S N]]]. simpl in *.
      split; simpl; auto.
      * now exists q.
      * now exists m.
Qed.

Lemma inFlight_get_array (r : gmap string slot) key fns :
  inFlight_get r key = FArray fns <-> r !! key = Some (Waiting fns).
Proof.
  unfold inFlight_get. destruct (r !! key) as [[q|]|].
  - split; congruence.
  - split; discriminate.
  - split; [|discriminate]. now destruct (bool_decide _).
Qed.

Lemma inFlight_get_cleared (r : gmap string slot) key :
  inFlight_get (<[key := Cleared]> r) key = FNull.
Proof. unfold inFlight_get. now rewrite lookup_insert_eq. Qed.

Lemma idle_not_waiting s key fns :
  idle s key -> inFlight s !! key <> Some (Waiting fns).
Proof.
  intros [H | H] E; apply inFlight_get_array in E; congruence.
Qed.

(** [done] on a queued key: every callback of the queue is invoked, in
    order, with the same values, and the registry entry is cleared. *)
Lemma done_spec key err result t s fns :
  inFlight_get (inFlight s) key = FArray fns ->
  exists s',
    done react opts method key err result t s = (s', Returned)
    /\ delivered s'
       = (delivered s
          ++ map (fun fn => Delivery fn (handed err result).1
                                     (handed err result).2) fns)%list
    /\ inFlight_get (inFlight s') key = FNull
    /\ frame (set_delivered (delivered s') s) s'.
Proof.
  intros Hq. unfold done. rewrite Hq. unfold handed.
  destruct (truthy err); eexists; (split; [reflexivity|]); simpl.
  - destruct (deliver_all err VUndefined t fns s) as [Hd F]. simpl in Hd, F.
    rewrite Hd. repeat split; auto using inFlight_get_cleared;
      try apply F.
  - destruct (deliver_all VNull result t fns s) as [Hd F]. simpl in Hd, F.
    rewrite Hd. repeat split; auto using inFlight_get_cleared;
      try apply F.
Qed.

(** The completion callback on a queued key. *)
Lemma completion_spec key start err result t s fns :
  inFlight_get (inFlight s) key = FArray fns ->
  exists s',
    completion react opts method key start err result t s = (s', Returned)
    /\ delivered s'
       = (delivered s
          ++ map (fun fn => Delivery fn (handed err result).1
                                     (handed err result).2) fns)%list
    /\ inFlight_get (inFlight s') key = FNull
    /\ (forall k,
          LRU.find (cache s') k
          = LRU.find (if stores opts err result
                      then LRU.set (cache s) key result t
                      else cache s) k)
    /\ (exists more,
          stats s'
          = (stats s ++ Timer "proxy-cache.duration" (t - start) tags :: more)%list
          /\ forallb (fun m => negb (is_timer m)) more = true)
    /\ (exists more, ticks s' = (ticks s ++ more)%list)
    /\ LRU.maxAge (cache s') = LRU.maxAge (cache s)
    /\ LRU.max (cache s') = LRU.max (cache s).
Proof.
  intros Hq. unfold completion, stores.
  set (s1 := emit _ s).
  destruct (truthy err) eqn:Herr; cbv zeta.
  - destruct (done_spec key err VUndefined t s1 fns Hq)
      as (s' & -> & Hd & Hn & F).
    exists s'. split; [reflexivity|].
    destruct F as [_ Fi Fm Fa [q T] [m [S N]]]. simpl in *.
    unfold handed in *. rewrite Herr in *. simpl in *.
    repeat split; auto.
    + exists m. split; [|assumption]. now rewrite S, <- app_assoc.
    + now exists q.
  - rewrite andb_true_l.
    set (s2 := if loose_neq_undefined result || tombstone opts
               then set_cache (LRU.set (cache s1) key result t) s1 else s1).
    assert (Hq2 : inFlight_get (inFlight s2) key = FArray fns).
    { unfold s2. now destruct (_ || _). }
    destruct (done_spec key VNull result t s2 fns Hq2)
      as (s' & -> & Hd & Hn & F).
    exists s'. split; [reflexivity|].
    destruct F as [_ Fi Fm Fa [q T] [m [S N]]]. simpl in *.
    unfold handed in *. rewrite Herr. simpl in *.
    assert (Hd2 : delivered s2 = delivered s)
      by (unfold s2; now destruct (_ || _)).
    assert (Hs2 : stats s2
                  = (stats s ++ [Timer "proxy-cache.duration" (t - start) tags])%list)
      by (unfold s2; now destruct (_ || _)).
    assert (Ht2 : ticks s2 = ticks s)
      by (unfold s2; now destruct (_ || _)).
    rewrite Hd2 in Hd. rewrite Hs2 in S. rewrite Ht2 in T.
    repeat split; auto.
    + intros k. rewrite Fi. unfold s2. now destruct (_ || _).
    + exists m. split; [|assumption]. now rewrite S, <- app_assoc.
    + now exists q.
    + rewrite Fa. unfold s2. now destruct (_ || _).
    + rewrite Fm. unfold s2. now destruct (_ || _).
Qed.

(** *** At most one invocation in flight per key *)

Lemma one_in_flight_same s s' :
  upstream s' = upstream s -> inFlight s' = inFlight s ->
  one_in_flight s -> one_in_flight s'.
Proof.
  intros Hu Hi [J1 J2]. unfold one_in_flight, pending in *.
  rewrite Hu, Hi. now split.
Qed.

Lemma draining_same key s s' :
  upstream s' = upstream s -> inFlight s' = inFlight s ->
  draining key s -> draining key s'.
Proof.
  intros Hu Hi (J & D & Q). split; [|split].
  - eapply one_in_flight_same; eauto.
  - unfold pending in *. now rewrite Hu.
  - now rewrite Hi.
Qed.

(** A call joining a queue keeps the invariant. *)
Lemma one_in_flight_join s s' key fns fns' :
  upstream s' = upstream s ->
  inFlight s !! key = Some (Waiting fns) ->
  inFlight s' = <[key := Waiting fns']> (inFlight s) ->
  one_in_flight s -> one_in_flight s'.
Proof.
  intros Hu Hq Hi [J1 J2]. unfold one_in_flight, pending in *.
  rewrite Hu, Hi. split; [exact J1|].
  intros i u P. destruct (decide (key = u_key u)) as [<- | N].
  - rewrite lookup_insert_eq. eauto.
  - rewrite lookup_insert_ne by assumption. eauto.
Qed.

(** A call invoking the underlying method for an idle key keeps it. *)
Lemma one_in_flight_new s s' key fn args t :
  idle s key ->
  upstream s' = (upstream s ++ [Invocation key args t false])%list ->
  inFlight s' = <[key := Waiting [fn]]> (inFlight s) ->
  one_in_flight s -> one_in_flight s'.
Proof.
  intros Hidle Hu Hi [J1 J2].
  assert (Old : forall i u, pending s' i u ->
            pending s i u
            \/ (i = List.length (upstream s)
                /\ u = Invocation key args t false)).
  { intros i u [P C]. unfold pending. rewrite Hu in P.
    apply lookup_app_Some in P as [P | [Hlen P]]; [left; now split|].
    right. apply list_lookup_singleton_Some in P as [P <-].
    split; [lia|reflexivity]. }
  assert (Fresh : forall i u, pending s i u -> u_key u <> key).
  { intros i u P <-. destruct (J2 i u P) as [fns Hq].
    now apply (idle_not_waiting s _ fns Hidle). }
  split.
  - intros i j u v Pi Pj E.
    destruct (Old _ _ Pi) as [Pi' | [-> ->]], (Old _ _ Pj) as [Pj' | [-> ->]].
    + eapply J1; eauto.
    + simpl in E. now contradiction (Fresh _ _ Pi').
    + simpl in E. symmetry in E. now contradiction (Fresh _ _ Pj').
    + reflexivity.
  - intros i u P. rewrite Hi.
    destruct (Old _ _ P) as [P' | [-> ->]].
    + rewrite lookup_insert_ne by (intros E; now apply (Fresh _ _ P')).
      eauto.
    + simpl. rewrite lookup_insert_eq. eauto.
Qed.

(** How a call changes the registry and the invocations. *)
Lemma wrapped_registry args fn t s :
  let key := _key method args in
  let s' := (wrapped args fn t s).1 in
  (upstream s' = upstream s /\ inFlight s' = inFlight s)
  \/ (exists fns,
        inFlight s !! key = Some (Waiting fns)
        /\ upstream s' = upstream s
        /\ inFlight s' = <[key := Waiting (fns ++ [fn])]> (inFlight s))
  \/ (idle s key
      /\ upstream s' = (upstream s ++ [Invocation key args t false])%list
      /\ inFlight s' = <[key := Waiting [fn]]> (inFlight s)).
Proof.
  intros key s'. unfold s'.
  destruct (wrapped_cases args t s) as [H | [H [[fns Hq] | [Hq | Hq]]]].
  - destruct (wrapped_hit args fn t s H)
      as (cached & s1 & -> & _ & _ & _ & _ & _ & Hi & Hu & _).
    left. now split.
  - rewrite (wrapped_join args fn t s fns H Hq). right; left.
    exists fns. apply inFlight_get_array in Hq. now repeat split.
  - rewrite (wrapped_inherited args fn t s H Hq). left. now split.
  - rewrite (wrapped_miss args fn t s H Hq). right; right. now repeat split.
Qed.

Lemma wrapped_one_in_flight args fn t s :
  one_in_flight s -> one_in_flight (wrapped args fn t s).1.
Proof.
  intros J.
  destruct (wrapped_registry args fn t s)
    as [[Hu Hi] | [(fns & Hq & Hu & Hi) | (Hidle & Hu & Hi)]].
  - eapply one_in_flight_same; eauto.
  - eapply one_in_flight_join; eauto.
  - eapply one_in_flight_new; eauto.
Qed.

(** While [done] delivers for [key], a call neither invokes the
    underlying method for [key] nor takes its queue away. *)
Lemma wrapped_draining key args fn t s :
  draining key s -> draining key (wrapped args fn t s).1.
Proof.
  intros (J & D & [q Q]).
  split; [now apply wrapped_one_in_flight|].
  destruct (wrapped_registry args fn t s)
    as [[Hu Hi] | [(fns & Hq & Hu & Hi) | (Hidle & Hu & Hi)]].
  - unfold pending. rewrite Hu, Hi. split; eauto.
  - unfold pending. rewrite Hu, Hi. split; [exact D|].
    destruct (decide (_key method args = key)) as [<- | N].
    + rewrite lookup_insert_eq. eauto.
    + rewrite lookup_insert_ne by assumption. eauto.
  - assert (N : _key method args <> key).
    { intros E. rewrite E in Hidle. now apply (idle_not_waiting s key q). }
    split.
    + intros i u [P C]. rewrite Hu in P.
      apply lookup_app_Some in P as [P | [_ P]].
      * apply (D i u). now split.
      * apply list_lookup_singleton_Some in P as [_ <-]. exact N.
    + rewrite Hi, lookup_insert_ne by assumption. eauto.
Qed.

Lemma perform_one_in_flight t s a :
  one_in_flight s -> one_in_flight (perform opts method t s a).
Proof.
  destruct a as [args fn | l p v]; simpl.
  - apply wrapped_one_in_flight.
  - now apply one_in_flight_same.
Qed.

Lemma perform_draining key t s a :
  draining key s -> draining key (perform opts method t s a).
Proof.
  destruct a as [args fn | l p v]; simpl.
  - apply wrapped_draining.
  - now apply draining_same.
Qed.

Lemma invoke_one_in_flight fn err result t s :
  one_in_flight s -> one_in_flight (invoke react opts method fn err result t s).
Proof.
  intros J. unfold invoke.
  assert (J' : one_in_flight
                 (set_delivered (delivered s ++ [Delivery fn err result])%list s))
    by now apply (one_in_flight_same s).
  revert J'. generalize (set_delivered (delivered s ++ [Delivery fn err result])%list s).
  induction (react fn err result) as [|a acts IH]; intros s0 J0; simpl; auto.
  apply IH. now apply perform_one_in_flight.
Qed.

Lemma invoke_draining key fn err result t s :
  draining key s -> draining key (invoke react opts method fn err result t s).
Proof.
  intros J. unfold invoke.
  assert (J' : draining key
                 (set_delivered (delivered s ++ [Delivery fn err result])%list s))
    by now apply (draining_same key s).
  revert J'. generalize (set_delivered (delivered s ++ [Delivery fn err result])%list s).
  induction (react fn err result) as [|a acts IH]; intros s0 J0; simpl; auto.
  apply IH. now apply perform_draining.
Qed.

Lemma deliver_draining key err result t fns : forall s,
  draining key s ->
  draining key (foldl (fun s fn => invoke react opts method fn err result t s) s fns).
Proof.
  induction fns as [|fn fns IH]; intros s D; simpl; auto.
  apply IH. now apply invoke_draining.
Qed.

(** Once [done] has delivered, clearing the entry restores the invariant. *)
Lemma draining_cleared key s :
  draining key s ->
  one_in_flight (set_inFlight (<[key := Cleared]> (inFlight s)) s).
Proof.
  intros ([J1 J2] & D & _). split.
  - exact J1.
  - intros i u P. simpl.
    rewrite lookup_insert_ne by (intros E; now apply (D i u P)).
    now apply (J2 i u).
Qed.

Lemma done_one_in_flight key err result t s :
  draining key s ->
  one_in_flight (done react opts method key err result t s).1.
Proof.
  intros D. unfold done.
  destruct (inFlight_get (inFlight s) key); try apply D.
  destruct (truthy err); simpl;
    apply draining_cleared; now apply deliver_draining.
Qed.

Lemma completion_one_in_flight key start err result t s :
  draining key s ->
  one_in_flight (completion react opts method key start err result t s).1.
Proof.
  intros D. unfold completion. cbv zeta.
  destruct (truthy err).
  - apply done_one_in_flight. now apply (draining_same key s).
  - apply done_one_in_flight.
    destruct (_ || _); now apply (draining_same key s).
Qed.

(** Completing an invocation leaves its key with its queue and without an
    outstanding invocation. *)
Lemma mark_completed_draining i u s :
  one_in_flight s -> pending s i u ->
  draining (u_key u) (mark_completed i s).
Proof.
  intros [J1 J2] [Pu Cu].
  assert (Sub : forall j v, pending (mark_completed i s) j v ->
                            pending s j v /\ j <> i).
  { intros j v [P C]. unfold mark_completed in P. simpl in P.
    destruct (decide (i = j)) as [<- | N].
    - rewrite list_lookup_alter_eq, Pu in P. simpl in P.
      injection P as <-. discriminate.
    - rewrite list_lookup_alter_ne in P by assumption.
      split; [now split|congruence]. }
  split; [split|split].
  - intros j k v w Pj Pk E.
    apply Sub in Pj as [Pj _], Pk as [Pk _]. eapply J1; eauto.
  - intros j v Pj. apply Sub in Pj as [Pj _]. simpl. eauto.
  - intros j v Pj E. apply Sub in Pj as [Pj N]. apply N.
    eapply J1; eauto. now split.
  - simpl. apply (J2 i u). now split.
Qed.

Lemma step_one_in_flight s e :
  one_in_flight s -> one_in_flight (step react opts method s e).
Proof.
  intros J. destruct e as [args fn t | i err result t | t | l p v]; simpl.
  - now apply wrapped_one_in_flight.
  - destruct (upstream s !! i) as [u|] eqn:Hu; [|assumption].
    destruct (u_completed u) eqn:Hc; [assumption|].
    apply completion_one_in_flight, mark_completed_draining; auto.
    now split.
  - destruct (ticks s) as [|[fn cached] rest]; [assumption|].
    apply invoke_one_in_flight. now apply (one_in_flight_same s).
  - now apply (one_in_flight_same s).
Qed.

Lemma init_one_in_flight h : one_in_flight (init opts h).
Proof.
  split.
  - intros i j u v [P _]. simpl in P. now rewrite lookup_nil in P.
  - intros i u [P _]. simpl in P. now rewrite lookup_nil in P.
Qed.

Lemma run_one_in_flight es : forall s,
  one_in_flight s -> one_in_flight (run react opts method s es).
Proof.
  induction es as [|e es IH]; intros s J; simpl; auto.
  apply IH. now apply step_one_in_flight.
Qed.

Lemma reachable_one_in_flight s :
  reachable react opts method s -> one_in_flight s.
Proof.
  intros (h & es & ->). apply run_one_in_flight, init_one_in_flight.
Qed.

(** *** Coalescing *)

(** Calls for a key in flight and not cached all join its queue. *)
Lemma join_all key more : forall s q,
  inFlight s !! key = Some (Waiting q) ->
  Forall (fun c => _key method (c_args c) = key
                   /\ LRU.has (cache s) key (c_time c) = false) more ->
  let s' := run react opts method s (map call_event more) in
  cache s' = cache s
  /\ upstream s' = upstream s
  /\ delivered s' = delivered s
  /\ inFlight s' !! key = Some (Waiting (q ++ map c_fn more)).
Proof.
  induction more as [|c more IH]; intros s q Hq Hall; simpl.
  - rewrite app_nil_r. auto.
  - apply Forall_cons in Hall as [[Hk Hhas] Hall].
    destruct c as [args fn t]. simpl in *.
    assert (Hw := wrapped_join args fn t s q).
    rewrite Hk in Hw. specialize (Hw Hhas).
    rewrite inFlight_get_array in Hw. specialize (Hw Hq).
    unfold call_event at 1. simpl. rewrite Hw. simpl.
    match goal with |- context [run _ _ _ ?s0 _] => set (sj := s0) end.
    destruct (IH sj (q ++ [fn])%list) as (Hc & Hu & Hd & Hi).
    + unfold sj. simpl. now rewrite lookup_insert_eq.
    + exact Hall.
    + rewrite <- app_assoc in Hi. repeat split; assumption.
Qed.

End Wrapped.

(** Any number of calls for a key that is neither cached nor in flight,
    one after the other: one invocation, one queue. *)
Lemma calls_in_a_row react opts method s first more :
  let key := _key method (c_args first) in
  let calls := first :: more in
  idle s key ->
  Forall (fun c => _key method (c_args c) = key
                   /\ _has key (c_time c) s = false) calls ->
  let s1 := run react opts method s (map call_event calls) in
  upstream s1
  = (upstream s ++ [Invocation key (c_args first) (c_time first) false])%list
  /\ delivered s1 = delivered s
  /\ inFlight s1 !! key = Some (Waiting (map c_fn calls)).
Proof.
  intros key calls Hidle Hall s1.
  apply Forall_cons in Hall as [[_ Hhas] Hall].
  destruct first as [args fn t]. simpl in key, Hhas.
  assert (Hw := wrapped_miss opts method args fn t s Hhas Hidle).
  fold key in Hw.
  assert (Hs1 : s1 = run react opts method (wrapped opts method args fn t s).1
                         (map call_event more)) by reflexivity.
  rewrite Hw in Hs1. simpl in Hs1.
  match type of Hs1 with _ = run _ _ _ ?s0 _ => set (sa := s0) in * end.
  destruct (join_all react opts method key more sa [fn]) as (Hc & Hu & Hd & Hi).
  { unfold sa. simpl. now rewrite lookup_insert_eq. }
  { exact Hall. }
  rewrite <- Hs1 in Hc, Hu, Hd, Hi. simpl in Hu, Hd.
  auto.
Qed.

(** The underlying method completing an outstanding invocation whose
    key has its queue. *)
Lemma complete_spec react opts method s i u err result t fns :
  pending s i u ->
  inFlight s !! u_key u = Some (Waiting fns) ->
  let s' := step react opts method s (Complete i err result t) in
  delivered s'
  = (delivered s
     ++ map (fun fn => Delivery fn (handed err result).1
                                (handed err result).2) fns)%list
  /\ inFlight_get (inFlight s') (u_key u) = FNull
  /\ (forall k,
        LRU.find (cache s') k
        = LRU.find (if stores opts err result
                    then LRU.set (cache s) (u_key u) result t
                    else cache s) k)
  /\ (exists more,
        stats s'
        = (stats s
           ++ Timer "proxy-cache.duration" (t - u_start u) (tags method)
              :: more)%list
        /\ forallb (fun m => negb (is_timer m)) more = true)
  /\ (exists more, ticks s' = (ticks s ++ more)%list)
  /\ LRU.maxAge (cache s') = LRU.maxAge (cache s)
  /\ LRU.max (cache s') = LRU.max (cache s).
Proof.
  intros [Hu Hc] Hq s'. unfold s'. simpl step. rewrite Hu, Hc.
  destruct (completion_spec react opts method (u_key u) (u_start u) err
              result t (mark_completed i s) fns)
    as (s1 & -> & H).
  { apply inFlight_get_array. exact Hq. }
  exact H.
Qed.

(** A call for a key that is neither cached nor in flight invokes the
    underlying method and invokes no callback. *)
Lemma call_goes_upstream react opts method s args fn t :
  _has (_key method args) t s = false ->
  idle s (_key method args) ->
  let s' := step react opts method s (Call args fn t) in
  upstream s'
  = (upstream s ++ [Invocation (_key method args) args t false])%list
  /\ delivered s' = delivered s
  /\ ticks s' = ticks s.
Proof.
  intros Hhas Hidle s'. unfold s'. simpl step.
  rewrite (wrapped_miss opts method args fn t s Hhas Hidle). auto.
Qed.

(** Where the registry reads idle for a key that is not cached (on a
    new registry: for a key that names no member of [Object.prototype]),
    a call for the key invokes the underlying method and starts the
    key's queue with its callback; a call for a key that is in flight
    and not cached only adds its callback to the end of the queue.  So
    any number of calls with one key, issued from such a state and
    before the underlying method completes, invoke the underlying method
    exactly once (for the first of them), invoke no callback, and leave
    their callbacks queued in arrival order; and when that invocation
    completes, each of them is invoked once, in arrival order, all with
    the same error or the same result, whatever the callbacks do before
    they return, after which the key is idle again.  In every state a
    wrapper can reach, two outstanding invocations of the underlying
    method never share a key. *)
Theorem coalescing react opts method :
  (forall s args fn t,
     _has (_key method args) t s = false ->
     idle s (_key method args) ->
     let s' := step react opts method s (Call args fn t) in
     upstream s'
     = (upstream s ++ [Invocation (_key method args) args t false])%list
     /\ inFlight s' !! _key method args = Some (Waiting [fn])
     /\ delivered s' = delivered s)
  /\ (forall s args fn t fns,
        _has (_key method args) t s = false ->
        inFlight s !! _key method args = Some (Waiting fns) ->
        let s' := step react opts method s (Call args fn t) in
        upstream s' = upstream s
        /\ inFlight s' !! _key method args = Some (Waiting (fns ++ [fn]))
        /\ delivered s' = delivered s)
  /\ (forall s i u err result t fns,
        pending s i u ->
        inFlight s !! u_key u = Some (Waiting fns) ->
        let s' := step react opts method s (Complete i err result t) in
        delivered s'
        = (delivered s
           ++ map (fun fn => Delivery fn (handed err result).1
                                      (handed err result).2) fns)%list
        /\ inFlight_get (inFlight s') (u_key u) = FNull)
  /\ (forall s first more err result t',
        let key := _key method (c_args first) in
        let calls := first :: more in
        idle s key ->
        Forall (fun c => _key method (c_args c) = key
                         /\ _has key (c_time c) s = false) calls ->
        let s1 := run react opts method s (map call_event calls) in
        let s2 := step react opts method s1
                       (Complete (List.length (upstream s)) err result t') in
        upstream s1
        = (upstream s
           ++ [Invocation key (c_args first) (c_time first) false])%list
        /\ delivered s1 = delivered s
        /\ inFlight s1 !! key = Some (Waiting (map c_fn calls))
        /\ delivered s2
           = (delivered s
              ++ map (fun c => Delivery (c_fn c) (handed err result).1
                                        (handed err result).2) calls)%list
        /\ inFlight_get (inFlight s2) key = FNull)
  /\ (forall s, reachable react opts method s ->
       forall i j u v,
         pending s i u -> pending s j v -> u_key u = u_key v -> i = j).
Proof.
  split; [|split; [|split; [|split]]].
  - intros s args fn t Hhas Hidle s'. unfold s'. simpl step.
    rewrite (wrapped_miss opts method args fn t s Hhas Hidle). simpl.
    rewrite lookup_insert_eq. auto.
  - intros s args fn t fns Hhas Hq s'. unfold s'. simpl step.
    rewrite (wrapped_join opts method args fn t s fns Hhas
               (proj2 (inFlight_get_array _ _ _) Hq)).
    simpl. rewrite lookup_insert_eq. auto.
  - intros s i u err result t fns P Hq s'.
    destruct (complete_spec react opts method s i u err result t fns P Hq)
      as (Hd & Hn & _).
    auto.
  - intros s first more err result t' key calls Hidle Hall s1 s2.
    destruct (calls_in_a_row react opts method s first more Hidle Hall)
      as (Hu & Hd & Hi).
    subst s2 s1 calls key. cbv zeta in Hu, Hd, Hi.
    split; [exact Hu|]. split; [exact Hd|]. split; [exact Hi|].
    destruct (complete_spec react opts method
                (run react opts method s (map call_event (first :: more)))
                (List.length (upstream s))
                (Invocation (_key method (c_args first)) (c_args first)
                            (c_time first) false)
                err result t' (map c_fn (first :: more)))
      as (Hd2 & Hn & _).
    + split; [|reflexivity]. rewrite Hu.
      rewrite lookup_app_r by lia. now rewrite Nat.sub_diag.
    + exact Hi.
    + cbv zeta in Hd2, Hn. simpl u_key in Hn. split; [|exact Hn].
      rewrite Hd2, Hd, map_map. reflexivity.
  - intros s R. apply (reachable_one_in_flight react opts method s R).
Qed.

(** When the underlying method completes an invocation with an error,
    the store holds afterwards exactly what it held before (no entry is
    created, for that key or any other); every callback queued for the
    key is invoked, in order, with that error and no result; the
    registry entry of the key is cleared once they have returned; and a
    call for the key made after that, the key being no more cached than
    before, invokes the underlying method again and invokes no callback
    by itself. *)
Theorem error_is_not_cached react opts method s i u err result t fns :
  pending s i u ->
  inFlight s !! u_key u = Some (Waiting fns) ->
  truthy err = true ->
  let key := u_key u in
  let s' := step react opts method s (Complete i err result t) in
  (forall k, LRU.find (cache s') k = LRU.find (cache s) k)
  /\ (forall k t2, _has k t2 s' = _has k t2 s)
  /\ delivered s'
     = (delivered s ++ map (fun fn => Delivery fn err VUndefined) fns)%list
  /\ inFlight_get (inFlight s') key = FNull
  /\ (forall args fn t2,
        _key method args = key ->
        _has key t2 s = false ->
        let s2 := step react opts method s' (Call args fn t2) in
        upstream s2 = (upstream s' ++ [Invocation key args t2 false])%list
        /\ delivered s2 = delivered s'
        /\ ticks s2 = ticks s').
Proof.
  intros P Hq Herr key s'.
  destruct (complete_spec react opts method s i u err result t fns P Hq)
    as (Hd & Hn & Hf & _ & _ & Ha & _).
  fold s' in Hd, Hn, Hf, Ha.
  unfold stores, handed in *. rewrite Herr in *. simpl in Hd, Hf.
  assert (Hhas : forall k t2, _has k t2 s' = _has k t2 s).
  { intros k t2. unfold _has. now apply LRUFacts.has_same. }
  split; [exact Hf|]. split; [exact Hhas|]. split; [exact Hd|].
  split; [exact Hn|].
  intros args fn t2 Hk Hhas2. unfold key in *. rewrite <- Hk in *.
  apply call_goes_upstream.
  - rewrite Hhas. exact Hhas2.
  - right. exact Hn.
Qed.

(** A call for a cached key whose stored value is no object is handed
    that value, on a later tick, and invokes nothing. *)
Lemma call_is_served react opts method s args fn t e :
  LRU.find (cache s) (_key method args) = Some e ->
  LRU.expired (cache s) e t = false ->
  (forall l, LRU.value e <> VObj l) ->
  let s' := step react opts method s (Call args fn t) in
  ticks s' = (ticks s ++ [(fn, LRU.value e)])%list
  /\ upstream s' = upstream s
  /\ delivered s' = delivered s.
Proof.
  intros Hf He Hv s'. unfold s'. simpl step.
  assert (Hhas : _has (_key method args) t s = true).
  { apply LRUFacts.has_true. eauto. }
  destruct (wrapped_hit opts method args fn t s Hhas)
    as (cached & s1 & -> & Ht & _ & _ & _ & _ & _ & Hu & Hd & e' & Hf' & Hc).
  rewrite Hf in Hf'. injection Hf' as <-.
  rewrite JSFacts.clone_not_object in Hc by assumption.
  injection Hc as -> _. simpl. auto.
Qed.

(** A [null] result is told from [undefined] by [!==] but not by the
    presence test [result != undefined], so the completion callback
    treats the two alike.  When the underlying method completes an
    invocation without error and with [null] (or [undefined]): the queued
    callbacks are handed that result; with the tombstone option off the
    store is left as it was and a call for the key made once the
    callbacks have returned, the key being no more cached than before,
    invokes the underlying method again; with the tombstone option on
    the result is stored (capacity permitting) and a call for the key
    made within [maxAge] is handed it on a later tick, without invoking
    the underlying method. *)
Theorem null_is_treated_as_undefined
    react opts method s i u err result t fns :
  pending s i u ->
  inFlight s !! u_key u = Some (Waiting fns) ->
  truthy err = false ->
  result = VNull \/ result = VUndefined ->
  let key := u_key u in
  let s' := step react opts method s (Complete i err result t) in
  strict_neq_undefined VNull = true
  /\ loose_neq_undefined VNull = loose_neq_undefined VUndefined
  /\ stores opts err VNull = stores opts err VUndefined
  /\ delivered s'
     = (delivered s ++ map (fun fn => Delivery fn VNull result) fns)%list
  /\ (tombstone opts = false ->
      (forall k, LRU.find (cache s') k = LRU.find (cache s) k)
      /\ forall args fn t2,
          _key method args = key ->
          _has key t2 s = false ->
          let s2 := step react opts method s' (Call args fn t2) in
          upstream s2 = (upstream s' ++ [Invocation key args t2 false])%list
          /\ delivered s2 = delivered s'
          /\ ticks s2 = ticks s')
  /\ (tombstone opts = true ->
      (1 <= LRU.max (cache s))%nat ->
      LRU.find (cache s') key = Some (LRU.Entry key result t)
      /\ forall args fn t2,
          _key method args = key ->
          (t2 - t <= LRU.maxAge (cache s))%Z ->
          let s2 := step react opts method s' (Call args fn t2) in
          ticks s2 = (ticks s' ++ [(fn, result)])%list
          /\ upstream s2 = upstream s'
          /\ delivered s2 = delivered s').
Proof.
  intros P Hq Herr Hres key s'.
  destruct (complete_spec react opts method s i u err result t fns P Hq)
    as (Hd & Hn & Hf & _ & _ & Ha & _).
  fold s' in Hd, Hn, Hf, Ha. fold key in Hn, Hf.
  unfold stores, handed in Hd, Hf. rewrite Herr in Hd, Hf. simpl in Hd, Hf.
  assert (Hloose : loose_neq_undefined result = false)
    by (destruct Hres as [-> | ->]; reflexivity).
  rewrite Hloose in Hf. simpl in Hf.
  split; [reflexivity|]. split; [reflexivity|]. split; [reflexivity|].
  split; [exact Hd|]. split.
  - intros Htomb. rewrite Htomb in Hf. split; [exact Hf|].
    intros args fn t2 Hk Hhas2. unfold key in *. rewrite <- Hk in *.
    apply call_goes_upstream.
    + unfold _has in *. rewrite (LRUFacts.has_same (cache s)); assumption.
    + right. exact Hn.
  - intros Htomb Hmax. rewrite Htomb in Hf.
    assert (Hfk : LRU.find (cache s') key = Some (LRU.Entry key result t)).
    { rewrite Hf. now apply LRUFacts.find_set. }
    split; [exact Hfk|].
    intros args fn t2 Hk Hage. unfold key in *. rewrite <- Hk in *.
    apply (call_is_served react opts method s' args fn t2 _ Hfk).
    + unfold LRU.expired. simpl. rewrite Ha. apply Z.ltb_ge. lia.
    + simpl. destruct Hres as [-> | ->]; discriminate.
Qed.

(** The scheduler runs the queued tasks in order; what the callbacks
    queue in turn lines up behind. *)
Lemma run_ticks react opts method q : forall s rest ts,
  ticks s = (q ++ rest)%list ->
  List.length ts = List.length q ->
  let s' := run react opts method s (map Tick ts) in
  delivered s' = (delivered s ++ map task_delivery q)%list
  /\ exists more, ticks s' = (rest ++ more)%list.
Proof.
  induction q as [|[f c] q IH]; intros s rest ts Ht Hl.
  - destruct ts; [|discriminate]. simpl. rewrite app_nil_r.
    split; [reflexivity|]. exists []. now rewrite app_nil_r.
  - destruct ts as [|t ts]; [discriminate|]. injection Hl as Hl.
    simpl map. simpl run. rewrite Ht. simpl.
    destruct (invoke_spec react opts method f VNull c t
                (set_ticks (q ++ rest)%list s)) as [Hd F].
    destruct F as [_ _ _ _ [more1 T] _]. simpl in Hd, T.
    rewrite <- app_assoc in T.
    destruct (IH _ _ ts T Hl) as [Hd' [more2 T']].
    split.
    + rewrite Hd', Hd, <- app_assoc. reflexivity.
    + exists (more1 ++ more2)%list. now rewrite T', app_assoc.
Qed.

(** C7. A call that hits the cache returns without having invoked any
    callback: it hands the scheduler a task holding the caller's
    callback and the copy of the cached value.  The callback is invoked,
    with no error and that copy, when the scheduler runs that task,
    after the tasks queued before it. *)
Theorem cache_hit_is_deferred react opts method s args fn t ts t' :
  _has (_key method args) t s = true ->
  List.length ts = List.length (ticks s) ->
  let s1 := step react opts method s (Call args fn t) in
  let s2 := run react opts method s1 (map Tick ts) in
  let s3 := step react opts method s2 (Tick t') in
  (wrapped opts method args fn t s).2 = Returned
  /\ delivered s1 = delivered s
  /\ upstream s1 = upstream s
  /\ exists cached,
      ticks s1 = (ticks s ++ [(fn, cached)])%list
      /\ (exists e,
            LRU.find (cache s) (_key method args) = Some e
            /\ (cached, heap s1) = clone (LRU.value e) true 1 (heap s))
      /\ delivered s2 = (delivered s ++ map task_delivery (ticks s))%list
      /\ delivered s3
         = (delivered s ++ map task_delivery (ticks s)
                        ++ [Delivery fn VNull cached])%list.
Proof.
  intros Hhas Hl s1 s2 s3.
  destruct (wrapped_hit opts method args fn t s Hhas)
    as (cached & s1' & Hw & Ht & _ & _ & _ & _ & _ & Hu & Hd & He).
  assert (Hs1 : s1 = s1') by (unfold s1; simpl; now rewrite Hw).
  rewrite <- Hs1 in Ht, Hu, Hd, He.
  split; [now rewrite Hw|]. split; [exact Hd|]. split; [exact Hu|].
  exists cached. split; [exact Ht|]. split; [exact He|].
  destruct (run_ticks react opts method (ticks s) s1 [(fn, cached)] ts Ht Hl)
    as [Hd2 [more T2]].
  fold s2 in Hd2, T2. rewrite Hd in Hd2.
  split; [exact Hd2|].
  unfold s3. simpl step. rewrite T2. simpl.
  destruct (invoke_spec react opts method fn VNull cached t'
              (set_ticks more s2)) as [Hd3 _].
  rewrite Hd3. simpl. rewrite Hd2, <- app_assoc. reflexivity.
Qed.

(** C9. Every call of a wrapped method first records
    [proxy-cache.calls] (an increment by one) and [proxy-cache.size]
    (the number of entries in the store), tagged [method:<name>].  It
    records [proxy-cache.hit] next exactly when it is served from the
    cache (its callback goes to the scheduler and the underlying method
    is not invoked), [proxy-cache.miss] exactly when it invokes the
    underlying method, and nothing more when it joins a call in flight
    or throws.  [proxy-cache.duration] is recorded once per completion
    of the underlying method, as the time between the call that invoked
    it and the completion; a call, a tick and whatever the callbacks do
    record no timer. *)
Theorem metrics_per_call react opts method :
  tags method = ["method:" ++ method]
  /\ (forall s args fn t,
        let s' := step react opts method s (Call args fn t) in
        (_has (_key method args) t s = true
         /\ stats s' = (stats s ++ calls_and_size method s
                                ++ [Incr "proxy-cache.hit" 1 (tags method)])%list
         /\ upstream s' = upstream s
         /\ exists cached, ticks s' = (ticks s ++ [(fn, cached)])%list)
        \/ (_has (_key method args) t s = false
            /\ idle s (_key method args)
            /\ stats s' = (stats s ++ calls_and_size method s
                                   ++ [Incr "proxy-cache.miss" 1 (tags method)])%list
            /\ upstream s'
               = (upstream s ++ [Invocation (_key method args) args t false])%list
            /\ ticks s' = ticks s)
        \/ (_has (_key method args) t s = false
            /\ ~ idle s (_key method args)
            /\ stats s' = (stats s ++ calls_and_size method s)%list
            /\ upstream s' = upstream s
            /\ ticks s' = ticks s))
  /\ (forall s i u err result t fns,
        pending s i u ->
        inFlight s !! u_key u = Some (Waiting fns) ->
        let s' := step react opts method s (Complete i err result t) in
        exists more,
          stats s'
          = (stats s
             ++ Timer "proxy-cache.duration" (t - u_start u) (tags method)
                :: more)%list
          /\ forallb (fun m => negb (is_timer m)) more = true)
  /\ (forall s e,
        (forall i err result t, e <> Complete i err result t) ->
        exists more,
          stats (step react opts method s e) = (stats s ++ more)%list
          /\ forallb (fun m => negb (is_timer m)) more = true).
Proof.
  split; [reflexivity|]. split; [|split].
  - intros s args fn t s'. unfold s'. simpl step.
    destruct (wrapped_cases method args t s)
      as [H | [H [[fns Hq] | [Hq | Hq]]]].
    + left. destruct (wrapped_hit opts method args fn t s H)
        as (cached & s1 & -> & Ht & Hs & _ & _ & _ & _ & Hu & _).
      simpl. eauto 10.
    + right; right. rewrite (wrapped_join opts method args fn t s fns H Hq).
      simpl. repeat split; auto.
      intros [E | E]; congruence.
    + right; right. rewrite (wrapped_inherited opts method args fn t s H Hq).
      simpl. repeat split; auto.
      intros [E | E]; congruence.
    + right; left. rewrite (wrapped_miss opts method args fn t s H Hq).
      simpl. repeat split; auto.
  - intros s i u err result t fns P Hq s'.
    destruct (complete_spec react opts method s i u err result t fns P Hq)
      as (_ & _ & _ & Hs & _).
    exact Hs.
  - intros s e Hne. destruct e as [args fn t | i err result t | t | l p v].
    + apply (frame_stats _ _ (wrapped_frame opts method args fn t s)).
    + now contradiction (Hne i err result t).
    + simpl. destruct (ticks s) as [|[fn cached] rest].
      * exists []. now rewrite app_nil_r.
      * destruct (invoke_spec react opts method fn VNull cached t
                    (set_ticks rest s)) as [_ F].
        apply (frame_stats _ _ F).
    + simpl. exists []. now rewrite app_nil_r.
Qed.

(** Writes to one object leave the wrapper and every other object alone. *)
Lemma run_writes react opts method l' ws : forall s,
  let s' := run react opts method s (map (write_event l') ws) in
  cache s' = cache s
  /\ ticks s' = ticks s
  /\ upstream s' = upstream s
  /\ delivered s' = delivered s
  /\ forall l, l <> l' -> heap s' !! l = heap s !! l.
Proof.
  induction ws as [|[p v] ws IH]; intros s; simpl.
  - auto.
  - destruct (IH (set_heap (write l' p v (heap s)) s))
      as (Hc & Ht & Hu & Hd & Hh).
    simpl in *. repeat split; auto.
    intros l N. rewrite Hh by assumption.
    apply JSFacts.write_lookup_ne. congruence.
Qed.

(** C3, as the code has it.  A call that hits the cache on a stored
    object is handed a new object with the stored object's members (a
    copy one level deep).  Whatever the caller then assigns to members
    of its copy, the stored object keeps its members, and a later call
    that hits the cache is handed another new object with those same
    members. *)
Theorem cache_hit_copy_is_isolated
    react opts method s args fn t fn2 t2 e l o ws :
  LRU.find (cache s) (_key method args) = Some e ->
  LRU.expired (cache s) e t = false ->
  LRU.expired (cache s) e t2 = false ->
  LRU.value e = VObj l ->
  heap s !! l = Some o ->
  let s1 := step react opts method s (Call args fn t) in
  exists copy,
    ticks s1 = (ticks s ++ [(fn, VObj copy)])%list
    /\ copy <> l
    /\ heap s !! copy = None
    /\ members (heap s1) (VObj copy) = Some o
    /\ let s2 := run react opts method s1 (map (write_event copy) ws) in
       let s3 := step react opts method s2 (Call args fn2 t2) in
       members (heap s2) (VObj l) = Some o
       /\ LRU.find (cache s2) (_key method args) = Some e
       /\ exists copy2,
           ticks s3 = (ticks s ++ [(fn, VObj copy); (fn2, VObj copy2)])%list
           /\ copy2 <> copy
           /\ copy2 <> l
           /\ members (heap s3) (VObj copy2) = Some o
           /\ members (heap s3) (VObj l) = Some o.
Proof.
  intros Hf He He2 Hv Hl s1.
  assert (Hhas : _has (_key method args) t s = true).
  { apply LRUFacts.has_true. eauto. }
  destruct (wrapped_hit opts method args fn t s Hhas)
    as (cached & s1' & Hw & Ht & _ & Hfind & _ & Hage & _ & _ & _
        & e' & Hf' & Hc).
  assert (Hs1 : s1 = s1') by (unfold s1; simpl; now rewrite Hw).
  rewrite <- Hs1 in Ht, Hfind, Hage, Hc. clear Hw Hs1 s1'.
  rewrite Hf in Hf'. injection Hf' as <-.
  rewrite Hv, (JSFacts.clone_object l o _ Hl) in Hc.
  injection Hc as -> Hh1.
  set (copy := fresh (dom (heap s))) in *.
  assert (Hfresh : heap s !! copy = None) by apply JSFacts.fresh_not_allocated.
  assert (Hne : copy <> l) by congruence.
  exists copy. split; [exact Ht|]. split; [exact Hne|]. split; [exact Hfresh|].
  split; [simpl; rewrite Hh1; apply lookup_insert_eq|].
  intros s2 s3.
  destruct (run_writes react opts method copy ws s1) as (Hc2 & Ht2 & _ & _ & Hh2).
  fold s2 in Hc2, Ht2, Hh2.
  assert (Hl2 : heap s2 !! l = Some o).
  { rewrite Hh2 by congruence. rewrite Hh1.
    rewrite lookup_insert_ne by assumption. exact Hl. }
  assert (Hf2 : LRU.find (cache s2) (_key method args) = Some e)
    by now rewrite Hc2, Hfind.
  split; [exact Hl2|]. split; [exact Hf2|].
  assert (Hhas2 : _has (_key method args) t2 s2 = true).
  { apply LRUFacts.has_true. exists e. split; [exact Hf2|].
    unfold LRU.expired in *. now rewrite Hc2, Hage. }
  destruct (wrapped_hit opts method args fn2 t2 s2 Hhas2)
    as (cached & s3' & Hw & Ht3 & _ & _ & _ & _ & _ & _ & _
        & e' & Hf' & Hc).
  assert (Hs3 : s3 = s3') by (unfold s3; simpl; now rewrite Hw).
  rewrite <- Hs3 in Ht3, Hc. clear Hw Hs3 s3'.
  rewrite Hf2 in Hf'. injection Hf' as <-.
  rewrite Hv, (JSFacts.clone_object l o _ Hl2) in Hc.
  injection Hc as -> Hh3.
  set (copy2 := fresh (dom (heap s2))) in *.
  assert (Hfresh2 : heap s2 !! copy2 = None)
    by apply JSFacts.fresh_not_allocated.
  assert (Hcopy : is_Some (heap s2 !! copy)).
  { unfold s2. clear - Hh1.
    assert (H1 : is_Some (heap s1 !! copy))
      by (rewrite Hh1, lookup_insert_eq; eauto).
    revert H1. generalize s1. clear.
    induction ws as [|[p v] ws IH]; intros s1 H1; simpl; [exact H1|].
    apply IH. simpl. unfold write. apply lookup_alter_is_Some. exact H1. }
  exists copy2. split; [|split; [|split; [|split]]].
  - rewrite Ht3, Ht2, Ht, <- app_assoc. reflexivity.
  - intros E. rewrite <- E, Hfresh2 in Hcopy. now destruct Hcopy.
  - congruence.
  - simpl. rewrite Hh3. apply lookup_insert_eq.
  - simpl. rewrite Hh3, lookup_insert_ne by congruence. exact Hl2.
Qed.

(** What the underlying method completes with is not copied on its way
    out: every queued callback is handed the result itself, and the
    store, when it stores, holds that same value; for an object, the
    same reference. *)
Theorem completion_shares_the_result
    react opts method s i u err result t fns :
  pending s i u ->
  inFlight s !! u_key u = Some (Waiting fns) ->
  truthy err = false ->
  stores opts err result = true ->
  (1 <= LRU.max (cache s))%nat ->
  let s' := step react opts method s (Complete i err result t) in
  delivered s'
  = (delivered s ++ map (fun fn => Delivery fn VNull result) fns)%list
  /\ LRU.find (cache s') (u_key u) = Some (LRU.Entry (u_key u) result t).
Proof.
  intros P Hq Herr Hst Hmax s'.
  destruct (complete_spec react opts method s i u err result t fns P Hq)
    as (Hd & _ & Hf & _).
  fold s' in Hd, Hf. rewrite Hst in Hf.
  unfold handed in Hd. rewrite Herr in Hd. simpl in Hd.
  split; [exact Hd|]. rewrite Hf. now apply LRUFacts.find_set.
Qed.

(** A key that names a member of [Object.prototype] never reads idle in
    a registry that has no entry of its own for it: the first call for
    it throws after recording its two metrics, without invoking the
    underlying method, queuing the callback or scheduling anything. *)
Theorem inherited_name_throws opts method args fn t s :
  _key method args ∈ object_prototype ->
  inFlight s !! _key method args = None ->
  _has (_key method args) t s = false ->
  ~ idle s (_key method args)
  /\ wrapped opts method args fn t s
     = (State (cache s) (heap s) (inFlight s)
              (stats s ++ calls_and_size method s) (ticks s) (upstream s)
              (delivered s),
        Threw).
Proof.
  intros Hin Hnone Hhas.
  assert (Hq : inFlight_get (inFlight s) (_key method args) = FInherited).
  { unfold inFlight_get. rewrite Hnone. now rewrite bool_decide_eq_true_2. }
  split.
  - intros [E | E]; congruence.
  - now apply wrapped_inherited.
Qed.

(** A call made by a queued callback while [done] delivers an error for
    the same key joins the queue [done] is iterating over, which
    [forEach] does not revisit and [done] then drops: the underlying
    method is not invoked again, and the new callback is neither
    invoked, nor scheduled, nor kept in the registry. *)
Theorem reentrant_call_is_dropped
    react opts method s i u err result t fn0 args fn1 :
  pending s i u ->
  inFlight s !! u_key u = Some (Waiting [fn0]) ->
  truthy err = true ->
  react fn0 err VUndefined = [ACall args fn1] ->
  _key method args = u_key u ->
  _has (u_key u) t s = false ->
  let s' := step react opts method s (Complete i err result t) in
  delivered s' = (delivered s ++ [Delivery fn0 err VUndefined])%list
  /\ ticks s' = ticks s
  /\ upstream s' = upstream (mark_completed i s)
  /\ inFlight s' = <[u_key u := Cleared]> (inFlight s).
Proof.
  intros [Hu Hc] Hq Herr Hreact Hk Hhas s'.
  unfold s'. simpl step. rewrite Hu, Hc.
  unfold completion. cbv zeta. rewrite Herr.
  unfold done. simpl inFlight.
  rewrite (proj2 (inFlight_get_array _ _ _) Hq), Herr.
  simpl foldl. unfold invoke. rewrite Hreact. simpl foldl.
  unfold perform.
  match goal with
  | |- context [Wrap.wrapped opts method args fn1 t ?s0] => set (sx := s0)
  end.
  assert (Hw := wrapped_join opts method args fn1 t sx [fn0]).
  rewrite Hk in Hw. specialize (Hw Hhas).
  rewrite inFlight_get_array in Hw. specialize (Hw Hq).
  rewrite Hw. simpl.
  repeat split; auto. apply insert_insert_eq.
Qed.

End WrapFacts.


(** ** How the wrapper's operations compose *)

Module Sequences.
Import Key JS Wrap.

#[local] Arguments clone : simpl never.
#[local] Arguments LRU.length : simpl never.
#[local] Arguments _key : simpl never.

Lemma grows_refl s : grows s s.
Proof.
  split.
  - exists []. now rewrite app_nil_r.
  - intros key q Q. exists []. now rewrite app_nil_r.
Qed.

Lemma grows_same s s' :
  upstream s' = upstream s -> inFlight s' = inFlight s -> grows s s'.
Proof. intros Hu Hi. unfold grows. rewrite Hu, Hi. apply grows_refl. Qed.

Lemma grows_trans s1 s2 s3 : grows s1 s2 -> grows s2 s3 -> grows s1 s3.
Proof.
  intros [[m1 U1] Q1] [[m2 U2] Q2]. split.
  - exists (m1 ++ m2)%list. now rewrite U2, U1, app_assoc.
  - intros key q Q. destruct (Q1 key q Q) as [a Qa].
    destruct (Q2 key _ Qa) as [c Qc]. exists (a ++ c)%list.
    now rewrite Qc, app_assoc.
Qed.

Section Wrapped.

Variable react : client.
Variable opts : options.
Variable method : string.

(** A call keeps the invocations made so far and only adds to queues. *)
Lemma wrapped_grows args fn t s : grows s (wrapped opts method args fn t s).1.
Proof.
  destruct (WrapFacts.wrapped_registry opts method args fn t s)
    as [[Hu Hi] | [(fns & Hq & Hu & Hi) | (Hidle & Hu & Hi)]].
  - now apply grows_same.
  - split.
    + exists []. now rewrite Hu, app_nil_r.
    + intros key q Q. rewrite Hi.
      destruct (decide (_key method args = key)) as [E | N].
      * rewrite E in *. rewrite lookup_insert_eq. rewrite Hq in Q.
        injection Q as <-. now exists [fn].
      * rewrite lookup_insert_ne by assumption. exists [].
        now rewrite app_nil_r.
  - split.
    + eexists. exact Hu.
    + intros key q Q. rewrite Hi.
      rewrite lookup_insert_ne.
      * exists []. now rewrite app_nil_r.
      * intros E. rewrite E in Hidle.
        now apply (WrapFacts.idle_not_waiting s key q).
Qed.

Lemma perform_grows t s a : grows s (perform opts method t s a).
Proof.
  destruct a as [args fn | l p v]; simpl.
  - apply wrapped_grows.
  - now apply grows_same.
Qed.

Lemma invoke_grows fn err result t s :
  grows s (invoke react opts method fn err result t s).
Proof.
  unfold invoke.
  eapply grows_trans;
    [apply (grows_same s (set_delivered (delivered s ++ [Delivery fn err result])%list s));
       reflexivity|].
  generalize (set_delivered (delivered s ++ [Delivery fn err result])%list s).
  induction (react fn err result) as [|a acts IH]; intros s0; simpl.
  - apply grows_refl.
  - eapply grows_trans; [apply perform_grows | apply IH].
Qed.

Lemma deliver_grows err result t fns : forall s,
  grows s (foldl (fun s fn => invoke react opts method fn err result t s) s fns).
Proof.
  induction fns as [|fn fns IH]; intros s; simpl.
  - apply grows_refl.
  - eapply grows_trans; [apply invoke_grows | apply IH].
Qed.

(** The completion callback keeps the invocations made so far and the
    queues of the other keys. *)
Lemma completion_grows key start err result t s fns :
  inFlight_get (inFlight s) key = FArray fns ->
  let s' := (completion react opts method key start err result t s).1 in
  (exists more, upstream s' = (upstream s ++ more)%list)
  /\ (forall k q, k <> key -> inFlight s !! k = Some (Waiting q) ->
        exists more, inFlight s' !! k = Some (Waiting (q ++ more)%list))
  /\ inFlight s' !! key = Some Cleared.
Proof.
  intros Hq s'. unfold s', completion. cbv zeta.
  set (s1 := emit _ s).
  set (s2 := if loose_neq_undefined result || tombstone opts
             then set_cache (LRU.set (cache s1) key result t) s1 else s1).
  assert (G : forall e r s0, upstream s0 = upstream s -> inFlight s0 = inFlight s ->
            let s3 := (done react opts method key e r t s0).1 in
            (exists more, upstream s3 = (upstream s ++ more)%list)
            /\ (forall k q, k <> key -> inFlight s !! k = Some (Waiting q) ->
                  exists more, inFlight s3 !! k = Some (Waiting (q ++ more)%list))
            /\ inFlight s3 !! key = Some Cleared).
  { intros e r s0 Hu Hi s3. unfold s3, done. rewrite Hi, Hq.
    assert (D : forall e' r',
              grows s (foldl (fun s fn => invoke react opts method fn e' r' t s)
                             s0 fns)).
    { intros e' r'. eapply grows_trans; [|apply deliver_grows].
      now apply grows_same. }
    destruct (truthy e); simpl.
    - destruct (D e VUndefined) as [U Q]. split; [exact U|]. split.
      + intros k q N Hk. rewrite lookup_insert_ne by congruence. now apply Q.
      + apply lookup_insert_eq.
    - destruct (D VNull r) as [U Q]. split; [exact U|]. split.
      + intros k q N Hk. rewrite lookup_insert_ne by congruence. now apply Q.
      + apply lookup_insert_eq. }
  destruct (truthy err).
  - apply G; reflexivity.
  - fold s2. apply G; unfold s2; destruct (_ || _); reflexivity.
Qed.

(** What [cache.set] has stored is there for the next read. *)
Lemma stored_entry s i u err result t fns :
  pending s i u ->
  inFlight s !! u_key u = Some (Waiting fns) ->
  stores opts err result = true ->
  (1 <= LRU.max (cache s))%nat ->
  let s' := step react opts method s (Complete i err result t) in
  LRU.find (cache s') (u_key u) = Some (LRU.Entry (u_key u) result t)
  /\ LRU.maxAge (cache s') = LRU.maxAge (cache s)
  /\ inFlight_get (inFlight s') (u_key u) = FNull.
Proof.
  intros P Hq Hst Hmax s'.
  destruct (WrapFacts.complete_spec react opts method s i u err result t fns P Hq)
    as (_ & Hn & Hf & _ & _ & Ha & _).
  fold s' in Hn, Hf, Ha. rewrite Hst in Hf.
  split; [|split; assumption]. rewrite Hf. now apply LRUFacts.find_set.
Qed.

End Wrapped.

(** A result the completion callback has stored is served to the next
    call for its key exactly while it is no older than [maxAge]: a call
    made up to [maxAge] after the completion is handed a copy of it on a
    later tick and does not invoke the underlying method; a call made
    later than that invokes the underlying method again and schedules
    nothing. *)
Theorem stored_result_is_served_until_it_expires
    react opts method s i u err result t fns :
  pending s i u ->
  inFlight s !! u_key u = Some (Waiting fns) ->
  stores opts err result = true ->
  (1 <= LRU.max (cache s))%nat ->
  let key := u_key u in
  let s' := step react opts method s (Complete i err result t) in
  forall args fn t2,
    _key method args = key ->
    let s2 := step react opts method s' (Call args fn t2) in
    ((t2 - t <= LRU.maxAge (cache s))%Z ->
       upstream s2 = upstream s'
       /\ delivered s2 = delivered s'
       /\ exists cached,
           ticks s2 = (ticks s' ++ [(fn, cached)])%list
           /\ (cached, heap s2) = clone result true 1 (heap s'))
    /\ ((LRU.maxAge (cache s) < t2 - t)%Z ->
          upstream s2 = (upstream s' ++ [Invocation key args t2 false])%list
          /\ delivered s2 = delivered s'
          /\ ticks s2 = ticks s').
Proof.
  intros P Hq Hst Hmax key s' args fn t2 Hk s2.
  destruct (stored_entry react opts method s i u err result t fns P Hq Hst Hmax)
    as (Hf & Ha & Hn).
  fold s' in Hf, Ha, Hn. unfold key in *. clear key.
  rewrite <- Hk in *. clear Hk.
  split.
  - intros Hage.
    assert (Hhas : _has (_key method args) t2 s' = true).
    { apply LRUFacts.has_true. eexists. split; [exact Hf|].
      unfold LRU.expired. simpl. rewrite Ha. apply Z.ltb_ge. lia. }
    destruct (WrapFacts.wrapped_hit opts method args fn t2 s' Hhas)
      as (cached & s1 & Hw & Ht & _ & _ & _ & _ & _ & Hu & Hd & e & He & Hc).
    assert (Hs2 : s2 = s1) by (unfold s2; simpl; now rewrite Hw).
    rewrite Hs2. rewrite Hf in He. injection He as <-. simpl in Hc.
    split; [exact Hu|]. split; [exact Hd|]. exists cached. now split.
  - intros Hage. unfold s2.
    apply WrapFacts.call_goes_upstream.
    + unfold _has, LRU.has. rewrite Hf. unfold LRU.expired. simpl.
      rewrite Ha. apply negb_false_iff. apply Z.ltb_lt. lia.
    + right. exact Hn.
Qed.

(** The completion callback on a key that has no queue: [done] throws at
    [fns.forEach], after the timer and the store have been written. *)
Lemma completion_without_queue react opts method key start err result t s :
  (forall fns, inFlight_get (inFlight s) key <> FArray fns) ->
  completion react opts method key start err result t s
  = (set_cache (if stores opts err result
                then LRU.set (cache s) key result t else cache s)
               (emit (Timer "proxy-cache.duration" (t - start) (tags method)) s),
     Threw).
Proof.
  intros N. unfold completion, stores, done. cbv zeta.
  destruct (truthy err); simpl.
  - destruct (inFlight_get (inFlight s) key) eqn:E; try reflexivity.
    now contradiction (N fns).
  - destruct (loose_neq_undefined result || tombstone opts); simpl;
      (destruct (inFlight_get (inFlight s) key) eqn:E; try reflexivity;
       now contradiction (N fns)).
Qed.

(** The completion callback is tied to its key, not to its invocation.
    Called a second time while nothing is in flight for the key, it
    records another timer, writes the store as a first completion would,
    and then throws in [done] without invoking any callback.  Called a
    second time while a later call for the key is in flight, it hands
    its values to that call's callback and clears the queue, so that the
    later invocation, still outstanding, finds no queue when it
    completes: its own completion throws and invokes no callback. *)
Theorem completion_called_twice
    react opts method s i u err result t fns err2 result2 t2 :
  pending s i u ->
  inFlight s !! u_key u = Some (Waiting fns) ->
  let key := u_key u in
  let s1 := step react opts method s (Complete i err result t) in
  let again := completion react opts method key (u_start u) err2 result2 t2 in
  ((again s1).2 = Threw
   /\ delivered (again s1).1 = delivered s1
   /\ ticks (again s1).1 = ticks s1
   /\ upstream (again s1).1 = upstream s1
   /\ inFlight (again s1).1 = inFlight s1
   /\ stats (again s1).1
      = (stats s1 ++ [Timer "proxy-cache.duration" (t2 - u_start u)
                            (tags method)])%list
   /\ cache (again s1).1
      = (if stores opts err2 result2
         then LRU.set (cache s1) key result2 t2 else cache s1))
  /\ forall args fn t3,
       _key method args = key ->
       _has key t3 s1 = false ->
       let s2 := step react opts method s1 (Call args fn t3) in
       let j := List.length (upstream s1) in
       let v := Invocation key args t3 false in
       pending s2 j v
       /\ (again s2).2 = Returned
       /\ delivered (again s2).1
          = (delivered s2 ++ [Delivery fn (handed err2 result2).1
                                          (handed err2 result2).2])%list
       /\ pending (again s2).1 j v
       /\ forall err3 result3 t4,
            let own := completion react opts method key t3 err3 result3 t4
                                  (mark_completed j (again s2).1) in
            own.2 = Threw /\ delivered own.1 = delivered (again s2).1.
Proof.
  intros P Hq key s1 again.
  destruct (WrapFacts.complete_spec react opts method s i u err result t fns P Hq)
    as (_ & Hn & _).
  fold s1 in Hn. fold key in Hn.
  split.
  - unfold again. rewrite completion_without_queue by (intros q; congruence).
    simpl. repeat split; reflexivity.
  - intros args fn t3 Hk Hhas s2 j v.
    assert (Hw := WrapFacts.wrapped_miss opts method args fn t3 s1).
    rewrite Hk in Hw. specialize (Hw Hhas (or_intror Hn)).
    assert (Hs2 : s2 = (wrapped opts method args fn t3 s1).1) by reflexivity.
    rewrite Hw in Hs2. simpl in Hs2.
    assert (Pj : pending s2 j v).
    { split; [|reflexivity]. rewrite Hs2. simpl. unfold j.
      rewrite lookup_app_r by lia. now rewrite Nat.sub_diag. }
    assert (Q2 : inFlight_get (inFlight s2) key = FArray [fn]).
    { apply WrapFacts.inFlight_get_array. rewrite Hs2. simpl.
      apply lookup_insert_eq. }
    destruct (WrapFacts.completion_spec react opts method key (u_start u)
                err2 result2 t2 s2 [fn] Q2)
      as (s3 & Hc & Hd & Hn3 & _).
    destruct (completion_grows react opts method key (u_start u) err2 result2
                t2 s2 [fn] Q2) as ([more Hu] & _ & _).
    fold (again s2) in Hc, Hu. rewrite Hc in *. simpl in Hu, Hd |- *.
    split; [exact Pj|]. split; [reflexivity|]. split; [exact Hd|].
    assert (Pj3 : pending s3 j v).
    { destruct Pj as [Pj Cj]. split; [|exact Cj]. rewrite Hu.
      now apply lookup_app_l_Some. }
    split; [exact Pj3|].
    intros err3 result3 t4. cbv zeta.
    rewrite completion_without_queue.
    + split; reflexivity.
    + intros q. change (inFlight (mark_completed j s3)) with (inFlight s3).
      congruence.
Qed.

(** A call for the key made by the one queued callback while [done]
    delivers a result: the underlying method is not invoked again, and
    the queue is cleared once the callback has returned.  When the
    result was stored, the new call is served a copy of it on a later
    tick; when it was not (an absent result with the tombstone option
    off), the new callback has joined the queue [done] is about to drop,
    and is neither invoked nor scheduled. *)
Theorem reentrant_call_after_a_result
    react opts method s i u err result t fn0 args fn1 :
  pending s i u ->
  inFlight s !! u_key u = Some (Waiting [fn0]) ->
  truthy err = false ->
  react fn0 VNull result = [ACall args fn1] ->
  _key method args = u_key u ->
  let s' := step react opts method s (Complete i err result t) in
  delivered s' = (delivered s ++ [Delivery fn0 VNull result])%list
  /\ upstream s' = upstream (mark_completed i s)
  /\ inFlight s' = <[u_key u := Cleared]> (inFlight s)
  /\ (stores opts err result = true ->
      (1 <= LRU.max (cache s))%nat ->
      (0 <= LRU.maxAge (cache s))%Z ->
      ticks s' = (ticks s ++ [(fn1, (clone result true 1 (heap s)).1)])%list)
  /\ (stores opts err result = false ->
      _has (u_key u) t s = false ->
      ticks s' = ticks s).
Proof.
  intros [Hu Hc] Hq Herr Hreact Hk s'.
  unfold s'. simpl step. rewrite Hu, Hc.
  unfold completion, stores. cbv zeta. rewrite Herr. rewrite andb_true_l.
  set (s1 := emit _ (mark_completed i s)).
  set (s2 := if loose_neq_undefined result || tombstone opts
             then set_cache (LRU.set (cache s1) (u_key u) result t) s1 else s1).
  assert (Hi2 : inFlight s2 = inFlight s)
    by (unfold s2; now destruct (_ || _)).
  assert (Hd2 : delivered s2 = delivered s)
    by (unfold s2; now destruct (_ || _)).
  assert (Hu2 : upstream s2 = upstream (mark_completed i s))
    by (unfold s2; now destruct (_ || _)).
  assert (Ht2 : ticks s2 = ticks s)
    by (unfold s2; now destruct (_ || _)).
  assert (Hh2 : heap s2 = heap s)
    by (unfold s2; now destruct (_ || _)).
  assert (Hc2 : cache s2
                = if loose_neq_undefined result || tombstone opts
                  then LRU.set (cache s) (u_key u) result t else cache s)
    by (unfold s2; now destruct (_ || _)).
  unfold done. rewrite Hi2, (proj2 (WrapFacts.inFlight_get_array _ _ _) Hq).
  simpl truthy. cbv iota. simpl foldl. unfold invoke. rewrite Hreact.
  simpl foldl. unfold perform.
  set (sx := set_delivered (delivered s2 ++ [Delivery fn0 VNull result])%list s2).
  assert (Qx : inFlight sx !! _key method args = Some (Waiting [fn0])).
  { rewrite Hk. unfold sx. simpl. now rewrite Hi2. }
  destruct (_has (_key method args) t sx) eqn:Hhas.
  - destruct (WrapFacts.wrapped_hit opts method args fn1 t sx Hhas)
      as (cached & s3 & -> & Ht & _ & _ & _ & _ & Hi & Hux & Hd & e & He & Hcl).
    simpl. rewrite Hi, Hux, Hd, Ht. unfold sx. simpl.
    rewrite ?Hi2, ?Hd2, ?Hu2, ?Ht2.
    split; [reflexivity|]. split; [reflexivity|]. split; [reflexivity|].
    split.
    + intros Hst Hmax _. do 3 f_equal.
      unfold sx in He. simpl in He. rewrite Hc2, Hst, Hk in He.
      rewrite LRUFacts.find_set in He by assumption. injection He as <-.
      simpl in Hcl. unfold sx in Hcl. simpl in Hcl. rewrite Hh2 in Hcl.
      exact (f_equal fst Hcl).
    + intros Hst Hno. exfalso.
      unfold _has, sx in Hhas. simpl in Hhas. rewrite Hc2, Hst, Hk in Hhas.
      unfold _has in Hno. congruence.
  - rewrite (WrapFacts.wrapped_join opts method args fn1 t sx [fn0] Hhas
               (proj2 (WrapFacts.inFlight_get_array _ _ _) Qx)).
    simpl. rewrite Hi2, Hd2, Hu2, Ht2, Hk.
    split; [reflexivity|]. split; [reflexivity|].
    split; [apply insert_insert_eq|].
    split.
    + intros Hst Hmax Hage. exfalso.
      unfold _has, sx in Hhas. simpl in Hhas. rewrite Hc2, Hst, Hk in Hhas.
      rewrite LRUFacts.has_set in Hhas; [discriminate|assumption|lia].
    + reflexivity.
Qed.

(** Keys in flight do not interfere: when the underlying method
    completes the invocation of one key, only that key's callbacks are
    invoked; the invocation of another key stays outstanding and its
    queue keeps its callbacks, in order (the callbacks invoked may have
    added to it). *)
Theorem keys_do_not_interfere
    react opts method s i u j v err result t fns_u fns_v :
  pending s i u ->
  pending s j v ->
  u_key u <> u_key v ->
  inFlight s !! u_key u = Some (Waiting fns_u) ->
  inFlight s !! u_key v = Some (Waiting fns_v) ->
  let s' := step react opts method s (Complete i err result t) in
  delivered s'
  = (delivered s
     ++ map (fun fn => Delivery fn (handed err result).1
                                (handed err result).2) fns_u)%list
  /\ pending s' j v
  /\ exists more,
      inFlight s' !! u_key v = Some (Waiting (fns_v ++ more)%list).
Proof.
  intros Pi Pj N Qu Qv s'.
  destruct (WrapFacts.complete_spec react opts method s i u err result t fns_u
              Pi Qu) as (Hd & _).
  split; [exact Hd|].
  assert (Nij : i <> j).
  { intros ->. destruct Pi as [Pi _], Pj as [Pj _]. congruence. }
  destruct Pi as [Pi Ci]. unfold s'. simpl step. rewrite Pi, Ci.
  destruct (completion_grows react opts method (u_key u) (u_start u) err
              result t (mark_completed i s) fns_u)
    as ([more Hu] & Hq & _).
  { apply WrapFacts.inFlight_get_array. exact Qu. }
  split.
  - destruct Pj as [Pj Cj]. split; [|exact Cj]. rewrite Hu.
    apply lookup_app_l_Some. simpl.
    now rewrite list_lookup_alter_ne.
  - apply Hq; [congruence|exact Qv].
Qed.

(** With [peek] on, a call leaves the store as it is. *)
Lemma wrapped_peek opts method args fn t s :
  peek opts = true -> cache (wrapped opts method args fn t s).1 = cache s.
Proof.
  intros Hp.
  destruct (WrapFacts.wrapped_cases method args t s)
    as [H | [H [[fns Hq] | [Hq | Hq]]]].
  - unfold wrapped, _get. cbv zeta.
    set (s2 := emit _ (emit _ s)).
    change (_has (_key method args) t s2) with (_has (_key method args) t s).
    rewrite H, Hp. apply LRUFacts.has_true in H as (e & Hf & He).
    unfold LRU.peek, LRU.lookup_entry.
    change (cache (emit _ s2)) with (cache s).
    now rewrite Hf, He.
  - now rewrite (WrapFacts.wrapped_join opts method args fn t s fns H Hq).
  - now rewrite (WrapFacts.wrapped_inherited opts method args fn t s H Hq).
  - now rewrite (WrapFacts.wrapped_miss opts method args fn t s H Hq).
Qed.

(** With [peek] on, what a callback does leaves the store as it is. *)
Lemma invoke_peek react opts method fn err result t s :
  peek opts = true ->
  cache (invoke react opts method fn err result t s) = cache s.
Proof.
  intros Hp. unfold invoke.
  assert (Acts : forall acts s0,
             cache (foldl (perform opts method t) s0 acts) = cache s0).
  { induction acts as [|a acts IH]; intros s0; [reflexivity|].
    simpl. rewrite IH. destruct a as [args f | l p v]; simpl; [|reflexivity].
    now apply wrapped_peek. }
  now rewrite Acts.
Qed.

Lemma deliver_peek react opts method err result t fns : forall s,
  peek opts = true ->
  cache (foldl (fun s fn => invoke react opts method fn err result t s) s fns)
  = cache s.
Proof.
  induction fns as [|fn fns IH]; intros s Hp; [reflexivity|].
  simpl. rewrite IH by assumption. now apply invoke_peek.
Qed.

(** With the [peek] option on, as it is by default, only a completion
    of the underlying method changes the store, and it changes it by
    the one [cache.set] of the completion callback or not at all: calls,
    ticks, whatever the callbacks do, and writes leave its entries,
    their order and their ages as they are. *)
Theorem peek_leaves_the_store_alone react opts method :
  peek opts = true ->
  (forall es s,
     Forall (fun e => forall i err result t, e <> Complete i err result t) es ->
     cache (run react opts method s es) = cache s)
  /\ (forall s i u err result t fns,
        pending s i u ->
        inFlight s !! u_key u = Some (Waiting fns) ->
        cache (step react opts method s (Complete i err result t))
        = if stores opts err result
          then LRU.set (cache s) (u_key u) result t
          else cache s).
Proof.
  intros Hp. split.
  - intros es. induction es as [|e es IH]; intros s Hall; [reflexivity|].
    apply Forall_cons in Hall as [He Hall]. simpl. rewrite IH by assumption.
    destruct e as [args fn t | i err result t | t | l p v]; simpl.
    + now apply wrapped_peek.
    + now contradiction (He i err result t).
    + destruct (ticks s) as [|[fn cached] rest]; [reflexivity|].
      now rewrite invoke_peek.
    + reflexivity.
  - intros s i u err result t fns [Pu Cu] Hq. simpl step. rewrite Pu, Cu.
    unfold completion, stores, done. cbv zeta.
    destruct (truthy err) eqn:He; simpl negb; cbv iota.
    + simpl inFlight.
      rewrite (proj2 (WrapFacts.inFlight_get_array _ _ _) Hq). simpl.
      now rewrite deliver_peek.
    + rewrite andb_true_l.
      destruct (loose_neq_undefined result || tombstone opts); simpl inFlight;
        rewrite (proj2 (WrapFacts.inFlight_get_array _ _ _) Hq);
        simpl; now rewrite deliver_peek.
Qed.

End Sequences.

(** ** After a result that was not stored *)

Module Subsequent.
Import Key JS Wrap.

Section Wrapped.

Variable react : client.
Variable opts : options.
Variable method : string.













End Wrapped.


End Subsequent.

(** ** Where the wrapper falls short of its specification *)

Module Shortfalls.
Import Key JS Wrap.

(** A new store has no key. *)
Lemma new_store_has_nothing opts h key t : _has key t (init opts h) = false.
Proof. reflexivity. Qed.

(** With no tasks scheduled, the scheduler has nothing to run. *)
Lemma run_no_ticks react opts method s ts :
  ticks s = [] -> run react opts method s (map Tick ts) = s.
Proof.
  intros E. induction ts as [|t ts IH]; [reflexivity|].
  simpl. rewrite E. exact IH.
Qed.

(** A method called with its callback only is keyed by its name. *)
Lemma key_of_no_arguments method : _key method [] = method.
Proof. unfold _key, join. simpl. reflexivity. Qed.

(** The calls a wrapper of a method named like a member of
    [Object.prototype] receives with a callback only leave nothing
    behind but metrics. *)
Lemma inherited_calls react opts method h calls :
  method ∈ object_prototype ->
  Forall (fun c => c_args c = []) calls ->
  let s := run react opts method (init opts h) (map call_event calls) in
  cache s = cache (init opts h)
  /\ inFlight s = ∅ /\ upstream s = [] /\ delivered s = [] /\ ticks s = [].
Proof.
  intros Hin. induction calls as [|c calls IH] using rev_ind; intros Hall s.
  - repeat split; reflexivity.
  - apply Forall_app in Hall as [Hall Hc].
    apply Forall_inv in Hc.
    destruct (IH Hall) as (Hca & Hi & Hu & Hd & Ht).
    unfold s. rewrite map_app. unfold run. rewrite foldl_app.
    fold (run react opts method (init opts h) (map call_event calls)).
    set (s0 := run react opts method (init opts h) (map call_event calls)) in *.
    destruct c as [args fn t]. simpl in Hc. subst args. simpl.
    rewrite WrapFacts.wrapped_inherited.
    + simpl. auto.
    + rewrite key_of_no_arguments. unfold _has. rewrite Hca. reflexivity.
    + rewrite key_of_no_arguments. unfold inFlight_get. rewrite Hi.
      rewrite lookup_empty. now rewrite bool_decide_eq_true_2.
Qed.

(** C1, where it fails.  The registry is created as [{}], so that
    [inFlight[key]] finds a function for a key that names a member of
    [Object.prototype].  On a new wrapper of a method of such a name
    ([toString], [valueOf], [constructor], ...), of any number of calls
    made with a callback only, each throws at [inFlight[key].push]: the
    underlying method is invoked not once but never, no callback is
    queued, and none is ever invoked or scheduled. *)
Theorem inherited_name_is_never_invoked react opts method h calls :
  method ∈ object_prototype ->
  Forall (fun c => c_args c = []) calls ->
  let s := run react opts method (init opts h) (map call_event calls) in
  upstream s = []
  /\ delivered s = []
  /\ ticks s = []
  /\ inFlight s = ∅
  /\ forall before c after,
       calls = (before ++ c :: after)%list ->
       (wrapped opts method (c_args c) (c_fn c) (c_time c)
                (run react opts method (init opts h) (map call_event before))).2
       = Threw.
Proof.
  intros Hin Hall s.
  destruct (inherited_calls react opts method h calls Hin Hall)
    as (_ & Hi & Hu & Hd & Ht).
  fold s in Hi, Hu, Hd, Ht.
  split; [exact Hu|]. split; [exact Hd|]. split; [exact Ht|].
  split; [exact Hi|].
  intros before c after ->.
  apply Forall_app in Hall as [Hb Hc]. apply Forall_inv in Hc.
  destruct (inherited_calls react opts method h before Hin Hb)
    as (Hca & Hi' & _).
  rewrite Hc, WrapFacts.wrapped_inherited; [reflexivity| |].
  - rewrite key_of_no_arguments. unfold _has. rewrite Hca. reflexivity.
  - rewrite key_of_no_arguments. unfold inFlight_get. rewrite Hi'.
    rewrite lookup_empty. now rewrite bool_decide_eq_true_2.
Qed.

(** The first call on a new wrapper, its invocation completing with
    values the completion callback does not store, and the one queued
    callback calling the wrapped method again for the same key before it
    returns: the new call joins the queue [done] is delivering, and
    [done] then drops the queue. *)
Lemma call_from_the_callback
    react opts method h args fn0 fn1 err result t0 t1 ts :
  _key method args ∉ object_prototype ->
  stores opts err result = false ->
  react fn0 (handed err result).1 (handed err result).2 = [ACall args fn1] ->
  let key := _key method args in
  let s := run react opts method (init opts h)
               (Call args fn0 t0 :: Complete 0 err result t1 :: map Tick ts) in
  upstream s = [Invocation key args t0 true]
  /\ delivered s = [Delivery fn0 (handed err result).1 (handed err result).2]
  /\ ticks s = []
  /\ inFlight s = <[key := Cleared]> ∅
  /\ cache s = cache (init opts h).
Proof.
  intros Hnot Hst Hreact key s. unfold s, run. simpl foldl.
  fold (run react opts method).
  rewrite WrapFacts.wrapped_miss.
  2: apply new_store_has_nothing.
  2: { left. unfold inFlight_get. simpl. rewrite lookup_empty.
       now rewrite bool_decide_eq_false_2. }
  simpl. fold key.
  unfold completion, mark_completed. cbv zeta. simpl.
  unfold stores, handed in *.
  set (s1 := emit _ _).
  assert (Q1 : inFlight s1 !! key = Some (Waiting [fn0]))
    by (unfold s1; simpl; apply lookup_insert_eq).
  assert (I : forall e r,
            react fn0 e r = [ACall args fn1] ->
            let s2 := invoke react opts method fn0 e r t1 s1 in
            upstream s2 = [Invocation key args t0 true]
            /\ delivered s2 = [Delivery fn0 e r]
            /\ ticks s2 = []
            /\ inFlight s2 = <[key := Waiting [fn0; fn1]]> (inFlight s1)
            /\ cache s2 = cache (init opts h)).
  { intros e r Hr. unfold invoke. rewrite Hr. simpl foldl. unfold perform.
    rewrite (WrapFacts.wrapped_join opts method args fn1 t1 _ [fn0]);
      [now repeat split|reflexivity|].
    apply WrapFacts.inFlight_get_array. exact Q1. }
  assert (F : forall s2,
            upstream s2 = [Invocation key args t0 true] ->
            ticks s2 = [] ->
            inFlight s2 = <[key := Waiting [fn0; fn1]]> (inFlight s1) ->
            cache s2 = cache (init opts h) ->
            let s3 := run react opts method
                          (set_inFlight (<[key := Cleared]> (inFlight s2)) s2)
                          (map Tick ts) in
            upstream s3 = [Invocation key args t0 true]
            /\ delivered s3 = delivered s2
            /\ ticks s3 = []
            /\ inFlight s3 = <[key := Cleared]> ∅
            /\ cache s3 = cache (init opts h)).
  { intros s2 Hu Ht Hi Hc. cbv zeta.
    rewrite run_no_ticks by exact Ht. simpl.
    repeat split; try assumption.
    rewrite Hi. unfold s1. simpl. now rewrite !insert_insert_eq. }
  destruct (truthy err) eqn:Terr; simpl in Hreact.
  - unfold done. rewrite (proj2 (WrapFacts.inFlight_get_array _ _ _) Q1).
    rewrite Terr. simpl foldl.
    destruct (I _ _ Hreact) as (Hu & Hd & Ht & Hi & Hc).
    destruct (F _ Hu Ht Hi Hc) as (Hu3 & Hd3 & Ht3 & Hi3 & Hc3).
    rewrite Hd in Hd3. simpl fst. auto.
  - simpl in Hst. rewrite Hst.
    unfold done. rewrite (proj2 (WrapFacts.inFlight_get_array _ _ _) Q1).
    simpl truthy. cbv iota. simpl foldl.
    destruct (I _ _ Hreact) as (Hu & Hd & Ht & Hi & Hc).
    destruct (F _ Hu Ht Hi Hc) as (Hu3 & Hd3 & Ht3 & Hi3 & Hc3).
    rewrite Hd in Hd3. simpl fst. auto.
Qed.

(** C2, where it fails.  [done] clears the registry entry only after it
    has invoked the queued callbacks.  On a new wrapper, [m(args, cb0)]
    fails and [cb0], handed the error, calls [m(args, cb1)] again before
    it returns: the retry finds the failed call still in flight and
    joins its queue, which [done] then drops.  The next call for the key
    has not invoked the underlying method again, and its callback [cb1]
    is never invoked, whatever the scheduler runs afterwards. *)
Theorem retry_from_the_error_callback_is_dropped
    react opts method h args fn0 fn1 err result t0 t1 ts :
  _key method args ∉ object_prototype ->
  truthy err = true ->
  react fn0 err VUndefined = [ACall args fn1] ->
  let key := _key method args in
  let s := run react opts method (init opts h)
               (Call args fn0 t0 :: Complete 0 err result t1 :: map Tick ts) in
  upstream s = [Invocation key args t0 true]
  /\ delivered s = [Delivery fn0 err VUndefined]
  /\ ticks s = []
  /\ inFlight s !! key = Some Cleared.
Proof.
  intros Hnot Herr Hreact key s.
  destruct (call_from_the_callback react opts method h args fn0 fn1 err result
              t0 t1 ts Hnot) as (Hu & Hd & Ht & Hi & _).
  - unfold stores. now rewrite Herr.
  - unfold handed. now rewrite Herr.
  - fold key s in Hu, Hd, Ht, Hi. unfold handed in Hd. rewrite Herr in Hd.
    split; [exact Hu|]. split; [exact Hd|]. split; [exact Ht|].
    rewrite Hi. apply lookup_insert_eq.
Qed.

(** C10, where it fails.  With the tombstone option off, on a new
    wrapper, [m(args, cb0)] completes with [null] and [cb0], handed
    [null], calls [m(args, cb1)] before it returns: nothing is stored,
    and the next call for the key finds the completed call still in
    flight and joins its queue, which [done] then drops.  The underlying
    method is not invoked again, and [cb1] is never invoked, whatever
    the scheduler runs afterwards. *)
Theorem call_from_the_callback_after_null_is_dropped
    react opts method h args fn0 fn1 t0 t1 ts :
  _key method args ∉ object_prototype ->
  tombstone opts = false ->
  react fn0 VNull VNull = [ACall args fn1] ->
  let key := _key method args in
  let s := run react opts method (init opts h)
               (Call args fn0 t0 :: Complete 0 VNull VNull t1 :: map Tick ts) in
  LRU.entries (cache s) = []
  /\ upstream s = [Invocation key args t0 true]
  /\ delivered s = [Delivery fn0 VNull VNull]
  /\ ticks s = []
  /\ inFlight s !! key = Some Cleared.
Proof.
  intros Hnot Htomb Hreact key s.
  destruct (call_from_the_callback react opts method h args fn0 fn1 VNull VNull
              t0 t1 ts Hnot) as (Hu & Hd & Ht & Hi & Hc).
  - unfold stores. now rewrite Htomb.
  - exact Hreact.
  - fold key s in Hu, Hd, Ht, Hi, Hc.
    split; [now rewrite Hc|].
    split; [exact Hu|]. split; [exact Hd|]. split; [exact Ht|].
    rewrite Hi. apply lookup_insert_eq.
Qed.

End Shortfalls.

(** ** Invariants of the registry *)

Module Invariants.
Import Key JS Wrap.

#[local] Arguments clone : simpl never.
#[local] Arguments LRU.length : simpl never.
#[local] Arguments _key : simpl never.

Section Wrapped.

Variable react : client.
Variable opts : options.
Variable method : string.

(** *** Queues and outstanding invocations *)

Lemma owned_same d s s' :
  upstream s' = upstream s -> inFlight s' = inFlight s ->
  queues_are_owned d s -> queues_are_owned d s'.
Proof.
  intros Hu Hi O. unfold queues_are_owned, pending in *.
  rewrite Hu, Hi. exact O.
Qed.

Lemma wrapped_owned d args fn t s :
  queues_are_owned d s ->
  queues_are_owned d (wrapped opts method args fn t s).1.
Proof.
  intros O.
  destruct (WrapFacts.wrapped_registry opts method args fn t s)
    as [[Hu Hi] | [(fns & Hq & Hu & Hi) | (Hidle & Hu & Hi)]].
  - eapply owned_same; eauto.
  - intros key q Q. rewrite Hi in Q. unfold pending. rewrite Hu.
    destruct (decide (_key method args = key)) as [E | N].
    + rewrite E in *. rewrite lookup_insert_eq in Q. injection Q as <-.
      split; [now destruct fns|]. apply (O key fns Hq).
    + rewrite lookup_insert_ne in Q by assumption. apply (O key q Q).
  - intros key q Q. rewrite Hi in Q.
    destruct (decide (_key method args = key)) as [E | N].
    + rewrite E in *. rewrite lookup_insert_eq in Q. injection Q as <-.
      split; [discriminate|]. right.
      exists (List.length (upstream s)), (Invocation key args t false).
      split; [|reflexivity]. split; [|reflexivity].
      rewrite Hu, lookup_app_r by lia. now rewrite Nat.sub_diag.
    + rewrite lookup_insert_ne in Q by assumption.
      destruct (O key q Q) as [Hne [Hd | (i & u & [P C] & Hk)]];
        (split; [exact Hne|]); [now left|].
      right. exists i, u. split; [|exact Hk]. split; [|exact C].
      rewrite Hu. now apply lookup_app_l_Some.
Qed.

Lemma perform_owned d t s a :
  queues_are_owned d s -> queues_are_owned d (perform opts method t s a).
Proof.
  destruct a as [args fn | l p v]; simpl.
  - apply wrapped_owned.
  - now apply owned_same.
Qed.

Lemma invoke_owned d fn err result t s :
  queues_are_owned d s ->
  queues_are_owned d (invoke react opts method fn err result t s).
Proof.
  intros O. unfold invoke.
  assert (O' : queues_are_owned d
                 (set_delivered (delivered s ++ [Delivery fn err result])%list s))
    by now apply (owned_same d s).
  revert O'.
  generalize (set_delivered (delivered s ++ [Delivery fn err result])%list s).
  induction (react fn err result) as [|a acts IH]; intros s0 O0; simpl; auto.
  apply IH. now apply perform_owned.
Qed.

Lemma deliver_owned d err result t fns : forall s,
  queues_are_owned d s ->
  queues_are_owned d
    (foldl (fun s fn => invoke react opts method fn err result t s) s fns).
Proof.
  induction fns as [|fn fns IH]; intros s O; simpl; auto.
  apply IH. now apply invoke_owned.
Qed.

(** Once [done] has run, no queue is left without its invocation. *)
Lemma done_owned key err result t s :
  queues_are_owned (Some key) s ->
  queues_are_owned None (done react opts method key err result t s).1.
Proof.
  intros O. unfold done.
  destruct (inFlight_get (inFlight s) key) eqn:Hq.
  1,2,4: (intros k q Q; simpl in Q;
          destruct (O k q Q) as [Hne [[= ->] | P]];
          [apply WrapFacts.inFlight_get_array in Q; congruence
          |split; [exact Hne | now right]]).
  assert (C : forall s3, queues_are_owned (Some key) s3 ->
            queues_are_owned None
              (set_inFlight (<[key := Cleared]> (inFlight s3)) s3)).
  { intros s3 O3 k q Q. simpl in Q.
    destruct (decide (key = k)) as [-> | N].
    - rewrite lookup_insert_eq in Q. discriminate.
    - rewrite lookup_insert_ne in Q by assumption.
      destruct (O3 k q Q) as [Hne [[= E] | P]]; [contradiction|].
      split; [exact Hne | now right]. }
  destruct (truthy err); simpl; apply C; now apply deliver_owned.
Qed.

Lemma completion_owned key start err result t s :
  queues_are_owned (Some key) s ->
  queues_are_owned None
    (completion react opts method key start err result t s).1.
Proof.
  intros O. unfold completion. cbv zeta.
  destruct (truthy err).
  - apply done_owned. now apply (owned_same _ s).
  - apply done_owned. destruct (_ || _); now apply (owned_same _ s).
Qed.

Lemma mark_completed_owned i u s :
  pending s i u ->
  queues_are_owned None s ->
  queues_are_owned (Some (u_key u)) (mark_completed i s).
Proof.
  intros [Pu Cu] O k q Q. simpl in Q.
  destruct (O k q Q) as [Hne [[=] | (j & v & [P C] & Hk)]].
  split; [exact Hne|].
  destruct (decide (i = j)) as [<- | N].
  - left. congruence.
  - right. exists j, v. split; [|exact Hk]. split; [|exact C].
    simpl. now rewrite list_lookup_alter_ne.
Qed.

Lemma step_owned s e :
  queues_are_owned None s ->
  queues_are_owned None (step react opts method s e).
Proof.
  intros O. destruct e as [args fn t | i err result t | t | l p v]; simpl.
  - now apply wrapped_owned.
  - destruct (upstream s !! i) as [u|] eqn:Hu; [|assumption].
    destruct (u_completed u) eqn:Hc; [assumption|].
    apply completion_owned, mark_completed_owned; auto. now split.
  - destruct (ticks s) as [|[fn cached] rest]; [assumption|].
    apply invoke_owned. now apply (owned_same _ s).
  - now apply (owned_same _ s).
Qed.

Lemma reachable_owned s :
  reachable react opts method s -> queues_are_owned None s.
Proof.
  intros (h & es & ->).
  assert (O : queues_are_owned None (init opts h)).
  { intros k q Q. simpl in Q. now rewrite lookup_empty in Q. }
  revert O. generalize (init opts h).
  induction es as [|e es IH]; intros s O; simpl; auto.
  apply IH. now apply step_owned.
Qed.

End Wrapped.

(** In every state a wrapper can reach, the keys that have a queue in
    the registry are exactly the keys of the outstanding invocations,
    and no queue is empty: a callback waits in a queue only while an
    invocation of the underlying method is outstanding for its key. *)
Theorem registry_matches_outstanding react opts method s :
  reachable react opts method s ->
  (forall key,
     (exists fns, inFlight s !! key = Some (Waiting fns))
     <-> (exists i u, pending s i u /\ u_key u = key))
  /\ (forall key fns, inFlight s !! key = Some (Waiting fns) -> fns <> []).
Proof.
  intros R.
  pose proof (reachable_owned react opts method s R) as O.
  destruct (WrapFacts.reachable_one_in_flight react opts method s R) as [_ J].
  split.
  - intros key. split.
    + intros [fns Q]. destruct (O key fns Q) as [_ [[=] | P]]. exact P.
    + intros (i & u & P & <-). now apply (J i u).
  - intros key fns Q. now destruct (O key fns Q).
Qed.

End Invariants.

(** ** Invariants of the metrics *)

Module Tally.
Import Key JS Wrap.

#[local] Arguments clone : simpl never.
#[local] Arguments LRU.length : simpl never.
#[local] Arguments _key : simpl never.

Lemma count_app p a b : count p (a ++ b)%list = (count p a + count p b)%nat.
Proof. unfold count. now rewrite List.filter_app, length_app. Qed.

Lemma completed_app s more :
  List.length (List.filter u_completed (upstream s ++ more)%list)
  = (completed s + List.length (List.filter u_completed more))%nat.
Proof. unfold completed. now rewrite List.filter_app, length_app. Qed.

(** Completing an outstanding invocation adds one to the completed. *)
Lemma filter_completed_alter l : forall i u,
  l !! i = Some u -> u_completed u = false ->
  List.length
    (List.filter u_completed
       (alter (fun u => Invocation (u_key u) (u_args u) (u_start u) true) i l))
  = S (List.length (List.filter u_completed l)).
Proof.
  induction l as [|x l IH]; intros [|i] u Hl Hc; try discriminate.
  - injection Hl as ->. simpl. now rewrite Hc.
  - simpl in Hl. simpl. pose proof (IH i u Hl Hc) as E. unfold alter in E.
    destruct (u_completed x); simpl; now rewrite E.
Qed.

Section Wrapped.

Variable react : client.
Variable opts : options.
Variable method : string.

(** What one call adds to the metrics and to the invocations. *)
Lemma wrapped_counts args fn t s :
  let s' := (wrapped opts method args fn t s).1 in
  exists dh dm : nat,
    (dh + dm <= 1)%nat
    /\ count (is_incr "proxy-cache.hit") (stats s')
       = (count (is_incr "proxy-cache.hit") (stats s) + dh)%nat
    /\ count (is_incr "proxy-cache.miss") (stats s')
       = (count (is_incr "proxy-cache.miss") (stats s) + dm)%nat
    /\ count (is_incr "proxy-cache.calls") (stats s')
       = S (count (is_incr "proxy-cache.calls") (stats s))
    /\ count (is_gauge "proxy-cache.size") (stats s')
       = S (count (is_gauge "proxy-cache.size") (stats s))
    /\ count is_timer (stats s') = count is_timer (stats s)
    /\ List.length (upstream s') = (List.length (upstream s) + dm)%nat
    /\ completed s' = completed s.
Proof.
  intros s'. unfold s'.
  destruct (WrapFacts.wrapped_cases method args t s)
    as [H | [H [[fns Hq] | [Hq | Hq]]]].
  - destruct (WrapFacts.wrapped_hit opts method args fn t s H)
      as (cached & s1 & -> & _ & Hs & _ & _ & _ & _ & Hu & _).
    exists 1%nat, 0%nat. unfold completed, count. simpl.
    rewrite Hs, Hu, !List.filter_app, !length_app. simpl.
    repeat split; lia.
  - rewrite (WrapFacts.wrapped_join opts method args fn t s fns H Hq).
    exists 0%nat, 0%nat. unfold completed, count. simpl.
    rewrite !List.filter_app, !length_app. simpl. repeat split; lia.
  - rewrite (WrapFacts.wrapped_inherited opts method args fn t s H Hq).
    exists 0%nat, 0%nat. unfold completed, count. simpl.
    rewrite !List.filter_app, !length_app. simpl. repeat split; lia.
  - rewrite (WrapFacts.wrapped_miss opts method args fn t s H Hq).
    exists 0%nat, 1%nat. unfold completed, count. simpl.
    rewrite !List.filter_app, !length_app. simpl. repeat split; lia.
Qed.

Lemma tally_same s s' :
  stats s' = stats s -> upstream s' = upstream s -> tally s -> tally s'.
Proof.
  intros Hs Hu T. unfold tally, completed in *. now rewrite Hs, Hu.
Qed.

Lemma wrapped_tally args fn t s :
  tally s -> tally (wrapped opts method args fn t s).1.
Proof.
  intros (T1 & T2 & T3 & T4).
  destruct (wrapped_counts args fn t s)
    as (dh & dm & Hle & Hh & Hm & Hc & Hg & Ht & Hu & Hd).
  unfold tally. rewrite Hh, Hm, Hc, Hg, Ht, Hu, Hd. repeat split; lia.
Qed.

Lemma perform_tally t s a : tally s -> tally (perform opts method t s a).
Proof.
  destruct a as [args fn | l p v]; simpl.
  - apply wrapped_tally.
  - now apply tally_same.
Qed.

Lemma invoke_tally fn err result t s :
  tally s -> tally (invoke react opts method fn err result t s).
Proof.
  intros T. unfold invoke.
  assert (T' : tally (set_delivered (delivered s ++ [Delivery fn err result])%list s))
    by now apply (tally_same s).
  revert T'.
  generalize (set_delivered (delivered s ++ [Delivery fn err result])%list s).
  induction (react fn err result) as [|a acts IH]; intros s0 T0; simpl; auto.
  apply IH. now apply perform_tally.
Qed.

Lemma done_tally key err result t s :
  tally s -> tally (done react opts method key err result t s).1.
Proof.
  intros T. unfold done.
  destruct (inFlight_get (inFlight s) key); try exact T.
  assert (D : forall e r s0, tally s0 ->
            tally (foldl (fun s fn => invoke react opts method fn e r t s) s0 fns)).
  { intros e r. induction fns as [|fn q IH]; intros s0 T0; simpl; auto.
    apply IH. now apply invoke_tally. }
  destruct (truthy err); simpl;
    (eapply tally_same; [| |apply D; exact T]); reflexivity.
Qed.

(** The completion callback records the one timer of its invocation. *)
Lemma complete_tally i u err result t s :
  pending s i u ->
  tally s ->
  tally (completion react opts method (u_key u) (u_start u) err result t
                    (mark_completed i s)).1.
Proof.
  intros [Pu Cu] (T1 & T2 & T3 & T4). unfold completion. cbv zeta.
  set (s1 := emit _ (mark_completed i s)).
  assert (T : tally s1).
  { unfold tally, s1, completed. simpl. rewrite !count_app.
    rewrite (filter_completed_alter _ _ _ Pu Cu), length_alter.
    unfold count in *. simpl. unfold completed in T2. repeat split; lia. }
  destruct (truthy err).
  - now apply done_tally.
  - apply done_tally. destruct (_ || _); [|exact T].
    now apply (tally_same s1).
Qed.

Lemma step_tally s e : tally s -> tally (step react opts method s e).
Proof.
  intros T. destruct e as [args fn t | i err result t | t | l p v]; simpl.
  - now apply wrapped_tally.
  - destruct (upstream s !! i) as [u|] eqn:Hu; [|assumption].
    destruct (u_completed u) eqn:Hc; [assumption|].
    apply complete_tally; [now split | exact T].
  - destruct (ticks s) as [|[fn cached] rest]; [assumption|].
    apply invoke_tally. now apply (tally_same s).
  - now apply (tally_same s).
Qed.

End Wrapped.

(** In every state a wrapper can reach, the metrics received so far add
    up: [proxy-cache.miss] was incremented once per invocation of the
    underlying method, [proxy-cache.duration] was recorded once per
    completed invocation, [proxy-cache.size] was recorded once per
    [proxy-cache.calls], and hits and misses together are no more than
    the calls. *)
Theorem metrics_add_up react opts method s :
  reachable react opts method s ->
  count (is_incr "proxy-cache.miss") (stats s) = List.length (upstream s)
  /\ count is_timer (stats s) = completed s
  /\ count (is_incr "proxy-cache.calls") (stats s)
     = count (is_gauge "proxy-cache.size") (stats s)
  /\ (count (is_incr "proxy-cache.hit") (stats s)
      + count (is_incr "proxy-cache.miss") (stats s)
      <= count (is_incr "proxy-cache.calls") (stats s))%nat.
Proof.
  intros (h & es & ->).
  assert (T : tally (init opts h))
    by (unfold tally, completed, count; simpl; repeat split; lia).
  revert T. generalize (init opts h).
  induction es as [|e es IH]; intros s T; simpl; [exact T|].
  apply IH. now apply step_tally.
Qed.

End Tally.

(** ** The objects of the heap *)

Module HeapFacts.
Import Key JS Wrap.

#[local] Arguments clone : simpl never.
#[local] Arguments LRU.length : simpl never.
#[local] Arguments _key : simpl never.

(** [clone(v, true, 1)] leaves the objects there are as they are. *)
Lemma clone_keeps v (h : JS.heap) l o :
  h !! l = Some o -> (clone v true 1 h).2 !! l = Some o.
Proof.
  intros Hl. destruct v as [| | b | n | s | l0 | f];
    try (rewrite JSFacts.clone_not_object by discriminate; exact Hl).
  destruct (h !! l0) as [o0|] eqn:H0.
  - rewrite (JSFacts.clone_object l0 o0 h H0). simpl.
    rewrite lookup_insert_ne; [exact Hl|].
    intros E. rewrite <- E, JSFacts.fresh_not_allocated in Hl. discriminate.
  - rewrite (JSFacts.clone_dangling l0 h true 1 H0). exact Hl.
Qed.

Section Wrapped.

Variable react : client.
Variable opts : options.
Variable method : string.

Hypothesis writes_nothing : forall fn err result, no_write (react fn err result).

Lemma wrapped_keeps args fn t s l o :
  heap s !! l = Some o ->
  heap (wrapped opts method args fn t s).1 !! l = Some o.
Proof.
  intros Hl.
  destruct (WrapFacts.wrapped_cases method args t s)
    as [H | [H [[fns Hq] | [Hq | Hq]]]].
  - destruct (WrapFacts.wrapped_hit opts method args fn t s H)
      as (cached & s1 & -> & _ & _ & _ & _ & _ & _ & _ & _ & e & _ & Hc).
    simpl. apply (f_equal snd) in Hc. simpl in Hc. rewrite Hc.
    now apply clone_keeps.
  - now rewrite (WrapFacts.wrapped_join opts method args fn t s fns H Hq).
  - now rewrite (WrapFacts.wrapped_inherited opts method args fn t s H Hq).
  - now rewrite (WrapFacts.wrapped_miss opts method args fn t s H Hq).
Qed.

Lemma perform_all_keeps t acts l o : forall s,
  no_write acts ->
  heap s !! l = Some o ->
  heap (foldl (perform opts method t) s acts) !! l = Some o.
Proof.
  induction acts as [|a acts IH]; intros s Hn Hl; [exact Hl|].
  apply Forall_cons in Hn as [Ha Hn]. simpl. apply IH; [exact Hn|].
  destruct a as [args fn | l' p v]; [|contradiction].
  now apply wrapped_keeps.
Qed.

Lemma invoke_keeps fn err result t s l o :
  heap s !! l = Some o ->
  heap (invoke react opts method fn err result t s) !! l = Some o.
Proof.
  intros Hl. unfold invoke. apply perform_all_keeps; [apply writes_nothing|].
  exact Hl.
Qed.

Lemma deliver_keeps err result t fns l o : forall s,
  heap s !! l = Some o ->
  heap (foldl (fun s fn => invoke react opts method fn err result t s) s fns)
    !! l = Some o.
Proof.
  induction fns as [|fn fns IH]; intros s Hl; [exact Hl|].
  simpl. apply IH. now apply invoke_keeps.
Qed.

Lemma done_keeps key err result t s l o :
  heap s !! l = Some o ->
  heap (done react opts method key err result t s).1 !! l = Some o.
Proof.
  intros Hl. unfold done.
  destruct (inFlight_get (inFlight s) key); try exact Hl.
  destruct (truthy err); simpl; now apply deliver_keeps.
Qed.

Lemma completion_keeps key start err result t s l o :
  heap s !! l = Some o ->
  heap (completion react opts method key start err result t s).1 !! l = Some o.
Proof.
  intros Hl. unfold completion. cbv zeta.
  destruct (truthy err); [now apply done_keeps|].
  apply done_keeps. now destruct (_ || _).
Qed.

End Wrapped.

(** The wrapper itself never changes an object: as long as no client
    code writes, every object there is keeps its members through calls,
    completions and ticks, whatever was cached or served in between; a
    cache hit only allocates its copy. *)
Theorem wrapper_never_writes_to_an_object react opts method es : forall s l o,
  (forall fn err result, no_write (react fn err result)) ->
  Forall (fun e => forall l p v, e <> Write l p v) es ->
  heap s !! l = Some o ->
  heap (run react opts method s es) !! l = Some o.
Proof.
  induction es as [|e es IH]; intros s l o Hr Hall Hl; [exact Hl|].
  apply Forall_cons in Hall as [He Hall]. simpl. apply IH; try assumption.
  destruct e as [args fn t | i err result t | t | l' p v]; simpl.
  - now apply wrapped_keeps.
  - destruct (upstream s !! i) as [u|]; [|exact Hl].
    destruct (u_completed u); [exact Hl|].
    now apply completion_keeps.
  - destruct (ticks s) as [|[fn cached] rest]; [exact Hl|].
    now apply invoke_keeps.
  - now contradiction (He l' p v).
Qed.

End HeapFacts.

(** ** The [stale] option *)

Module StaleFacts.
Import Key JS Wrap.

#[local] Arguments clone : simpl never.
#[local] Arguments LRU.length : simpl never.
#[local] Arguments _key : simpl never.

Section Stale.

Variable react : client.
Variable opts : options.
Variable method : string.
Variable b : bool.

Local Abbreviation opts' := (set_stale b opts).

(** [_get] on a key the store [has] does not look at [stale]. *)
Lemma get_with_stale key t s :
  _has key t s = true ->
  _get opts' key t (with_stale b s)
  = ((_get opts key t s).1, with_stale b (_get opts key t s).2).
Proof.
  intros H. apply LRUFacts.has_true in H as (e & Hf & He).
  unfold _get. change (peek opts') with (peek opts).
  destruct (peek opts); unfold LRU.peek, LRU.get, LRU.lookup_entry;
    change (LRU.find (cache (with_stale b s)) key) with (LRU.find (cache s) key);
    rewrite Hf;
    change (LRU.expired (cache (with_stale b s)) e t)
      with (LRU.expired (cache s) e t);
    rewrite He; reflexivity.
Qed.

Lemma wrapped_with_stale args fn t s :
  wrapped opts' method args fn t (with_stale b s)
  = (with_stale b (wrapped opts method args fn t s).1,
     (wrapped opts method args fn t s).2).
Proof.
  unfold wrapped. cbv zeta.
  set (key := _key method args).
  set (s2 := emit _ (emit _ s)).
  match goal with
  | |- (if _has key t ?x then _ else _) = _ =>
      change x with (with_stale b s2)
  end.
  change (_has key t (with_stale b s2)) with (_has key t s2).
  destruct (_has key t s2) eqn:H.
  - match goal with
    | |- context [_get opts' key t ?x] =>
        change x with (with_stale b (emit (Incr "proxy-cache.hit" 1 (tags method)) s2))
    end.
    rewrite get_with_stale by exact H. reflexivity.
  - change (inFlight (with_stale b s2)) with (inFlight s2).
    destruct (inFlight_get (inFlight s2) key); reflexivity.
Qed.

Lemma perform_with_stale t s a :
  perform opts' method t (with_stale b s) a
  = with_stale b (perform opts method t s a).
Proof.
  destruct a as [args fn | l p v]; simpl; [|reflexivity].
  now rewrite wrapped_with_stale.
Qed.

Lemma perform_all_with_stale t acts : forall s,
  foldl (perform opts' method t) (with_stale b s) acts
  = with_stale b (foldl (perform opts method t) s acts).
Proof.
  induction acts as [|a acts IH]; intros s; simpl; [reflexivity|].
  now rewrite perform_with_stale, IH.
Qed.

Lemma invoke_with_stale fn err result t s :
  invoke react opts' method fn err result t (with_stale b s)
  = with_stale b (invoke react opts method fn err result t s).
Proof. unfold invoke. now rewrite <- perform_all_with_stale. Qed.

Lemma deliver_with_stale err result t fns : forall s,
  foldl (fun s fn => invoke react opts' method fn err result t s)
        (with_stale b s) fns
  = with_stale b
      (foldl (fun s fn => invoke react opts method fn err result t s) s fns).
Proof.
  induction fns as [|fn fns IH]; intros s; simpl; [reflexivity|].
  now rewrite invoke_with_stale, IH.
Qed.

Lemma done_with_stale key err result t s :
  done react opts' method key err result t (with_stale b s)
  = (with_stale b (done react opts method key err result t s).1,
     (done react opts method key err result t s).2).
Proof.
  unfold done. change (inFlight (with_stale b s)) with (inFlight s).
  destruct (inFlight_get (inFlight s) key); try reflexivity.
  destruct (truthy err); rewrite deliver_with_stale; reflexivity.
Qed.

Lemma completion_with_stale key start err result t s :
  completion react opts' method key start err result t (with_stale b s)
  = (with_stale b (completion react opts method key start err result t s).1,
     (completion react opts method key start err result t s).2).
Proof.
  unfold completion. cbv zeta.
  change (tombstone opts') with (tombstone opts).
  destruct (truthy err).
  - apply (done_with_stale key err VUndefined t (emit _ s)).
  - destruct (loose_neq_undefined result || tombstone opts).
    + apply (done_with_stale key VNull result t
               (set_cache (LRU.set (cache (emit _ s)) key result t) (emit _ s))).
    + apply (done_with_stale key VNull result t (emit _ s)).
Qed.

Lemma step_with_stale s e :
  step react opts' method (with_stale b s) e
  = with_stale b (step react opts method s e).
Proof.
  destruct e as [args fn t | i err result t | t | l p v]; simpl.
  - now rewrite wrapped_with_stale.
  - destruct (upstream s !! i) as [u|]; [|reflexivity].
    destruct (u_completed u); [reflexivity|].
    change (mark_completed i (with_stale b s))
      with (with_stale b (mark_completed i s)).
    now rewrite completion_with_stale.
  - destruct (ticks s) as [|[fn cached] rest]; [reflexivity|].
    apply (invoke_with_stale fn VNull cached t (set_ticks rest s)).
  - reflexivity.
Qed.

Lemma run_with_stale es : forall s,
  run react opts' method (with_stale b s) es
  = with_stale b (run react opts method s es).
Proof.
  induction es as [|e es IH]; intros s; simpl; [reflexivity|].
  now rewrite step_with_stale, IH.
Qed.

End Stale.

(** The [stale] option makes no difference: [_has] is asked before
    [_get], so [_get] never reads an expired entry.  Two wrappers that
    differ in [stale] only, taken through the same moves, make the same
    invocations, invoke the same callbacks, schedule the same tasks,
    record the same metrics and hold the same entries. *)
Theorem stale_is_never_read react opts method b h es :
  let s := run react opts method (init opts h) es in
  let s' := run react (set_stale b opts) method (init (set_stale b opts) h) es in
  s' = with_stale b s
  /\ upstream s' = upstream s
  /\ delivered s' = delivered s
  /\ ticks s' = ticks s
  /\ stats s' = stats s
  /\ inFlight s' = inFlight s
  /\ heap s' = heap s
  /\ LRU.entries (cache s') = LRU.entries (cache s).
Proof.
  intros s s'.
  assert (E : s' = with_stale b s).
  { unfold s', s. rewrite <- run_with_stale. reflexivity. }
  rewrite E. repeat split; reflexivity.
Qed.

End StaleFacts.

(** ** Callbacks that throw *)

Module UnwindFacts.
Import Key JS Wrap.

#[local] Arguments clone : simpl never.
#[local] Arguments LRU.length : simpl never.
#[local] Arguments _key : simpl never.

Section Wrapped.

Variable react : client.
Variable throws : callback -> value -> value -> bool.
Variable opts : options.
Variable method : string.

Local Abbreviation deliver e r t :=
  (foldl (fun s fn => Wrap.invoke react opts method fn e r t s)).

(** [forEach] over callbacks that return is the whole delivery. *)
Lemma forEach_returns e r t fns : forall s,
  Forall (fun f => throws f e r = false) fns ->
  Unwind.forEach (fun f => Unwind.invoke react throws opts method f e r t) fns s
  = (deliver e r t s fns, Returned).
Proof.
  induction fns as [|f fns IH]; intros s Hall; [reflexivity|].
  apply Forall_cons in Hall as [Hf Hall]. simpl.
  rewrite Hf. now apply IH.
Qed.

(** [forEach] ends at the first callback that throws. *)
Lemma forEach_throws e r t before fn after s :
  Forall (fun f => throws f e r = false) before ->
  throws fn e r = true ->
  Unwind.forEach (fun f => Unwind.invoke react throws opts method f e r t)
                 (before ++ fn :: after)%list s
  = (deliver e r t s (before ++ [fn])%list, Threw).
Proof.
  revert s. induction before as [|f before IH]; intros s Hall Hfn.
  - simpl. rewrite Hfn. unfold Unwind.invoke. now rewrite Hfn.
  - apply Forall_cons in Hall as [Hf Hall]. simpl.
    rewrite Hf. now apply IH.
Qed.

(** However [forEach] ends, it has delivered to a part of the queue. *)
Lemma forEach_delivers e r t fns : forall s,
  exists part,
    (Unwind.forEach (fun f => Unwind.invoke react throws opts method f e r t)
                    fns s).1
    = deliver e r t s part.
Proof.
  induction fns as [|f fns IH]; intros s; [now exists []|].
  simpl. destruct (throws f e r).
  - now exists [f].
  - destruct (IH (Wrap.invoke react opts method f e r t s)) as [part E].
    exists (f :: part). exact E.
Qed.

(** While a key is stranded, whatever runs leaves it stranded. *)
Lemma done_draining key key' err result t s :
  key <> key' ->
  draining key s -> draining key' s ->
  draining key (Unwind.done react throws opts method key' err result t s).1.
Proof.
  intros N D D'. unfold Unwind.done.
  destruct (inFlight_get (inFlight s) key'); try exact D.
  assert (C : forall e r,
            let res := Unwind.forEach
                         (fun f => Unwind.invoke react throws opts method f e r t)
                         fns s in
            draining key
              (match res.2 with
               | Returned =>
                   (set_inFlight (<[key' := Cleared]> (inFlight res.1)) res.1,
                    Returned)
               | Threw => res
               end).1).
  { intros e r res. destruct (forEach_delivers e r t fns s) as [part E].
    fold res in E.
    assert (Dk : draining key res.1)
      by (rewrite E; now apply WrapFacts.deliver_draining).
    assert (Dk' : draining key' res.1)
      by (rewrite E; now apply WrapFacts.deliver_draining).
    destruct res.2; [|exact Dk]. simpl.
    destruct Dk as (_ & P & [q Q]). split; [|split].
    - now apply WrapFacts.draining_cleared.
    - exact P.
    - simpl. rewrite lookup_insert_ne by congruence. eauto. }
  destruct (truthy err); apply C.
Qed.

Lemma step_draining key s e :
  draining key s ->
  draining key (Unwind.step react throws opts method s e).1.
Proof.
  intros D. destruct e as [args fn t | i err result t | t | l p v]; simpl.
  - now apply WrapFacts.wrapped_draining.
  - destruct (upstream s !! i) as [u|] eqn:Hu; [|exact D].
    destruct (u_completed u) eqn:Hc; [exact D|].
    assert (P : pending s i u) by now split.
    destruct D as (J & Np & [q Q]).
    assert (N : key <> u_key u) by (intros E; now apply (Np i u P)).
    pose proof (WrapFacts.mark_completed_draining i u s J P) as D'.
    assert (Dk : draining key (mark_completed i s)).
    { split; [apply D'|]. split; [|now exists q].
      intros j v [Pj Cj]. simpl in Pj.
      destruct (decide (i = j)) as [<- | Nij].
      - rewrite list_lookup_alter_eq, Hu in Pj. simpl in Pj.
        injection Pj as <-. discriminate.
      - rewrite list_lookup_alter_ne in Pj by assumption.
        apply (Np j v). now split. }
    unfold Unwind.completion. cbv zeta.
    destruct (truthy err).
    + apply done_draining; [exact N| |];
        now apply (WrapFacts.draining_same _ (mark_completed i s)).
    + apply done_draining; [exact N| |];
        (destruct (_ || _);
         now apply (WrapFacts.draining_same _ (mark_completed i s))).
  - destruct (ticks s) as [|[fn cached] rest]; [exact D|].
    apply WrapFacts.invoke_draining.
    now apply (WrapFacts.draining_same _ s).
  - now apply (WrapFacts.draining_same _ s).
Qed.

Lemma run_draining key es : forall s,
  draining key s ->
  draining key (Unwind.run react throws opts method s es).
Proof.
  induction es as [|e es IH]; intros s D; simpl; [exact D|].
  apply IH. now apply step_draining.
Qed.

End Wrapped.

(** With callbacks that never throw, every move is the move of
    [Wrap.step]. *)
Lemma step_never react opts method s e :
  (Unwind.step react Unwind.never opts method s e).1
  = step react opts method s e.
Proof.
  destruct e as [args fn t | i err result t | t | l p v]; simpl;
    try reflexivity.
  - destruct (upstream s !! i) as [u|]; [|reflexivity].
    destruct (u_completed u); [reflexivity|].
    unfold Unwind.completion, completion, Unwind.done, done. cbv zeta.
    assert (F : forall e r fns s0,
              Unwind.forEach
                (fun f => Unwind.invoke react Unwind.never opts method f e r t)
                fns s0
              = (foldl (fun s fn => invoke react opts method fn e r t s) s0 fns,
                 Returned)).
    { intros e r fns s0. apply forEach_returns.
      apply Forall_forall. reflexivity. }
    destruct (truthy err) eqn:He.
    + destruct (inFlight_get _ _); try reflexivity.
      rewrite F. reflexivity.
    + destruct (_ || _); (destruct (inFlight_get _ _); try reflexivity);
        simpl truthy; cbv iota; rewrite F; reflexivity.
  - destruct (ticks s) as [|[fn cached] rest]; reflexivity.
Qed.

(** When a queued callback throws, [done] is left before it clears the
    registry entry: the completion callback ends with the exception,
    the callbacks queued behind the one that threw are not invoked, and
    the store has been written as usual.  From then on, whatever moves
    follow, the key keeps its queue and has no invocation outstanding:
    a call for it that misses the cache only joins that queue, without
    invoking the underlying method, a callback or the scheduler. *)
Theorem throwing_callback_strands_the_key
    react throws opts method s i u err result t before fn after :
  one_in_flight s ->
  pending s i u ->
  inFlight s !! u_key u = Some (Waiting (before ++ fn :: after)%list) ->
  let key := u_key u in
  let e := (handed err result).1 in
  let r := (handed err result).2 in
  Forall (fun f => throws f e r = false) before ->
  throws fn e r = true ->
  let s' := Unwind.step react throws opts method s (Complete i err result t) in
  s'.2 = Threw
  /\ delivered s'.1
     = (delivered s ++ map (fun f => Delivery f e r) (before ++ [fn]))%list
  /\ (forall k,
        LRU.find (cache s'.1) k
        = LRU.find (if stores opts err result
                    then LRU.set (cache s) key result t else cache s) k)
  /\ forall es,
       let s2 := Unwind.run react throws opts method s'.1 es in
       stranded key s2
       /\ forall args fn2 t2,
            _key method args = key ->
            _has key t2 s2 = false ->
            let s3 := (wrapped opts method args fn2 t2 s2).1 in
            upstream s3 = upstream s2
            /\ delivered s3 = delivered s2
            /\ ticks s3 = ticks s2
            /\ exists q,
                inFlight s2 !! key = Some (Waiting q)
                /\ inFlight s3 !! key = Some (Waiting (q ++ [fn2])%list).
Proof.
  intros J P Hq key e r Hbefore Hfn s'.
  pose proof (WrapFacts.mark_completed_draining i u s J P) as D0.
  destruct P as [Pu Cu].
  assert (Hs' : exists s0,
            upstream s0 = upstream (mark_completed i s)
            /\ inFlight s0 = inFlight s
            /\ delivered s0 = delivered s
            /\ (forall k,
                  LRU.find (cache s0) k
                  = LRU.find (if stores opts err result
                              then LRU.set (cache s) key result t
                              else cache s) k)
            /\ s' = (foldl (fun s f => invoke react opts method f e r t s) s0
                           (before ++ [fn])%list, Threw)).
  { unfold s'. simpl Unwind.step. rewrite Pu, Cu.
    unfold Unwind.completion, stores, e, r, handed. cbv zeta.
    destruct (truthy err) eqn:He.
    - eexists. split; [|split; [|split; [|split]]]; cycle 4.
      + unfold Unwind.done. simpl inFlight.
        rewrite (proj2 (WrapFacts.inFlight_get_array _ _ _) Hq), He.
        rewrite (forEach_throws react throws opts method err VUndefined t
                   before fn after).
        * reflexivity.
        * unfold e, r, handed in Hbefore. now rewrite He in Hbefore.
        * unfold e, r, handed in Hfn. now rewrite He in Hfn.
      + reflexivity.
      + reflexivity.
      + reflexivity.
      + reflexivity.
    - eexists. split; [|split; [|split; [|split]]]; cycle 4.
      + match goal with
        | |- context [Unwind.done _ _ _ _ _ _ _ _ ?s0] => set (sx := s0)
        end.
        assert (Hix : inFlight sx = inFlight s)
          by (unfold sx; now destruct (_ || _)).
        unfold Unwind.done.
        rewrite Hix, (proj2 (WrapFacts.inFlight_get_array _ _ _) Hq).
        simpl truthy. cbv iota.
        rewrite (forEach_throws react throws opts method VNull result t
                   before fn after).
        * reflexivity.
        * unfold e, r, handed in Hbefore. now rewrite He in Hbefore.
        * unfold e, r, handed in Hfn. now rewrite He in Hfn.
      + destruct (_ || _); reflexivity.
      + destruct (_ || _); reflexivity.
      + destruct (_ || _); reflexivity.
      + intros k. simpl. destruct (_ || _); reflexivity. }
  destruct Hs' as (s0 & Hu0 & Hi0 & Hd0 & Hf0 & ->). simpl.
  assert (D : draining key s0).
  { eapply WrapFacts.draining_same; [exact Hu0 | | exact D0]. exact Hi0. }
  destruct (WrapFacts.deliver_all react opts method e r t (before ++ [fn])%list s0)
    as [Hd F]. cbv zeta in Hd, F.
  split; [reflexivity|]. split; [now rewrite Hd, Hd0|]. split.
  { intros k. rewrite (frame_find _ _ F). simpl. apply Hf0. }
  intros es. set (s2 := Unwind.run react throws opts method _ es).
  assert (D2 : draining key s2).
  { apply run_draining. now apply WrapFacts.deliver_draining. }
  destruct D2 as (_ & Np & [q Q]).
  split; [split; [now exists q | exact Np]|].
  intros args fn2 t2 Hk Hhas.
  rewrite (WrapFacts.wrapped_join opts method args fn2 t2 s2 q).
  - simpl. rewrite Hk. repeat split; try reflexivity.
    exists q. split; [exact Q|]. apply lookup_insert_eq.
  - now rewrite Hk.
  - apply WrapFacts.inFlight_get_array. now rewrite Hk.
Qed.

End UnwindFacts.


(** ** The constructor *)

Module BuildFacts.

Import JS Build.

Section Builder.

Variable shape_of : loc -> shape.
Variable out : outside.

Local Abbreviation proxy_step := (proxy_step shape_of out).
Local Abbreviation wrap_step := (wrap_step shape_of out).
Local Abbreviation _proxy := (_proxy shape_of).
Local Abbreviation prop := (prop shape_of).

(** One step on a wrapper that only the constructor's own functions
    made. *)
Lemma proxy_step_constructed instance this0 k :
  proxy_step instance (Constructed this0) k
  = match this0 !! "_proxy" with
    | None =>
        match _proxy instance k with
        | Some m => Constructed (<[k := m]> this0)
        | None => Thrown "Cannot read a property of null."
        end
    | Some m =>
        if callable m then
          match call_member shape_of out this0 false instance m
                            [instance; VStr k] with
          | Some v => Escaped "_proxy" (<[k := MValue v]> this0) false
          | None => Thrown "The function called as this._proxy threw."
          end
        else Thrown "this._proxy is not a function."
    end.
Proof. unfold Build.proxy_step. simpl. repeat case_match; reflexivity. Qed.

Lemma wrap_step_constructed instance this0 k :
  wrap_step instance (Constructed this0) k
  = match this0 !! "_wrap" with
    | None =>
        match _wrap shape_of this0 instance k with
        | inl m => Constructed (<[k := m]> this0)
        | inr message => Thrown message
        end
    | Some m =>
        if callable m then
          match call_member shape_of out this0 false instance m
                            [instance; VStr k] with
          | Some v =>
              Escaped "_wrap" (<[k := MValue v]> this0)
                      (match m with MWrapped _ _ => true | _ => false end)
          | None => Thrown "The function called as this._wrap threw."
          end
        else Thrown "this._wrap is not a function."
    end.
Proof. unfold Build.wrap_step. simpl. repeat case_match; reflexivity. Qed.

(** A construction that has failed, or has called a member of the
    wrapper in place of [_proxy] or [_wrap], is never again one that
    only the constructor's own functions made. *)
Lemma proxy_step_stuck instance acc k :
  (forall this, acc <> Constructed this) ->
  forall this, proxy_step instance acc k <> Constructed this.
Proof.
  intros N this. destruct acc as [this0 | m | n this0 busy];
    [now contradiction (N this0)|discriminate|].
  unfold Build.proxy_step. simpl. repeat case_match; discriminate.
Qed.

Lemma wrap_step_stuck instance acc k :
  (forall this, acc <> Constructed this) ->
  forall this, wrap_step instance acc k <> Constructed this.
Proof.
  intros N this. destruct acc as [this0 | m | n this0 busy];
    [now contradiction (N this0)|discriminate|].
  unfold Build.wrap_step. simpl. repeat case_match; discriminate.
Qed.

Lemma proxy_steps_stuck instance keys : forall acc,
  (forall this, acc <> Constructed this) ->
  forall this, foldl (proxy_step instance) acc keys <> Constructed this.
Proof.
  induction keys as [|k keys IH]; intros acc N this; [apply N|].
  simpl. apply IH. now apply proxy_step_stuck.
Qed.

Lemma wrap_steps_stuck instance names : forall acc,
  (forall this, acc <> Constructed this) ->
  forall this, foldl (wrap_step instance) acc names <> Constructed this.
Proof.
  induction names as [|k names IH]; intros acc N this; [apply N|].
  simpl. apply IH. now apply wrap_step_stuck.
Qed.



(** A step that returns has assigned to the one name it was given. *)
Lemma proxy_step_returned instance acc k this :
  returned (proxy_step instance acc k) = Some this ->
  exists this0 m, returned acc = Some this0 /\ this = <[k := m]> this0.
Proof.
  unfold Build.proxy_step.
  destruct acc as [this0 | msg | n this0 busy]; simpl;
    [| discriminate |];
    repeat case_match; simpl; intros E; try discriminate;
    injection E as <-; eauto.
Qed.


Lemma wrap_step_assigned instance acc k this :
  returned (wrap_step instance acc k) = Some this ->
  exists this0 m, returned acc = Some this0 /\ this = <[k := m]> this0.
Proof.
  unfold Build.wrap_step.
  destruct acc as [this0 | msg | n this0 busy]; simpl;
    [| discriminate |];
    repeat case_match; simpl; intros E; try discriminate;
    injection E as <-; eauto.
Qed.

(** The first loop leaves a name it does not visit as it was. *)
Lemma proxy_steps_keep instance p keys : forall acc this,
  ~ In p keys ->
  returned (foldl (proxy_step instance) acc keys) = Some this ->
  exists this0, returned acc = Some this0 /\ this !! p = this0 !! p.
Proof.
  induction keys as [|k keys IH]; intros acc this N H; simpl in H.
  - eauto.
  - destruct (IH _ _ (fun Hi => N (or_intror Hi)) H) as (this1 & H1 & E).
    destruct (proxy_step_returned _ _ _ _ H1) as (this0 & m & H0 & ->).
    exists this0. split; [exact H0|].
    rewrite E. apply lookup_insert_ne. intros ->. apply N. now left.
Qed.

(** And so does the second loop. *)
Lemma wrap_steps_keep instance p names : forall acc this,
  ~ In p names ->
  returned (foldl (wrap_step instance) acc names) = Some this ->
  exists this0, returned acc = Some this0 /\ this !! p = this0 !! p.
Proof.
  induction names as [|k names IH]; intros acc this N H; simpl in H.
  - eauto.
  - destruct (IH _ _ (fun Hi => N (or_intror Hi)) H) as (this1 & H1 & E).
    destruct (wrap_step_assigned _ _ _ _ H1) as (this0 & m & H0 & ->).
    exists this0. split; [exact H0|].
    rewrite E. apply lookup_insert_ne. intros ->. apply N. now left.
Qed.




(** A [for-in] loop that ends normally has assigned [_proxy(instance, p)]
    to [this[p]] for every name it visited, and nothing else. *)
Lemma proxy_steps instance keys : forall this0 this,
  foldl (proxy_step instance) (Constructed this0) keys = Constructed this ->
  (forall p, In p keys -> exists m,
      _proxy instance p = Some m /\ this !! p = Some m)
  /\ (forall p, ~ In p keys -> this !! p = this0 !! p).
Proof.
  induction keys as [|k keys IH]; intros this0 this H; simpl in H.
  - injection H as <-. split; [intros p []|reflexivity].
  - rewrite proxy_step_constructed in H.
    destruct (this0 !! "_proxy") as [m0|] eqn:Hp.
    + exfalso. revert H. apply proxy_steps_stuck. intros t.
      repeat case_match; discriminate.
    + destruct (_proxy instance k) as [m|] eqn:Hk.
      * destruct (IH _ _ H) as [Hin Hout]. split.
        -- intros p [<- | Hp'].
           ++ destruct (in_dec string_dec k keys) as [Hi | Hi].
              ** now apply Hin.
              ** exists m. split; [assumption|].
                 rewrite Hout by assumption. apply lookup_insert_eq.
           ++ now apply Hin.
        -- intros p Hp'. rewrite Hout by (intros Hi; apply Hp'; now right).
           apply lookup_insert_ne. intros ->. apply Hp'. now left.
      * now apply proxy_steps_stuck in H.
Qed.

(** A loop over [methods] that ends normally has assigned the caching
    wrapper of [m] to [this[m]] for every name [m] of the array, and
    nothing else. *)
Lemma wrap_steps instance names : forall this0 this,
  foldl (wrap_step instance) (Constructed this0) names = Constructed this ->
  (forall m, In m names -> exists v tomb,
      prop instance m = Some v /\ typeof v = "function"
      /\ this !! m = Some (MWrapped m tomb))
  /\ (forall p, ~ In p names -> this !! p = this0 !! p).
Proof.
  induction names as [|k names IH]; intros this0 this H; simpl in H.
  - injection H as <-. split; [intros p []|reflexivity].
  - rewrite wrap_step_constructed in H.
    destruct (this0 !! "_wrap") as [m0|] eqn:Hp.
    + exfalso. revert H. apply wrap_steps_stuck. intros t.
      repeat case_match; discriminate.
    + unfold Build._wrap in H.
      destruct (prop instance k) as [v|] eqn:Hk;
        [|now apply wrap_steps_stuck in H].
      destruct (String.eqb (typeof v) "function") eqn:Hty; simpl in H;
        [|now apply wrap_steps_stuck in H].
      destruct (read_tombstone shape_of this0) as [tomb|];
        [|now apply wrap_steps_stuck in H].
      apply String.eqb_eq in Hty.
      destruct (IH _ _ H) as [Hin Hout]. split.
      * intros p [<- | Hp'].
        -- destruct (in_dec string_dec k names) as [Hi | Hi].
           ++ now apply Hin.
           ++ exists v, tomb. repeat split; try assumption.
              rewrite Hout by assumption. apply lookup_insert_eq.
        -- now apply Hin.
      * intros p Hp'. rewrite Hout by (intros Hi; apply Hp'; now right).
        apply lookup_insert_ne. intros ->. apply Hp'. now left.
Qed.

(** A construction that returns a wrapper has been through both loops. *)
Lemma constructed_split instance names options this :
  ProxyCache shape_of out instance (MethodsArray names) options = Constructed this ->
  exists this0 this1,
    this0 !! "options" = Some (MOptions (defaults options))
    /\ foldl (proxy_step instance) (Constructed this0)
             (for_in shape_of instance) = Constructed this1
    /\ foldl (wrap_step instance) (Constructed this1) names
       = Constructed this.
Proof.
  unfold ProxyCache. intros H.
  destruct (negb (String.eqb (typeof instance) "object")); [discriminate|].
  cbv zeta in H.
  match type of H with
  | foldl _ (foldl _ (Constructed ?t0) _) _ = _ => set (this0 := t0) in H
  end.
  destruct (foldl (proxy_step instance) (Constructed this0)
                  (for_in shape_of instance)) as [this1 | m | n] eqn:H1;
    [|now apply wrap_steps_stuck in H
     |now apply wrap_steps_stuck in H].
  exists this0, this1. repeat split; auto.
Qed.



(** The names of [methods] all get the tombstone setting that
    [this.options] held before the loop, unless [methods] names
    [options] itself. *)
Lemma wrap_steps_tombstone instance names : forall this0 this,
  ~ In "options" names ->
  foldl (wrap_step instance) (Constructed this0) names = Constructed this ->
  forall m, In m names ->
    exists tomb, read_tombstone shape_of this0 = Some tomb
                 /\ this !! m = Some (MWrapped m tomb).
Proof.
  induction names as [|k names IH]; intros this0 this No H; simpl in H.
  - intros m [].
  - rewrite wrap_step_constructed in H.
    destruct (this0 !! "_wrap") as [m0|] eqn:Hp.
    + exfalso. revert H. apply wrap_steps_stuck. intros t.
      repeat case_match; discriminate.
    + unfold Build._wrap in H.
      destruct (prop instance k) as [v|] eqn:Hk;
        [|now apply wrap_steps_stuck in H].
      destruct (String.eqb (typeof v) "function") eqn:Hty; simpl in H;
        [|now apply wrap_steps_stuck in H].
      destruct (read_tombstone shape_of this0) as [tomb|] eqn:Ht;
        [|now apply wrap_steps_stuck in H].
      assert (Nk : k <> "options") by (intros ->; apply No; now left).
      assert (No' : ~ In "options" names) by (intros Hi; apply No; now right).
      assert (Ht' : read_tombstone shape_of (<[k := MWrapped k tomb]> this0)
                    = Some tomb).
      { unfold read_tombstone in *.
        now rewrite lookup_insert_ne by assumption. }
      intros m [<- | Hm].
      * destruct (in_dec string_dec k names) as [Hi | Hi].
        -- destruct (IH _ _ No' H k Hi) as (tomb' & Ht2 & Hthis).
           exists tomb'. split; [congruence|assumption].
        -- exists tomb. split; [reflexivity|].
           destruct (wrap_steps _ _ _ _ H) as [_ Hout].
           rewrite Hout by assumption. apply lookup_insert_eq.
      * destruct (IH _ _ No' H m Hm) as (tomb' & Ht2 & Hthis).
        exists tomb'. split; [congruence|assumption].
Qed.

(** An enumerable member [options] of the instance replaces the options
    the constructor was given: every wrapped method then takes its
    tombstone setting from that member, whatever [options] said. *)
Theorem instance_options_replace_the_configuration
    instance names options this :
  In "options" (for_in shape_of instance) ->
  ~ In "options" names ->
  ProxyCache shape_of out instance (MethodsArray names) options = Constructed this ->
  forall m, In m names ->
    this !! m = Some (MWrapped m (instance_tombstone shape_of instance)).
Proof.
  intros Hopt No H.
  destruct (constructed_split _ _ _ _ H) as (this0 & this1 & _ & H1 & H2).
  clear H. rename H2 into H.
  destruct (proxy_steps _ _ _ _ H1) as [Hin1 _].
  destruct (Hin1 _ Hopt) as (mo & Hmo & Hthis1).
  intros m Hm.
  destruct (wrap_steps_tombstone _ _ _ _ No H m Hm) as (tomb & Ht & Hthis).
  rewrite Hthis. do 2 f_equal.
  unfold read_tombstone in Ht. rewrite Hthis1 in Ht.
  unfold instance_tombstone. unfold Build._proxy in Hmo.
  destruct (prop instance "options") as [v|]; [|discriminate].
  destruct (String.eqb (typeof v) "function") eqn:Hty; simpl in Hmo;
    injection Hmo as <-.
  - destruct v; try discriminate. now injection Ht as <-.
  - destruct v; try discriminate; now injection Ht as <-.
Qed.


(** C5, at [null]: [typeof null] is ["object"], [for-in] over [null]
    visits nothing, and with no method to wrap nothing reads a member of
    the instance, so a wrapper comes back. *)
Theorem null_instance_is_accepted options :
  typeof VNull = "object"
  /\ ProxyCache shape_of out VNull (MethodsArray []) options
     = Constructed
         (<["cache" := MCache (LRU.create (Wrap.max (defaults options))
                                          (Wrap.maxAge (defaults options))
                                          (Wrap.stale (defaults options)))]>
            (<["parent" := MValue VNull]>
               (<["stats" := MStats]>
                  (<["options" := MOptions (defaults options)]> ∅)))).
Proof. split; reflexivity. Qed.

End Builder.

(** C8, where it fails.  The wrapper keeps the members of the instance
    on the object on which it looks up [_proxy] and [_wrap].  On
    [{a: 1, _proxy: f, b: 2}], the loop over the members replaces
    [this._proxy] by the forwarding function of [f] and then exposes [b]
    as what [f(instance, 'b')] returns, not as 2 (and throws where [f]
    throws).  On [{_wrap: f, get: g}] with [methods = ['get']], the
    loop over [methods] calls the forwarding function of [f] and exposes
    [get] as what [f(instance, 'get')] returns, not as the caching
    wrapper of [get]. *)
Theorem members_named_like_the_prototypes_take_over out options :
  let b := Application (VFun 7) (VObj 5%positive) [VObj 5%positive; VStr "b"] in
  let get := Application (VFun 8) (VObj 6%positive) [VObj 6%positive; VStr "get"] in
  prop Sample.odd_shapes (VObj 5%positive) "b" = Some (VNum 2)
  /\ ProxyCache Sample.odd_shapes out (VObj 5%positive) (MethodsArray []) options
     = match call out b with
       | Some v =>
           Escaped "_proxy"
             (<["b" := MValue v]>
                (<["_proxy" := MForward "_proxy"]>
                   (<["a" := MValue (VNum 1)]>
                      (before_loops (VObj 5%positive) options))))
             false
       | None => Thrown "The function called as this._proxy threw."
       end
  /\ prop Sample.odd_shapes (VObj 6%positive) "get" = Some (VFun 0)
  /\ ProxyCache Sample.odd_shapes out (VObj 6%positive) (MethodsArray ["get"]) options
     = match call out get with
       | Some v =>
           Escaped "_wrap"
             (<["get" := MValue v]>
                (<["get" := MForward "get"]>
                   (<["_wrap" := MForward "_wrap"]>
                      (before_loops (VObj 6%positive) options))))
             false
       | None => Thrown "The function called as this._wrap threw."
       end.
Proof.
  intros b get. split; [reflexivity|]. split; [|split; [reflexivity|]].
  - unfold ProxyCache, before_loops. simpl. cbv zeta.
    unfold proxy_step at 3. simpl.
    rewrite !lookup_insert_ne, lookup_empty by discriminate. simpl.
    unfold proxy_step at 2. simpl.
    rewrite !lookup_insert_ne, lookup_empty by discriminate. simpl.
    unfold proxy_step. simpl. rewrite lookup_insert_eq. simpl.
    fold b. destruct (call out b); reflexivity.
  - unfold ProxyCache, before_loops. simpl. cbv zeta.
    unfold proxy_step at 2. simpl.
    rewrite !lookup_insert_ne, lookup_empty by discriminate. simpl.
    unfold proxy_step. simpl.
    rewrite !lookup_insert_ne, lookup_empty by discriminate. simpl.
    unfold wrap_step. simpl.
    rewrite lookup_insert_ne, lookup_insert_eq by discriminate. simpl.
    fold get. destruct (call out get); reflexivity.
Qed.

End BuildFacts.

(** ** The shape of the wrapper *)

Module WrapperShape.
Import JS Build.

Section Builder.

Variable shape_of : loc -> shape.
Variable out : outside.

(** A construction that returns a wrapper has run both loops on the
    wrapper the constructor set up. *)
Lemma constructed_from instance names options this :
  ProxyCache shape_of out instance (MethodsArray names) options = Constructed this ->
  exists this1,
    foldl (proxy_step shape_of out instance)
          (Constructed (before_loops instance options))
          (for_in shape_of instance) = Constructed this1
    /\ foldl (wrap_step shape_of out instance) (Constructed this1) names
       = Constructed this.
Proof.
  unfold ProxyCache. intros H.
  destruct (negb (String.eqb (typeof instance) "object")); [discriminate|].
  cbv zeta in H. fold (before_loops instance options) in H.
  destruct (foldl (proxy_step shape_of out instance)
                  (Constructed (before_loops instance options))
                  (for_in shape_of instance)) as [this1 | m | n] eqn:H1;
    [|now apply BuildFacts.wrap_steps_stuck in H
     |now apply BuildFacts.wrap_steps_stuck in H].
  now exists this1.
Qed.

Lemma before_loops_others instance options p :
  ~ In p own -> before_loops instance options !! p = None.
Proof.
  intros N. unfold before_loops. cbv zeta.
  rewrite !lookup_insert_ne; [apply lookup_empty| | | |];
    intros <-; apply N; simpl; auto.
Qed.

(** A wrapper has no members but the four the constructor sets up, the
    members of the instance that [for-in] visits, and the names of
    [methods]: under any other name it holds nothing, so a member of the
    instance that is not enumerable is passed through only if [methods]
    names it; and a member the constructor set up is as it was set up
    unless one of the two loops assigned to its name.  This holds of
    every wrapper a construction returns, also where the loops have
    called a member of the instance in place of [_proxy] or [_wrap]. *)
Theorem wrapper_exposes_nothing_else instance names options this :
  returned (ProxyCache shape_of out instance (MethodsArray names) options)
  = Some this ->
  forall p,
    ~ In p (for_in shape_of instance) -> ~ In p names ->
    this !! p = before_loops instance options !! p
    /\ (~ In p own -> this !! p = None).
Proof.
  intros H p Hk Hn. unfold ProxyCache in H.
  destruct (negb (String.eqb (typeof instance) "object")); [discriminate|].
  cbv zeta in H. fold (before_loops instance options) in H.
  destruct (BuildFacts.wrap_steps_keep _ _ _ p _ _ _ Hn H) as (this1 & H1 & E2).
  destruct (BuildFacts.proxy_steps_keep _ _ _ p _ _ _ Hk H1)
    as (this0 & H0 & E1).
  injection H0 as <-.
  assert (E : this !! p = before_loops instance options !! p)
    by (now rewrite E2, E1).
  split; [exact E|]. intros No. rewrite E. now apply before_loops_others.
Qed.

(** Unless the instance or [methods] has a name [options], the wrapper
    keeps the options it was given, completed with the defaults: every
    wrapped method takes the [tombstone] given, or [true]; and the store
    (unless something is named [cache]) is created with the [max],
    [maxAge] and [stale] given, or 10000, one minute and [false]. *)
Theorem options_reach_the_wrapper instance names options this :
  ProxyCache shape_of out instance (MethodsArray names) options = Constructed this ->
  ~ In "options" (for_in shape_of instance) ->
  ~ In "options" names ->
  this !! "options" = Some (MOptions (defaults options))
  /\ (forall m, In m names ->
        this !! m = Some (MWrapped m (default true (o_tombstone options))))
  /\ (~ In "cache" (for_in shape_of instance) -> ~ In "cache" names ->
      this !! "cache"
      = Some (MCache (LRU.create (default 10000%nat (o_max options))
                                 (default 60000%Z (o_maxAge options))
                                 (default false (o_stale options))))).
Proof.
  intros H Hk Hn.
  destruct (constructed_from _ _ _ _ H) as (this1 & H1 & H2).
  destruct (BuildFacts.proxy_steps _ _ _ _ _ _ H1) as [_ Hout1].
  destruct (BuildFacts.wrap_steps _ _ _ _ _ _ H2) as [_ Hout2].
  assert (O1 : this1 !! "options" = Some (MOptions (defaults options)))
    by (rewrite Hout1; auto).
  split; [|split].
  - rewrite Hout2; auto.
  - intros m Hm.
    destruct (BuildFacts.wrap_steps_tombstone _ _ _ _ _ _ Hn H2 m Hm)
      as (tomb & Ht & Hthis).
    unfold read_tombstone in Ht. rewrite O1 in Ht. injection Ht as <-.
    exact Hthis.
  - intros Hc Hcn. rewrite Hout2, Hout1; auto.
Qed.

End Builder.

End WrapperShape.

(** ** Worked instances *)

Module Instances.

Import Key JS Wrap Sample.

(** Two calls of [get(1, cb)] on a fresh wrapper, then the completion of
    the one invocation with the result 7. *)
Lemma coalescing_witness :
  let s := init tombstone_on ∅ in
  let calls := [Called [ANum 1] 0 10; Called [ANum 1] 1 11] in
  let s1 := run quiet tombstone_on "get" s (map call_event calls) in
  let s2 := step quiet tombstone_on "get" s1 (Complete 0 VNull (VNum 7) 20) in
  upstream s1 = [Invocation "get:1" [ANum 1] 10 false]
  /\ delivered s2 = [Delivery 0 VNull (VNum 7); Delivery 1 VNull (VNum 7)].
Proof.
  destruct (proj1 (proj2 (proj2 (proj2
              (WrapFacts.coalescing quiet tombstone_on "get"))))
              (init tombstone_on ∅)
              (Called [ANum 1] 0%nat 10%Z) [Called [ANum 1] 1%nat 11%Z]
              VNull (VNum 7) 20%Z)
    as (Hu & _ & _ & Hd & _).
  - left. reflexivity.
  - repeat constructor.
  - split; [exact Hu | exact Hd].
Defined.

(** [get(1, cb0)] fails with "boom": the error reaches [cb0], nothing is
    stored, and [get(1, cb1)] invokes the underlying method again. *)
Lemma error_is_not_cached_witness :
  let s' := step quiet tombstone_on "get" in_flight
                 (Complete 0 (VStr "boom") VUndefined 20) in
  let s2 := step quiet tombstone_on "get" s' (Call [ANum 1] 1%nat 30) in
  delivered s' = [Delivery 0 (VStr "boom") VUndefined]
  /\ inFlight_get (inFlight s') "get:1" = FNull
  /\ upstream s2
     = (upstream s' ++ [Invocation "get:1" [ANum 1] 30 false])%list.
Proof.
  destruct (WrapFacts.error_is_not_cached quiet tombstone_on "get" in_flight
              0 get_1 (VStr "boom") VUndefined 20 [0%nat])
    as (_ & _ & Hd & Hn & Hnext).
  - split; reflexivity.
  - reflexivity.
  - reflexivity.
  - split; [exact Hd|]. split; [exact Hn|].
    apply (Hnext [ANum 1] 1%nat 30%Z); reflexivity.
Defined.

(** The user record is cached; [get(1, cb1)] is handed a copy; whatever
    that caller assigns to [name] on its copy, the stored record keeps
    its members and [get(1, cb2)] is handed them again. *)
Lemma cache_hit_copy_is_isolated_witness :
  let record : JS.object :=
    {[ "name" := VStr "ann"; "address" := VObj 2%positive ]} in
  let s1 := step quiet tombstone_on "get" cached (Call [ANum 1] 1%nat 30) in
  exists copy,
    ticks s1 = [(1%nat, VObj copy)]
    /\ copy <> 1%positive
    /\ let s2 := run quiet tombstone_on "get" s1
                     (map (write_event copy) [("name", VStr "zed")]) in
       let s3 := step quiet tombstone_on "get" s2 (Call [ANum 1] 2%nat 40) in
       members (heap s2) (VObj 1%positive) = Some record
       /\ exists copy2,
           ticks s3 = [(1%nat, VObj copy); (2%nat, VObj copy2)]
           /\ members (heap s3) (VObj copy2) = Some record.
Proof.
  intros record s1.
  destruct (WrapFacts.cache_hit_copy_is_isolated quiet tombstone_on "get"
              cached [ANum 1] 1%nat 30 2%nat 40
              (LRU.Entry "get:1" (VObj 1%positive) 20) 1%positive record
              [("name", VStr "zed")])
    as (copy & Ht & Hne & _ & _ & H); try reflexivity.
  exists copy. split; [exact Ht|]. split; [exact Hne|].
  cbv zeta in H. destruct H as (Hl & _ & copy2 & Ht3 & _ & _ & Hm & _).
  split; [exact Hl|]. exists copy2. split; [exact Ht3 | exact Hm].
Defined.

(** C3, refuted.  The record handed to the first caller is the very
    object the cache stores: once that caller renames it, the stored
    entry reads "bob", and so does the copy a later cache hit hands out,
    which would have read "ann" had the first caller left its record
    alone.  And the copy handed out on a cache hit shares the stored
    record's [address]: once its holder moves it to "Rome", the stored
    entry and the next caller's copy have moved too. *)
Lemma returned_objects_are_shared :
  let run_get := run quiet tombstone_on "get" (init tombstone_on users) in
  let untouched := run_get (before_rename ++ first_hit)%list in
  let renamed := run_get (before_rename ++ rename ++ first_hit)%list in
  let moved := run_get (before_rename ++ rename ++ first_hit ++ move_and_hit)%list in
  delivered renamed
  = [Delivery 0 VNull (VObj 1%positive); Delivery 1 VNull (VObj 3%positive)]
  /\ LRU.find (cache renamed) "get:1"
     = Some (LRU.Entry "get:1" (VObj 1%positive) 20)
  /\ delivered untouched = delivered renamed
  /\ read 3%positive "name" (heap untouched) = VStr "ann"
  /\ read 3%positive "name" (heap renamed) = VStr "bob"
  /\ read 1%positive "name" (heap renamed) = VStr "bob"
  /\ read 3%positive "address" (heap renamed) = VObj 2%positive
  /\ read 1%positive "address" (heap renamed) = VObj 2%positive
  /\ read 2%positive "city" (heap renamed) = VStr "Oslo"
  /\ delivered moved
     = [Delivery 0 VNull (VObj 1%positive); Delivery 1 VNull (VObj 3%positive);
        Delivery 2 VNull (VObj 4%positive)]
  /\ read 4%positive "address" (heap moved) = VObj 2%positive
  /\ read 2%positive "city" (heap moved) = VStr "Rome".
Proof. vm_compute. repeat split; reflexivity. Qed.




(** [get(1, cb1)] hits the cache: [cb1] is not invoked by the call, but
    by the tick after it. *)
Lemma cache_hit_is_deferred_witness :
  let s1 := step quiet tombstone_on "get" cached (Call [ANum 1] 1%nat 30) in
  let s3 := step quiet tombstone_on "get" s1 (Tick 31) in
  delivered s1 = delivered cached
  /\ exists copy,
      ticks s1 = [(1%nat, copy)]
      /\ delivered s3 = (delivered cached ++ [Delivery 1 VNull copy])%list.
Proof.
  destruct (WrapFacts.cache_hit_is_deferred quiet tombstone_on "get" cached
              [ANum 1] 1%nat 30 [] 31)
    as (_ & Hd & _ & copy & Ht & _ & _ & Hd3); try reflexivity.
  split; [exact Hd|]. exists copy. split; [exact Ht | exact Hd3].
Defined.

(** [get(1, cb0)] completes after 10 time units: one timer, of 10. *)
Lemma metrics_per_call_witness :
  let s' := step quiet tombstone_on "get" in_flight
                 (Complete 0 VNull (VNum 7) 20) in
  exists more,
    stats s'
    = (stats in_flight
       ++ Timer "proxy-cache.duration" 10 ["method:get"] :: more)%list
    /\ forallb (fun m => negb (is_timer m)) more = true.
Proof.
  apply (proj1 (proj2 (proj2 (WrapFacts.metrics_per_call quiet tombstone_on "get")))
           in_flight 0%nat get_1 VNull (VNum 7) 20%Z [0%nat]).
  - split; reflexivity.
  - reflexivity.
Defined.

(** [get(1, cb0)] completes with [null] and the tombstone option on:
    [null] is stored, and [get(1, cb1)] is served [null] from the cache. *)
Lemma null_is_treated_as_undefined_witness :
  let s' := step quiet tombstone_on "get" in_flight
                 (Complete 0 VNull VNull 20) in
  let s2 := step quiet tombstone_on "get" s' (Call [ANum 1] 1%nat 30) in
  LRU.find (cache s') "get:1" = Some (LRU.Entry "get:1" VNull 20)
  /\ ticks s2 = (ticks s' ++ [(1%nat, VNull)])%list
  /\ upstream s2 = upstream s'.
Proof.
  destruct (WrapFacts.null_is_treated_as_undefined quiet tombstone_on "get"
              in_flight 0 get_1 VNull VNull 20 [0%nat])
    as (_ & _ & _ & _ & _ & Hon); try reflexivity.
  - split; reflexivity.
  - now left.
  - destruct (Hon eq_refl) as [Hf Hnext]; [vm_compute; lia|].
    split; [exact Hf|].
    destruct (Hnext [ANum 1] 1%nat 30%Z) as (Ht & Hu & _);
      [reflexivity | vm_compute; discriminate |].
    split; [exact Ht | exact Hu].
Defined.

(** A method named [toString] that takes only a callback: the first call
    throws. *)
Lemma inherited_name_throws_witness :
  (wrapped tombstone_on "toString" [] 0%nat 10 (init tombstone_on ∅)).2 = Threw
  /\ upstream (wrapped tombstone_on "toString" [] 0%nat 10
                       (init tombstone_on ∅)).1 = [].
Proof.
  destruct (WrapFacts.inherited_name_throws tombstone_on "toString" [] 0%nat 10
              (init tombstone_on ∅)) as [_ H]; try reflexivity.
  - apply (bool_decide_eq_true_1 _). reflexivity.
  - rewrite H. split; reflexivity.
Defined.

(** [cb0], handed the error of [get(1, cb0)], calls [get(1, cb1)]:
    [cb1] is dropped. *)
Lemma reentrant_call_is_dropped_witness :
  let s' := step retrying tombstone_on "get" in_flight
                 (Complete 0 (VStr "boom") VUndefined 20) in
  delivered s' = [Delivery 0 (VStr "boom") VUndefined]
  /\ ticks s' = []
  /\ upstream s' = [Invocation "get:1" [ANum 1] 10 true]
  /\ inFlight s' !! "get:1" = Some Cleared.
Proof.
  destruct (WrapFacts.reentrant_call_is_dropped retrying tombstone_on "get"
              in_flight 0 get_1 (VStr "boom") VUndefined 20 0%nat
              [ANum 1] 1%nat)
    as (Hd & Ht & Hu & Hi); try reflexivity.
  - split; reflexivity.
  - split; [exact Hd|]. split; [exact Ht|]. split; [exact Hu|].
    rewrite Hi. apply lookup_insert_eq.
Defined.


(** [ProxyCache(db, ['get'], {tombstone: true})] on an instance with an
    [options] property of its own: [get] is wrapped with the tombstone
    option off. *)
Lemma instance_options_replace_the_configuration_witness :
  match Build.ProxyCache shapes answers (VObj 3%positive) (Build.MethodsArray ["get"])
          (Build.UserOptions None None None None (Some true)) with
  | Build.Constructed this =>
      this !! "get" = Some (Build.MWrapped "get" false)
  | _ => False
  end.
Proof.
  destruct (Build.ProxyCache shapes answers (VObj 3%positive)
              (Build.MethodsArray ["get"])
              (Build.UserOptions None None None None (Some true)))
    as [this | m | n this busy] eqn:H; [|vm_compute in H; discriminate..].
  refine (BuildFacts.instance_options_replace_the_configuration shapes answers
            (VObj 3%positive) ["get"] _ this _ _ H "get" _).
  - simpl. auto.
  - intros [E | []]. discriminate.
  - now left.
Defined.


(** [get(1, cb0)] completes with the user record at location 1: [cb0]
    is handed that reference, and the store holds it. *)
Lemma completion_shares_the_result_witness :
  let s' := step quiet tombstone_on "get" in_flight
                 (Complete 0 VNull (VObj 1%positive) 20) in
  delivered s' = [Delivery 0 VNull (VObj 1%positive)]
  /\ LRU.find (cache s') "get:1"
     = Some (LRU.Entry "get:1" (VObj 1%positive) 20).
Proof.
  destruct (WrapFacts.completion_shares_the_result quiet tombstone_on "get"
              in_flight 0 get_1 VNull (VObj 1%positive) 20 [0%nat])
    as (Hd & Hf); try reflexivity.
  - split; reflexivity.
  - vm_compute. lia.
  - split; [exact Hd | exact Hf].
Defined.

(** [get(1, cb0)] completes with 7 at time 20: [get(1, cb1)] at 30 is
    served 7 from the cache; [get(1, cb1)] at 70000 invokes the
    underlying method again. *)
Lemma stored_result_is_served_until_it_expires_witness :
  let s' := step quiet tombstone_on "get" in_flight
                 (Complete 0 VNull (VNum 7) 20) in
  let soon := step quiet tombstone_on "get" s' (Call [ANum 1] 1%nat 30) in
  let late := step quiet tombstone_on "get" s' (Call [ANum 1] 1%nat 70000) in
  upstream soon = upstream s'
  /\ (exists cached, ticks soon = (ticks s' ++ [(1%nat, cached)])%list)
  /\ upstream late
     = (upstream s' ++ [Invocation "get:1" [ANum 1] 70000 false])%list
  /\ ticks late = ticks s'.
Proof.
  pose proof (Sequences.stored_result_is_served_until_it_expires quiet
                tombstone_on "get" in_flight 0 get_1 VNull (VNum 7) 20
                [0%nat]) as H.
  destruct (H (conj eq_refl eq_refl) eq_refl eq_refl
              ltac:(vm_compute; lia) [ANum 1] 1%nat 30%Z eq_refl)
    as [Hsoon _].
  destruct (H (conj eq_refl eq_refl) eq_refl eq_refl
              ltac:(vm_compute; lia) [ANum 1] 1%nat 70000%Z eq_refl)
    as [_ Hlate].
  destruct Hsoon as (Hu & _ & cached & Ht & _); [vm_compute; discriminate|].
  destruct Hlate as (Hu2 & _ & Ht2); [vm_compute; reflexivity|].
  split; [exact Hu|]. split; [now exists cached|].
  split; [exact Hu2 | exact Ht2].
Defined.

(** [get(1, cb0)] fails with "boom"; the underlying method then calls
    back again, with 7: the second completion throws, invokes no
    callback, and 7 is in the store. *)
Lemma completion_called_twice_witness :
  let s1 := step quiet tombstone_on "get" in_flight
                 (Complete 0 (VStr "boom") VUndefined 20) in
  let again := completion quiet tombstone_on "get" "get:1" 10 VNull (VNum 7) 30 s1 in
  again.2 = Threw
  /\ delivered again.1 = delivered s1
  /\ cache again.1 = LRU.set (cache s1) "get:1" (VNum 7) 30.
Proof.
  destruct (Sequences.completion_called_twice quiet tombstone_on "get" in_flight
              0 get_1 (VStr "boom") VUndefined 20 [0%nat] VNull (VNum 7) 30)
    as [(Ho & Hd & _ & _ & _ & _ & Hc) _].
  - split; reflexivity.
  - reflexivity.
  - split; [exact Ho|]. split; [exact Hd | exact Hc].
Defined.

(** [cb0], handed 7, calls [get(1, cb1)]: [cb1] is served 7 from the
    cache.  With the tombstone option off and [cb0] handed [undefined],
    [cb1] is dropped. *)
Lemma reentrant_call_after_a_result_witness :
  let s' := step asking_again tombstone_on "get" in_flight
                 (Complete 0 VNull (VNum 7) 20) in
  let s'' := step asking_again tombstone_off "get" in_flight_off
                  (Complete 0 VNull VUndefined 20) in
  ticks s' = [(1%nat, VNum 7)]
  /\ delivered s'' = [Delivery 0 VNull VUndefined]
  /\ ticks s'' = []
  /\ inFlight s'' !! "get:1" = Some Cleared.
Proof.
  destruct (Sequences.reentrant_call_after_a_result asking_again tombstone_on
              "get" in_flight 0 get_1 VNull (VNum 7) 20 0%nat [ANum 1] 1%nat)
    as (_ & _ & _ & Hserved & _); try reflexivity.
  { split; reflexivity. }
  destruct (Sequences.reentrant_call_after_a_result asking_again tombstone_off
              "get" in_flight_off 0 get_1 VNull VUndefined 20 0%nat [ANum 1]
              1%nat)
    as (Hd & _ & Hi & _ & Hdropped); try reflexivity.
  { split; reflexivity. }
  split; [apply Hserved; [reflexivity | vm_compute; lia | vm_compute; discriminate]|].
  split; [exact Hd|]. split; [now apply Hdropped|].
  rewrite Hi. apply lookup_insert_eq.
Defined.

(** [get(1, cb0)] and [get(2, cb1)] are in flight; [get(1)] completes:
    [cb0] is invoked, [get(2)] stays outstanding with [cb1] queued. *)
Lemma keys_do_not_interfere_witness :
  let s' := step quiet tombstone_on "get" two_keys
                 (Complete 0 VNull (VNum 7) 20) in
  delivered s' = [Delivery 0 VNull (VNum 7)]
  /\ pending s' 1 get_2
  /\ exists more, inFlight s' !! "get:2" = Some (Waiting ([1%nat] ++ more)%list).
Proof.
  apply (Sequences.keys_do_not_interfere quiet tombstone_on "get" two_keys
           0 get_1 1 get_2 VNull (VNum 7) 20 [0%nat] [1%nat]).
  - split; reflexivity.
  - split; reflexivity.
  - discriminate.
  - reflexivity.
  - reflexivity.
Defined.

(** The user record is cached; [get(1, cb1)] hits the cache and [cb1]
    is run: the store is as it was. *)
Lemma peek_leaves_the_store_alone_witness :
  cache (run quiet tombstone_on "get" cached first_hit) = cache cached.
Proof.
  apply (proj1 (Sequences.peek_leaves_the_store_alone quiet tombstone_on
                  "get" eq_refl) first_hit cached).
  repeat constructor; discriminate.
Defined.

(** After [get(1, cb0)], the one queue is that of the one outstanding
    invocation. *)
Lemma registry_matches_outstanding_witness :
  (exists i u, pending in_flight i u /\ u_key u = "get:1")
  /\ (forall fns, inFlight in_flight !! "get:1" = Some (Waiting fns) -> fns <> []).
Proof.
  destruct (Invariants.registry_matches_outstanding quiet tombstone_on "get"
              in_flight) as [Hiff Hne].
  - exists users, [Call [ANum 1] 0%nat 10%Z]. reflexivity.
  - split; [|exact (Hne "get:1")].
    apply (proj1 (Hiff "get:1")). now exists [0%nat].
Defined.

(** After [get(1, cb0)] has completed: one call, one size, one miss, one
    timer, no hit. *)
Lemma metrics_add_up_witness :
  count (is_incr "proxy-cache.miss") (stats cached) = List.length (upstream cached)
  /\ count is_timer (stats cached) = completed cached
  /\ count (is_incr "proxy-cache.calls") (stats cached)
     = count (is_gauge "proxy-cache.size") (stats cached)
  /\ (count (is_incr "proxy-cache.hit") (stats cached)
      + count (is_incr "proxy-cache.miss") (stats cached)
      <= count (is_incr "proxy-cache.calls") (stats cached))%nat.
Proof.
  apply (Tally.metrics_add_up quiet tombstone_on "get" cached).
  exists users, before_rename. reflexivity.
Defined.

(** [cb0] and [cb1] wait for [get(1)]; it completes with 7 and [cb0]
    throws: [cb1] is not invoked, and [get(1, cb2)], made once the
    stored 7 has expired, only joins the queue. *)
Lemma throwing_callback_strands_the_key_witness :
  let s' := Unwind.step quiet first_throws tombstone_on "get" two_waiting
                        (Complete 0 VNull (VNum 7) 20) in
  let s3 := (wrapped tombstone_on "get" [ANum 1] 2%nat 70000 s'.1).1 in
  s'.2 = Threw
  /\ delivered s'.1 = [Delivery 0 VNull (VNum 7)]
  /\ stranded "get:1" s'.1
  /\ upstream s3 = upstream s'.1
  /\ delivered s3 = delivered s'.1
  /\ ticks s3 = ticks s'.1.
Proof.
  destruct (UnwindFacts.throwing_callback_strands_the_key quiet first_throws
              tombstone_on "get" two_waiting 0 get_1 VNull (VNum 7) 20
              [] 0%nat [1%nat])
    as (Ho & Hd & _ & Hrest).
  - apply (WrapFacts.reachable_one_in_flight quiet tombstone_on "get").
    exists users, [Call [ANum 1] 0%nat 10%Z; Call [ANum 1] 1%nat 11%Z].
    reflexivity.
  - split; reflexivity.
  - reflexivity.
  - constructor.
  - reflexivity.
  - destruct (Hrest []) as [Hs Hcall].
    destruct (Hcall [ANum 1] 2%nat 70000%Z eq_refl eq_refl)
      as (Hu3 & Hd3 & Ht3 & _).
    split; [exact Ho|]. split; [exact Hd|]. split; [exact Hs|].
    split; [exact Hu3|]. split; [exact Hd3 | exact Ht3].
Defined.

(** [ProxyCache(db, ['get'])]: [toString], which [db] inherits and
    [for-in] does not visit, is not on the wrapper; [parent] is [db];
    [get] is wrapped with the tombstone option on. *)
Lemma wrapper_exposes_nothing_else_witness :
  match Build.ProxyCache shapes answers (VObj 1%positive) (Build.MethodsArray ["get"])
                         Build.no_options with
  | Build.Constructed this =>
      this !! "toString" = None
      /\ this !! "parent" = Some (Build.MValue (VObj 1%positive))
  | _ => False
  end.
Proof.
  destruct (Build.ProxyCache shapes answers (VObj 1%positive)
              (Build.MethodsArray ["get"]) Build.no_options)
    as [this | m | n this busy] eqn:H; [|vm_compute in H; discriminate..].
  split.
  - apply (WrapperShape.wrapper_exposes_nothing_else shapes _ _ _ _ _
             (f_equal Build.returned H) "toString").
    + simpl. intros [E | [E | [E | []]]]; discriminate.
    + intros [E | []]; discriminate.
    + simpl. intros [E | [E | [E | [E | []]]]]; discriminate.
  - apply (WrapperShape.wrapper_exposes_nothing_else shapes _ _ _ _ _
             (f_equal Build.returned H) "parent").
    + simpl. intros [E | [E | [E | []]]]; discriminate.
    + intros [E | []]; discriminate.
Defined.

(** [ProxyCache(db, ['get'], {maxAge: 50, tombstone: false})]: [get] is
    wrapped with the tombstone option off, and the store is created
    with [max] 10000 and [maxAge] 50. *)
Lemma options_reach_the_wrapper_witness :
  match Build.ProxyCache shapes answers (VObj 1%positive) (Build.MethodsArray ["get"])
          (Build.UserOptions None (Some 50%Z) None None (Some false)) with
  | Build.Constructed this =>
      this !! "get" = Some (Build.MWrapped "get" false)
      /\ this !! "cache"
         = Some (Build.MCache (LRU.create 10000 50 false))
  | _ => False
  end.
Proof.
  destruct (Build.ProxyCache shapes answers (VObj 1%positive)
              (Build.MethodsArray ["get"])
              (Build.UserOptions None (Some 50%Z) None None (Some false)))
    as [this | m | n this busy] eqn:H; [|vm_compute in H; discriminate..].
  destruct (WrapperShape.options_reach_the_wrapper shapes _ _ _ _ _ H)
    as (_ & Hm & Hc).
  - simpl. intros [E | [E | [E | []]]]; discriminate.
  - intros [E | []]; discriminate.
  - split.
    + apply (Hm "get"). now left.
    + apply Hc.
      * simpl. intros [E | [E | [E | []]]]; discriminate.
      * intros [E | []]; discriminate.
Defined.

(** [get(1, cb0)] completes with the user record, [get(1, cb1)] hits
    the cache and [cb1] is run: the record has its members still. *)
Lemma wrapper_never_writes_to_an_object_witness :
  heap (run quiet tombstone_on "get" (init tombstone_on users)
            (before_rename ++ first_hit)%list) !! 1%positive
  = Some {[ "name" := VStr "ann"; "address" := VObj 2%positive ]}.
Proof.
  apply (HeapFacts.wrapper_never_writes_to_an_object quiet tombstone_on "get").
  - intros fn err result. constructor.
  - repeat constructor; discriminate.
  - reflexivity.
Defined.

(** Two calls of [toString(cb)] on a new wrapper of a method named
    [toString]: the underlying method is never invoked, and the first
    call throws. *)
Lemma inherited_name_is_never_invoked_witness :
  let calls := [Called [] 0 10; Called [] 1 11] in
  let s := run quiet tombstone_on "toString" (init tombstone_on ∅)
               (map call_event calls) in
  upstream s = []
  /\ delivered s = []
  /\ (wrapped tombstone_on "toString" [] 0%nat 10 (init tombstone_on ∅)).2
     = Threw.
Proof.
  destruct (Shortfalls.inherited_name_is_never_invoked quiet tombstone_on
              "toString" ∅ [Called [] 0%nat 10%Z; Called [] 1%nat 11%Z])
    as (Hu & Hd & _ & _ & Hc).
  - apply (bool_decide_eq_true_1 _). reflexivity.
  - repeat constructor.
  - split; [exact Hu|]. split; [exact Hd|].
    exact (Hc [] (Called [] 0%nat 10%Z) [Called [] 1%nat 11%Z] eq_refl).
Defined.

(** [get(1, cb0)] fails with "boom" and [cb0] retries [get(1, cb1)] at
    once: the underlying method is not invoked again and [cb1] is never
    invoked. *)
Lemma retry_from_the_error_callback_is_dropped_witness :
  let s := run retrying tombstone_on "get" (init tombstone_on users)
               [ Call [ANum 1] 0%nat 10;
                 Complete 0 (VStr "boom") VUndefined 20;
                 Tick 21; Tick 22 ] in
  upstream s = [Invocation "get:1" [ANum 1] 10 true]
  /\ delivered s = [Delivery 0 (VStr "boom") VUndefined]
  /\ ticks s = []
  /\ inFlight s !! "get:1" = Some Cleared.
Proof.
  apply (Shortfalls.retry_from_the_error_callback_is_dropped retrying
           tombstone_on "get" users [ANum 1] 0%nat 1%nat (VStr "boom")
           VUndefined 10%Z 20%Z [21%Z; 22%Z]).
  - apply (bool_decide_eq_false_1 _). reflexivity.
  - reflexivity.
  - reflexivity.
Defined.

(** With the tombstone option off, [get(1, cb0)] completes with [null]
    and [cb0] calls [get(1, cb1)] at once: nothing is stored, the
    underlying method is not invoked again and [cb1] is never invoked. *)
Lemma call_from_the_callback_after_null_is_dropped_witness :
  let s := run asking_again tombstone_off "get" (init tombstone_off users)
               [ Call [ANum 1] 0%nat 10;
                 Complete 0 VNull VNull 20;
                 Tick 21 ] in
  LRU.entries (cache s) = []
  /\ upstream s = [Invocation "get:1" [ANum 1] 10 true]
  /\ delivered s = [Delivery 0 VNull VNull]
  /\ ticks s = []
  /\ inFlight s !! "get:1" = Some Cleared.
Proof.
  apply (Shortfalls.call_from_the_callback_after_null_is_dropped asking_again
           tombstone_off "get" users [ANum 1] 0%nat 1%nat 10%Z 20%Z [21%Z]).
  - apply (bool_decide_eq_false_1 _). reflexivity.
  - reflexivity.
  - reflexivity.
Defined.

End Instances.
